(** * Forge CLI (src/forge/cli.py): a shallow embedding and its properties

    The coordination logic of [forge/cli.py] is embedded as Rocq functions:
    the fan-out primitive [async_map], the paginated listing [gh], the
    credential injection [inject_token], the workspace [scan], the registry
    resolver [pushed] / [baked] / [is_raw], the operations [pull],
    [push] and [deploy], the status display [render_tail] / [render], and
    the command line layer [get_config], [default], [get_workdir],
    [get_repo], [subcommand] and [validate].

    Strings are Python strings, paths are strings joined as
    [posixpath.join] joins them, the attributes of the run are the fields
    of [Baker], and a value that may be [None] is an [option].  What the
    program takes from other modules and libraries (Workstream.call and
    .get, the header parsers, fnmatch, os.path.relpath, image, containers,
    Service.metadata) is a parameter of the definitions that use it.

    Effects are explicit.  Every call the program makes to a collaborator
    (a subprocess through [Workstream.call], an HTTP request through
    [Workstream.get], a file write) is appended to a chronological trace,
    and the collaborator's answer is given by an oracle that may depend on
    the whole trace so far.  Python exceptions are the left injection of a
    sum. *)

From Stdlib Require Import ZArith Ascii String List Lia.
From stdpp Require Import gmap strings list.

Set Warnings "-register-all".

Local Open Scope string_scope.
Local Open Scope list_scope.

(** ** Python values *)

(** Exceptions the embedded code can raise. [ExternalError] stands for
    whatever a collaborator ([Workstream.call], [Workstream.get], the
    standard library parsers) raises.  [OutOfFuel] is not a Python
    exception: it marks a run of the model whose [while] loop was cut by
    the fuel bound before it finished. *)
Inductive exn : Type :=
  | CLIError (msg : string)
  | KeyError (key : string)
  | IndexError
  | TypeError
  | ValueError
  | AttributeError
  | ExternalError (msg : string)
  | OutOfFuel.

(** Decoded JSON, as [response.json()] returns it.  A float is kept as a
    decimal mantissa and exponent; only its being zero is ever observed. *)
Inductive json : Type :=
  | JNull
  | JBool (b : bool)
  | JInt (z : Z)
  | JFloat (m e : Z)
  | JStr (s : string)
  | JArr (items : list json)
  | JObj (fields : list (string * json)).

(** The result of a mapped function: the module-level sentinel [OMIT]
    ([OMIT = object()], compared with [is not]) or any other value. *)
Inductive mapped (R : Type) : Type :=
  | OMIT
  | Val (r : R).
Arguments OMIT {R}.
Arguments Val {R} r.

Definition is_omit {R} (m : mapped R) : bool :=
  match m with OMIT => true | Val _ => false end.

(** What is left of a list of results once [OMIT] is dropped. *)
Fixpoint kept {R} (ms : list (mapped R)) : list R :=
  match ms with
  | [] => []
  | OMIT :: rest => kept rest
  | Val r :: rest => r :: kept rest
  end.

(** ** Secrets and command arguments (forge/workstream.py) *)

Inductive part : Type :=
  | Plain (s : string)
  | Secret (s : string).

(** An argument of [Workstream.call]: a plain string, a [Secret], or an
    [Elidable] made of parts. *)
Inductive arg : Type :=
  | AStr (s : string)
  | ASecret (s : string)
  | AElidable (parts : list part)
  | ANone
  | AValue (v : json).

Record Command : Type := mkCommand {
  argv : list arg;
  cwd : option string;
  verbose : bool
}.

(** ** HTTP *)

Record Request : Type := mkRequest {
  url : string;
  req_headers : option (list (string * string));
  auth : option (option string * option string);
  expected : option (list Z)
}.

(** A [requests] response: [ok] is the library's own attribute, [body] is
    what [response.json()] returns ([None] when it raises [ValueError]). *)
Record Response : Type := mkResponse {
  status_code : Z;
  ok : bool;
  headers : list (string * string);
  body : option json;
  content : string
}.

(** ** Traces and the effect monad *)

Inductive event : Type :=
  | EvCall (c : Command)
  | EvGet (r : Request)
  | EvWrite (file : string) (data : string)
  | EvMakedirs (dir : string).

Definition trace := list event.

(** A computation reads the trace so far and returns the extended trace
    with either a raised exception or a value. *)
Definition M (A : Type) : Type := trace -> trace * (exn + A).

Definition ret {A} (a : A) : M A := fun t => (t, inr a).
Definition raise {A} (e : exn) : M A := fun t => (t, inl e).
Definition bind {A B} (m : M A) (k : A -> M B) : M B :=
  fun t => match m t with
           | (t', inl e) => (t', inl e)
           | (t', inr a) => k a t'
           end.
Definition lift {A} (r : exn + A) : M A := fun t => (t, r).

(** Pure code that can raise. *)
Definition bindE {A B} (x : exn + A) (k : A -> exn + B) : exn + B :=
  match x with
  | inl e => inl e
  | inr a => k a
  end.

Notation "x <-- c ;; k" := (bindE c (fun x => k))
  (at level 100, c at next level, right associativity).

Notation "x <~ c ;; k" := (bind c (fun x => k))
  (at level 100, c at next level, right associativity).
Notation "c ;;; k" := (bind c (fun _ => k))
  (at level 100, right associativity).

(** ** The fan-out primitive

    [eventlet.spawn] creates one green thread per item without running it;
    the threads run when the spawning thread blocks in its first [wait].
    The model runs every thread as one atomic step.  The order in which
    the hub completes the threads is the scheduler's: [sched] lists thread
    indices, and a thread the scheduler has not completed is completed by
    the [wait] that needs it. *)
Section Eventlet.
Context {A R : Type}.
Variable sched : trace -> list nat.
Variable fn : A -> M (mapped R).
Variable items : list A.

Definition run_thread (i : nat) (finished : gmap nat (exn + mapped R))
      (t : trace) : trace * gmap nat (exn + mapped R) :=
    match finished !! i, items !! i with
    | None, Some a => let '(t', r) := fn a t in (t', <[i := r]> finished)
    | _, _ => (t, finished)
    end.

Fixpoint run_schedule (order : list nat) (finished : gmap nat (exn + mapped R))
      (t : trace) : trace * gmap nat (exn + mapped R) :=
    match order with
    | [] => (t, finished)
    | i :: rest =>
        let '(t', finished') := run_thread i finished t in
        run_schedule rest finished' t'
    end.

(** [for thread in threads: result = thread.wait(); if result is not
    OMIT: yield result] *)
Fixpoint wait_each (threads : list nat) (finished : gmap nat (exn + mapped R))
      : M (list R) :=
    match threads with
    | [] => ret []
    | i :: rest => fun t =>
        let '(t', finished') := run_thread i finished t in
        match finished' !! i with
        | Some (inl e) => (t', inl e)
        | Some (inr OMIT) => wait_each rest finished' t'
        | Some (inr (Val r)) =>
            (rs <~ wait_each rest finished' ;; ret (r :: rs)) t'
        | None => wait_each rest finished' t'
        end
    end.

Definition async_map : M (list R) := fun t =>
    let '(t', finished) := run_schedule (sched t) ∅ t in
    wait_each (seq 0 (length items)) finished t'.
End Eventlet.

(** [async_apply(fun, sequence)]: [async_map] of the function that unpacks
    each item into the arguments of [fun]; [fn] takes the tuple. *)
Definition async_apply {A R} (sched : trace -> list nat)
    (fn : A -> M (mapped R)) (sequence : list A) : M (list R) :=
  async_map sched fn sequence.

(** [force(sequence)]: consume the generator, drop the results. *)
Definition force {R} (sequence : M (list R)) : M unit :=
  sequence ;;; ret tt.

(** ** Python strings *)

Definition str_truthy (s : string) : bool :=
  match s with "" => false | _ => true end.

(** [s[len(p):]] when [s.startswith(p)]. *)
Fixpoint strip_prefix (p s : string) : option string :=
  match p, s with
  | "", _ => Some s
  | String a p', String b s' =>
      if Ascii.eqb a b then strip_prefix p' s' else None
  | String _ _, "" => None
  end.

Definition startswith (s p : string) : bool :=
  match strip_prefix p s with Some _ => true | None => false end.

(** [sub in s] for two strings. *)
Fixpoint str_contains (sub s : string) : bool :=
  if startswith s sub then true
  else match s with
       | "" => false
       | String _ s' => str_contains sub s'
       end.

(** [s.split(sep, 1)]: [None] when [sep] does not occur (the one-element
    list), otherwise the text before and after its leftmost occurrence. *)
Fixpoint split_once (sep s : string) : option (string * string) :=
  match strip_prefix sep s with
  | Some after => Some ("", after)
  | None =>
      match s with
      | "" => None
      | String c s' =>
          match split_once sep s' with
          | Some (before, after) => Some (String c before, after)
          | None => None
          end
      end
  end.

Definition is_space (c : ascii) : bool :=
  let n := nat_of_ascii c in
  (n =? 32)%nat || ((9 <=? n)%nat && (n <=? 13)%nat).

Fixpoint lstrip (s : string) : string :=
  match s with
  | String c s' => if is_space c then lstrip s' else s
  | "" => ""
  end.

Fixpoint rstrip (s : string) : string :=
  match s with
  | "" => ""
  | String c s' =>
      match rstrip s' with
      | "" => if is_space c then "" else String c ""
      | r => String c r
      end
  end.

(** [s.strip()] *)
Definition strip (s : string) : string := rstrip (lstrip s).

(** [s.split()]: the maximal runs of non-space characters. [word] is the
    run being read, in reverse. *)
Fixpoint split_ws_from (word : list ascii) (s : string) : list string :=
  let flush := match word with
               | [] => []
               | _ => [string_of_list_ascii (rev word)]
               end in
  match s with
  | "" => flush
  | String c s' =>
      if is_space c then flush ++ split_ws_from [] s'
      else split_ws_from (c :: word) s'
  end.

Definition split_ws (s : string) : list string := split_ws_from [] s.

(** [sep.join(l)] *)
Fixpoint join (sep : string) (l : list string) : string :=
  match l with
  | [] => ""
  | [x] => x
  | x :: rest => x +:+ sep +:+ join sep rest
  end.

(** ['%s' % v] for an attribute that may be [None]. *)
Definition fmt (v : option string) : string :=
  match v with Some s => s | None => "None" end.

Definition opt_truthy (v : option string) : bool :=
  match v with Some s => str_truthy s | None => false end.

Fixpoint endswith_slash (s : string) : bool :=
  match s with
  | "" => false
  | String c "" => Ascii.eqb c "/"
  | String _ s' => endswith_slash s'
  end.

(** [posixpath.join(a, b)] *)
Definition path_join (a b : string) : string :=
  if startswith b "/" then b
  else if negb (str_truthy a) || endswith_slash a then a +:+ b
  else a +:+ "/" +:+ b.

(** ** Operations on decoded JSON, with Python's dynamic errors *)

Definition json_truthy (v : json) : bool :=
  match v with
  | JNull => false
  | JBool b => b
  | JInt z => negb (z =? 0)%Z
  | JFloat m _ => negb (m =? 0)%Z
  | JStr s => str_truthy s
  | JArr l => match l with [] => false | _ => true end
  | JObj fs => match fs with [] => false | _ => true end
  end.

Definition is_str (key : string) (v : json) : bool :=
  match v with JStr s => String.eqb s key | _ => false end.

Fixpoint assoc {V} (key : string) (fs : list (string * V)) : option V :=
  match fs with
  | [] => None
  | (k, v) :: rest => if String.eqb k key then Some v else assoc key rest
  end.

Definition has_key {V} (key : string) (fs : list (string * V)) : bool :=
  match assoc key fs with Some _ => true | None => false end.

(** [key in v] *)
Definition py_in (key : string) (v : json) : exn + bool :=
  match v with
  | JObj fs => inr (has_key key fs)
  | JArr l => inr (existsb (is_str key) l)
  | JStr s => inr (str_contains key s)
  | _ => inl TypeError
  end.

(** [v[key]] for a string key *)
Definition getitem (v : json) (key : string) : exn + json :=
  match v with
  | JObj fs => match assoc key fs with
               | Some x => inr x
               | None => inl (KeyError key)
               end
  | _ => inl TypeError
  end.

(** [v[0]] *)
Definition getitem0 (v : json) : exn + json :=
  match v with
  | JArr (x :: _) => inr x
  | JArr [] => inl IndexError
  | JStr (String c _) => inr (JStr (String c ""))
  | JStr "" => inl IndexError
  | JObj _ => inl (KeyError "0")
  | _ => inl TypeError
  end.

(** The elements [list.extend] takes from an iterable. *)
Definition iterate (v : json) : exn + list json :=
  match v with
  | JArr l => inr l
  | JObj fs => inr (map (fun kv => JStr (fst kv)) fs)
  | JStr s => inr (map (fun c => JStr (String c "")) (list_ascii_of_string s))
  | _ => inl TypeError
  end.

(** [response.json()] *)
Definition response_json (r : Response) : M json :=
  match body r with
  | Some v => ret v
  | None => raise ValueError
  end.

(** [name in response.headers] and [response.headers[name]]: the header
    dictionary of [requests] compares names without regard to case. *)
Definition lower (c : ascii) : ascii :=
  let n := nat_of_ascii c in
  if (65 <=? n)%nat && (n <=? 90)%nat then ascii_of_nat (n + 32) else c.

Fixpoint lowercase (s : string) : string :=
  match s with
  | "" => ""
  | String c s' => String (lower c) (lowercase s')
  end.

Fixpoint header (name : string) (hs : list (string * string)) : option string :=
  match hs with
  | [] => None
  | (k, v) :: rest =>
      if String.eqb (lowercase k) (lowercase name) then Some v
      else header name rest
  end.

(** ** Configuration of a run: the attributes [main] sets on the [Baker] *)

Record Baker : Type := mkBaker {
  workdir : string;
  org : option string;
  token : option string;
  name_filter : option string;
  registry : option string;
  repo : option string;
  user : option string;
  password : option string;
  dry_run : bool
}.

(** A value a Python expression of the program evaluates to where a
    boolean and a string can both come out ([not x or y]). *)
Inductive pyval : Type :=
  | PBool (b : bool)
  | PStr (s : string).

Definition truthy (v : pyval) : bool :=
  match v with PBool b => b | PStr s => str_truthy s end.

(** ** Credential injection *)

(** [inject_token(url, token)] *)
Definition inject_token (url : string) (token : option string) : arg :=
  match token with
  | None => AStr url
  | Some tok =>
      if negb (str_truthy tok) then AStr url
      else match split_once "://" url with
           | Some (scheme, rest) =>
               AElidable [Plain (scheme +:+ "://"); Secret tok; Plain ("@" +:+ rest)]
           | None => AElidable [Secret tok; Plain ("@" +:+ url)]
           end
  end.

(** Modelled from the spec: the rendering of [Elidable] and [Secret]
    values in status lines is in forge/workstream.py, which is absent.
    The spec (4.3, 3 Credential) says a rendering substitutes the
    credential with a fixed redaction marker; every other part is
    rendered as it is. *)
Definition render_part (marker : string) (p : part) : string :=
  match p with
  | Plain s => s
  | Secret _ => marker
  end.

Definition render (marker : string) (a : arg) : string :=
  match a with
  | AStr s => s
  | ASecret _ => marker
  | AElidable ps => String.concat "" (map (render_part marker) ps)
  | ANone => "None"
  | AValue _ => ""
  end.

(** What the subprocess receives: the parts with the secret in clear. *)
Definition clear_part (p : part) : string :=
  match p with Plain s => s | Secret s => s end.

Definition clear (a : arg) : string :=
  match a with
  | AStr s => s
  | ASecret s => s
  | AElidable ps => String.concat "" (map clear_part ps)
  | ANone => "None"
  | AValue _ => ""
  end.

(** ** Pagination *)

Section Pagination.
(** [requests.utils.parse_header_links]: one dictionary per link. *)
Variable parse_header_links : string -> list (list (string * string)).
(** [Workstream.get]: the response, or the error it raises. *)
Variable fetch : trace -> Request -> exn + Response.

Definition get (r : Request) : M Response :=
    fun t => (t ++ [EvGet r], fetch t r).

(** [for link in links: if link['rel'] == 'next': return link['url']] *)
Fixpoint first_next (links : list (list (string * string))) : exn + option string :=
    match links with
    | [] => inr None
    | link :: rest =>
        match assoc "rel" link with
        | None => inl (KeyError "rel")
        | Some rel =>
            if String.eqb rel "next" then
              match assoc "url" link with
              | Some u => inr (Some u)
              | None => inl (KeyError "url")
              end
            else first_next rest
        end
    end.

Definition next_page (response : Response) : exn + option string :=
    match header "Link" (headers response) with
    | Some v => first_next (parse_header_links v)
    | None => inr None
    end.

(** [result.extend(response.json())]: the attribute is looked up before
    the argument is evaluated. *)
Definition extend (result : json) (response : Response) : M json :=
    match result with
    | JArr l =>
        v <~ response_json response ;;
        more <~ lift (iterate v) ;;
        ret (JArr (l ++ more))
    | _ => raise AttributeError
    end.

Definition auth_headers (b : Baker) : option (list (string * string)) :=
    if opt_truthy (token b)
    then Some [("Authorization", "token " +:+ fmt (token b))]
    else None.

(** The [while next_url:] loop of [gh]. *)
Fixpoint gh_pages (fuel : nat) (hdrs : option (list (string * string)))
      (next_url : option string) (result : json) : M json :=
    if opt_truthy next_url then
      match fuel with
      | O => raise OutOfFuel
      | S fuel' =>
          response <~ get (mkRequest (fmt next_url) hdrs None None) ;;
          result' <~ extend result response ;;
          next_url' <~ lift (next_page response) ;;
          gh_pages fuel' hdrs next_url' result'
      end
    else ret result.

Definition gh (fuel : nat) (b : Baker) (api : string) (expected : option (list Z))
      : M json :=
    let hdrs := auth_headers b in
    response <~ get (mkRequest ("https://api.github.com/" +:+ api) hdrs None expected) ;;
    result <~ response_json response ;;
    if ok response then
      next_url <~ lift (next_page response) ;;
      gh_pages fuel hdrs next_url result
    else ret result.
End Pagination.

(** ** Services and the workspace *)

(** Modelled from the spec: classes [Service] and [Prototype] are in
    forge/common.py, which is absent.  The spec (3) gives a service a
    name, a version, a root path and an ordered list of container
    contexts; [scan] constructs it from the version and the path of
    service.yaml, whose directory is the root. *)
Record Service : Type := mkService {
  name : string;
  version : string;
  root : string;
  descriptor : string;
  containers_of : list string
}.

Record Prototype : Type := mkPrototype {
  proto_descriptor : string
}.

(** The workspace on disk under the work directory: a finite tree of
    listings.  [os.listdir] gives the names of a directory's entries and
    [os.path.isdir] tells the directories among them; the walk below takes
    each entry with its node, which is what the lookup by name gives when
    a listing names every entry once ([wf_tree]). *)
Inductive fsnode : Type :=
  | File
  | Dir (entries : list (string * fsnode)).

Definition is_dir (n : fsnode) : bool :=
  match n with Dir _ => true | File => false end.

Definition mem (x : string) (l : list string) : bool :=
  existsb (String.eqb x) l.

(** [EXCLUDED = set([".git"])] *)
Definition EXCLUDED : list string := [".git"].

Definition add_container (c : string) (svc : Service) : Service :=
  mkService (name svc) (version svc) (root svc) (descriptor svc)
            (containers_of svc ++ [c]).

Definition arg_is (s : string) (a : arg) : bool :=
  match a with AStr x => String.eqb x s | _ => false end.

Definition opt_arg (v : option string) : arg :=
  match v with Some s => AStr s | None => ANone end.

Section Forge.
(** Collaborators. *)
Variable exec : trace -> Command -> exn + string.
Variable fetch : trace -> Request -> exn + Response.
Variable path_exists : trace -> string -> bool.
Variable sched : trace -> list nat.
Variable parse_header_links : string -> list (list (string * string)).
Variable parse_challenge : string -> exn + list (string * string).
Variable py_str : json -> string.
Variable fnmatch : string -> string -> bool.
Variable relpath : string -> string -> string.
Variable image : option string -> option string -> string -> string -> string.
Variable name_of : string -> string.
Variable containers : list Service -> list (Service * string * string).
Variable metadata : Service -> option string -> option string -> string * string.

Variable b : Baker.

(** [Workstream.call]; the result's [output]. *)
Definition call (args : list arg) (dir : option string) (verb : bool) : M string :=
    fun t => let c := mkCommand args dir verb in (t ++ [EvCall c], exec t c).

Definition write_file (file data : string) : M unit :=
    fun t => (t ++ [EvWrite file data], inr tt).

Definition makedirs (dir : string) : M unit :=
    fun t => (t ++ [EvMakedirs dir], inr tt).

(** *** scan *)

Definition scan_state : Type := list Prototype * list Service.

Fixpoint descend (node : fsnode) (path : string) (parent : option nat)
      (st : scan_state) {struct node} : M scan_state :=
    match node with
    | File => raise (ExternalError "listdir")
    | Dir entries =>
        let names := map fst entries in
        if mem "proto.yaml" names then
          ret (fst st ++ [mkPrototype (path_join path "proto.yaml")], snd st)
        else
          sp <~ (if mem "service.yaml" names then
                   out <~ call [AStr "git"; AStr "rev-parse"; AStr "HEAD"] (Some path) false ;;
                   let svc := mkService (name_of (path_join path "service.yaml"))
                                        (strip out) path
                                        (path_join path "service.yaml") [] in
                   ret ((fst st, snd st ++ [svc]), Some (length (snd st)))
                 else ret (st, parent)) ;;
          let st1 := fst sp in
          let parent1 := snd sp in
          let st2 :=
            match parent1 with
            | Some i =>
                if mem "Dockerfile" names then
                  (fst st1,
                   alter (fun svc => add_container
                            (relpath (path_join path "Dockerfile") (root svc)) svc)
                         i (snd st1))
                else st1
            | None => st1
            end in
          (fix children (es : list (string * fsnode)) (st : scan_state) : M scan_state :=
             match es with
             | [] => ret st
             | (n, child) :: rest =>
                 st' <~ (if negb (mem n EXCLUDED) && is_dir child
                         then descend child (path_join path n) parent1 st
                         else ret st) ;;
                 children rest st'
             end) entries st2
    end.

Definition scan (tree : fsnode) : M scan_state :=
    descend tree (workdir b) None ([], []).

(** *** Registry state *)

Definition baked (nm ver : string) : M string :=
    call [AStr "docker"; AStr "images"; AStr "-q";
          AStr (image (registry b) (repo b) nm ver)] None false.

Definition to_str (v : json) : string :=
    match v with JStr s => s | _ => py_str v end.

Definition opt_key (key : string) (opts : list (string * string)) : exn + string :=
    match assoc key opts with
    | Some v => inr v
    | None => inl (KeyError key)
    end.

(** The tail of [pushed], after [result = response.json()]. *)
Definition manifest_state (result : json) (text : string) : exn + bool :=
    sig <-- py_in "signatures" result ;;
    both <-- (if sig : bool then py_in "fsLayers" result else inr false) ;;
    if both : bool then inr true
    else
      has <-- py_in "errors" result ;;
      if has : bool then
        errors <-- getitem result "errors" ;;
        if json_truthy errors then
          first <-- getitem0 errors ;;
          code <-- getitem first "code" ;;
          if is_str "MANIFEST_UNKNOWN" code then inr false
          else inl (CLIError text)
        else inl (CLIError text)
      else inl (CLIError text).

Definition manifest_url (nm ver : string) : string :=
    "https://" +:+ fmt (registry b) +:+ "/v2/" +:+ fmt (repo b) +:+ "/"
    +:+ nm +:+ "/manifests/" +:+ ver.

(** The first request of [pushed]. *)
Definition manifest_request (nm ver : string) : Request :=
    mkRequest (manifest_url nm ver) None (Some (user b, password b))
              (Some [404; 401]%Z).

Definition pushed (nm ver : string) : M bool :=
    let u := manifest_url nm ver in
    response <~ get fetch (manifest_request nm ver) ;;
    response <~ (if (status_code response =? 401)%Z then
                   challenge <~ lift (match header "Www-Authenticate" (headers response) with
                                      | Some c => inr c
                                      | None => inl (KeyError "www-authenticate")
                                      end) ;;
                   let challenge := match strip_prefix "Bearer " challenge with
                                    | Some rest => rest
                                    | None => challenge
                                    end in
                   opts <~ lift (parse_challenge challenge) ;;
                   realm <~ lift (opt_key "realm" opts) ;;
                   service <~ lift (opt_key "service" opts) ;;
                   scope <~ lift (opt_key "scope" opts) ;;
                   tr <~ get fetch (mkRequest (realm +:+ "?service=" +:+ service +:+ "&scope=" +:+ scope)
                                        None (Some (user b, password b)) None) ;;
                   tj <~ response_json tr ;;
                   tok <~ lift (getitem tj "token") ;;
                   get fetch (mkRequest u (Some [("Authorization", "Bearer " +:+ to_str tok)])
                                  None (Some [404]%Z))
                 else ret response) ;;
    result <~ response_json response ;;
    lift (manifest_state result (content response)).

(** [not self.pushed(name, version) or self.baked(name, version)] *)
Definition is_raw (nm ver : string) : M pyval :=
    p <~ pushed nm ver ;;
    if negb p then ret (PBool true)
    else out <~ baked nm ver ;; ret (PStr out).

(** *** push *)

Definition candidate (item : Service * string * string)
      : M (mapped (Service * string * string)) :=
    let '(svc, nm, container) := item in
    out <~ baked nm (version svc) ;;
    if str_truthy out then
      p <~ pushed nm (version svc) ;;
      if negb p then ret (Val item) else ret OMIT
    else ret OMIT.

(** The image of a container of a service. *)
Definition image_of (item : Service * string * string) : string :=
    let '(svc, nm, container) := item in
    image (registry b) (repo b) nm (version svc).

Definition push_command (img : string) : Command :=
    mkCommand [AStr "docker"; AStr "push"; AStr img] None false.

Definition login_command : Command :=
    mkCommand [AStr "docker"; AStr "login"; AStr "-u"; opt_arg (user b);
               AStr "-p"; ASecret (fmt (password b)); opt_arg (registry b)]
              None false.

Definition docker_push (item : Service * string * string) : M (mapped string) :=
    let '(svc, nm, container) := item in
    out <~ call (argv (push_command (image_of item))) None false ;;
    ret (Val out).

Definition push_services (services : list Service) : M unit :=
    local <~ async_apply sched candidate (containers services) ;;
    (match local with
     | [] => ret ""
     | _ => call (argv login_command) None false
     end) ;;;
    force (async_apply sched docker_push local).

Definition push (tree : fsnode) : M unit :=
    st <~ scan tree ;;
    push_services (snd st).

(** *** deploy *)

Definition conflict : Type := string * string * string.

(** The body of [for resource in resources]. *)
Definition claim (svc : Service) (resource : string)
      (acc : gmap string Service * list conflict)
      : gmap string Service * list conflict :=
    let '(owners, conflicts) := acc in
    match owners !! resource with
    | Some first => (owners, conflicts ++ [(resource, name first, name svc)])
    | None => (<[resource := svc]> owners, conflicts)
    end.

Definition claim_all (svc : Service) (resources : list string)
      (acc : gmap string Service * list conflict)
      : gmap string Service * list conflict :=
    fold_left (fun acc resource => claim svc resource acc) resources acc.

Record deploy_state : Type := mkDeployState {
    owners : gmap string Service;
    conflicts : list conflict;
    kube_files : list string
  }.

(** [os.path.join(svc.root, "kube.yaml")] *)
Definition kube_file_of (svc : Service) : string :=
    path_join (root svc) "kube.yaml".

(** The dry-run apply that lists the resource names of a manifest. *)
Definition dry_run_command (kube_file : string) : Command :=
    mkCommand [AStr "kubectl"; AStr "apply"; AStr "--dry-run"; AStr "-f";
               AStr kube_file; AStr "-o"; AStr "name"] None false.

(** The body of [for svc in services]. *)
Definition render_service (svc : Service) (st : deploy_state) : M deploy_state :=
    let '(filename, text) := metadata svc (registry b) (repo b) in
    write_file filename text ;;;
    out <~ call [AStr "./deployment"; AStr "metadata.yaml"] (Some (root svc)) false ;;
    let kube_file := kube_file_of svc in
    write_file kube_file out ;;;
    names <~ call (argv (dry_run_command kube_file)) None false ;;
    let '(owners', conflicts') := claim_all svc (split_ws names) (owners st, conflicts st) in
    ret (mkDeployState owners' conflicts' (kube_files st ++ [kube_file])).

Fixpoint render_services (services : list Service) (st : deploy_state) : M deploy_state :=
    match services with
    | [] => ret st
    | svc :: rest => st' <~ render_service svc st ;; render_services rest st'
    end.

(** The command of the final loop: [kubectl apply -f kube_file], with
    [--dry-run] appended when the operator asked for a dry run. *)
Definition apply_command (kube_file : string) : list arg :=
    [AStr "kubectl"; AStr "apply"; AStr "-f"; AStr kube_file]
    ++ (if dry_run b then [AStr "--dry-run"] else []).

Definition apply_call (kube_file : string) : Command :=
    mkCommand (apply_command kube_file) None true.

Fixpoint apply_all (files : list string) : M unit :=
    match files with
    | [] => ret tt
    | kube_file :: rest =>
        call (argv (apply_call kube_file)) None true ;;; apply_all rest
    end.

Definition conflict_message (c : conflict) : string :=
    let '(resource, first, second) := c in
    resource +:+ " defined by " +:+ first +:+ " and " +:+ second.

Definition deploy_services (services : list Service) : M unit :=
    st <~ render_services services (mkDeployState ∅ [] []) ;;
    match conflicts st with
    | [] => apply_all (kube_files st)
    | cs => raise (CLIError ("conflicts: " +:+ join ", " (map conflict_message cs)))
    end.

Definition deploy (tree : fsnode) : M unit :=
    st <~ scan tree ;;
    deploy_services (snd st).

(** *** pull *)

Definition as_str (v : json) (e : exn) : exn + string :=
    match v with JStr s => inr s | _ => inl e end.

Definition git_pull (item : json * json) : M (mapped unit) :=
    let '(nm, clone_url) := item in
    nm <~ lift (as_str nm AttributeError) ;;
    let repodir := path_join (workdir b) nm in
    (fun t => if path_exists t repodir then ret tt t
              else (makedirs repodir ;;;
                    call [AStr "git"; AStr "init"] (Some repodir) false ;;;
                    ret tt) t) ;;;
    a <~ (if opt_truthy (token b) then
            u <~ lift (as_str clone_url AttributeError) ;;
            ret (inject_token u (token b))
          else ret (match clone_url with JStr u => inject_token u (token b)
                                         | v => AValue v end)) ;;
    call [AStr "git"; AStr "pull"; a] (Some repodir) false ;;;
    ret (Val tt).

(** [[r for r in repos if fnmatch.fnmatch(r["full_name"], self.filter)]] *)
Fixpoint filter_repos (repos : list json) : exn + list json :=
    match repos with
    | [] => inr []
    | r :: rest =>
        match getitem r "full_name" with
        | inl e => inl e
        | inr (JStr full) =>
            match name_filter b with
            | Some pattern =>
                match filter_repos rest with
                | inl e => inl e
                | inr rs => inr (if fnmatch full pattern then r :: rs else rs)
                end
            | None => inl TypeError
            end
        | inr _ => inl TypeError
        end
    end.

(** The mapped function of the verification fetch. *)
Definition verify (fuel : nat) (r : json) : M (mapped json) :=
    full <~ lift (getitem r "full_name") ;;
    v <~ gh parse_header_links fetch fuel b ("repos/" +:+ to_str full) (Some [404]%Z) ;;
    ret (Val v).

(** The body of [for repo in async_map(...)]. *)
Fixpoint clone_urls (verified : list json) : exn + list (json * json) :=
    match verified with
    | [] => inr []
    | repo_ :: rest =>
        match py_in "id" repo_ with
        | inl e => inl e
        | inr true =>
            match getitem repo_ "full_name" with
            | inl e => inl e
            | inr full =>
                match getitem repo_ "clone_url" with
                | inl e => inl e
                | inr u =>
                    match clone_urls rest with
                    | inl e => inl e
                    | inr urls => inr ((full, u) :: urls)
                    end
                end
            end
        | inr false => clone_urls rest
        end
    end.

(** The loop of [pull] consumes the generator as results are yielded; here
    the results of the fan-out are collected first and the loop body runs
    over them.  The two differ only in which exception surfaces when both
    a later thread and the loop body raise. *)
Definition pull (fuel : nat) : M unit :=
    repos <~ gh parse_header_links fetch fuel b ("orgs/" +:+ fmt (org b) +:+ "/repos") None ;;
    items <~ lift (iterate repos) ;;
    filtered <~ lift (filter_repos items) ;;
    verified <~ async_map sched (verify fuel) filtered ;;
    urls <~ lift (clone_urls verified) ;;
    force (async_apply sched git_pull urls).
End Forge.

(** ** Invariants and sample inputs used by the properties below *)

(** Every finished thread holds the value [f] gives for its item. *)
Definition settled {A R} (f : A -> mapped R) (items : list A)
    (finished : gmap nat (exn + mapped R)) : Prop :=
  forall i r, finished !! i = Some r ->
    exists a, items !! i = Some a /\ r = inr (f a).

(** The bodies for which [pushed] answers that the manifest is not
    published: an object without both of signatures and fsLayers whose
    errors entry is a non-empty list that starts with an object of code
    MANIFEST_UNKNOWN. *)
Definition unknown_manifest (v : json) : Prop :=
  exists fs e rest,
    v = JObj fs
    /\ has_key "signatures" fs && has_key "fsLayers" fs = false
    /\ assoc "errors" fs = Some (JArr (JObj e :: rest))
    /\ assoc "code" e = Some (JStr "MANIFEST_UNKNOWN").

Module Sample.
(** A mapped function that leaves a mark in the trace and skips the
    even items. *)
Definition tenfold (a : nat) : mapped nat :=
    if Nat.even a then OMIT else Val (10 * a).

Definition tenfold_task (a : nat) : M (mapped nat) :=
    fun t => (t ++ [EvMakedirs "seen"], inr (tenfold a)).

(** The hub completes the third thread first. *)
Definition last_first (t : trace) : list nat := [2; 0; 1].

Definition baker : Baker :=
    mkBaker "/work" (Some "acme") (Some "s3cr3t") (Some "*")
            (Some "registry.io") (Some "acme") (Some "bob") (Some "pw") false.

Definition error_body (code : string) : json :=
    JObj [("errors", JArr [JObj [("code", JStr code); ("message", JStr "?")]])].

(** A registry that answers every request with a 404 carrying one
    error of the given code. *)
Definition registry_404 (code : string) (t : trace) (r : Request) : exn + Response :=
    inr (mkResponse 404 false [] (Some (error_body code)) "not found").


Definition response_404 (code : string) : Response :=
    mkResponse 404 false [] (Some (error_body code)) "not found".

(** A stand-in for the Link header parser: the header value is
    [rel=url]. *)
Definition parse_links (value : string) : list (list (string * string)) :=
    match split_once "=" value with
    | Some (rel, u) => [[("url", u); ("rel", rel)]]
    | None => []
    end.

Definition repo_json (full : string) : json :=
    JObj [("id", JInt 7); ("full_name", JStr full);
          ("clone_url", JStr ("https://github.com/" +:+ full +:+ ".git"))].

Definition page (next : option string) (names : list string) : Response :=
    mkResponse 200 true
      (match next with Some u => [("Link", "next=" +:+ u)] | None => [] end)
      (Some (JArr (map repo_json names))) "".

Definition not_found : Response :=
    mkResponse 404 false [("Link", "next=https://api.github.com/elsewhere")]
      (Some (JObj [("message", JStr "Not Found")])) "Not Found".

(** A hosting API with a listing of four pages, one repository that
    still exists and one that is gone. *)
Definition github (t : trace) (r : Request) : exn + Response :=
    let u := url r in
    if String.eqb u "https://api.github.com/orgs/acme/repos"
    then inr (page (Some "https://api.github.com/page2") ["acme/web"])
    else if String.eqb u "https://api.github.com/page2"
    then inr (page (Some "https://api.github.com/page3") ["acme/gone"])
    else if String.eqb u "https://api.github.com/page3"
    then inr (page (Some "https://api.github.com/page4") ["other/lib"])
    else if String.eqb u "https://api.github.com/page4"
    then inr (page None ["acme/db"])
    else if String.eqb u "https://api.github.com/repos/acme/web"
    then inr (mkResponse 200 true [] (Some (repo_json "acme/web")) "")
    else if String.eqb u "https://api.github.com/repos/acme/db"
    then inr (mkResponse 200 true [] (Some (repo_json "acme/db")) "")
    else if String.eqb u "https://api.github.com/repos/acme/gone"
    then inr not_found
    else inl (ExternalError "unexpected request").

Definition web : Service :=
    mkService "web" "4f2a" "/work/web" "/work/web/service.yaml" ["Dockerfile"].

Definition api : Service :=
    mkService "api" "91c0" "/work/api" "/work/api/service.yaml" ["Dockerfile"].

Definition metadata (svc : Service) (registry repo : option string) : string * string :=
    (path_join (root svc) "metadata.yaml", "name: " +:+ name svc).

(** A cluster tool whose dry-run listing of a manifest file is looked up
    in [table]; every other command prints its manifest. *)
Definition kubectl (table : list (string * string)) (t : trace) (c : Command)
      : exn + string :=
    match argv c with
    | [_; _; AStr "--dry-run"; _; AStr f; _; _] =>
        match assoc f table with
        | Some names => inr names
        | None => inl (ExternalError "no such manifest")
        end
    | _ => inr "kind: List"
    end.

(** A workspace: two services, one of them with a nested service, a
    prototype that holds a service of its own, a Dockerfile in the
    excluded .git directory and one at the top, outside any service. *)
Definition workspace : fsnode :=
    Dir [("Dockerfile", File);
         ("web", Dir [("service.yaml", File); ("Dockerfile", File);
                      ("worker", Dir [("Dockerfile", File)])]);
         ("templates", Dir [("proto.yaml", File);
                            ("base", Dir [("service.yaml", File);
                                          ("Dockerfile", File)])]);
         (".git", Dir [("Dockerfile", File)]);
         ("api", Dir [("service.yaml", File);
                      ("img", Dir [("Dockerfile", File)]);
                      ("sub", Dir [("service.yaml", File); ("Dockerfile", File)])])].

Definition git (t : trace) (c : Command) : exn + string := inr "4f2a ".

(** The services [scan] finds in the workspace. *)
Definition found : list Service :=
    [mkService "/work/web/service.yaml" "4f2a" "/work/web" "/work/web/service.yaml"
               ["Dockerfile"; "worker/Dockerfile"];
     mkService "/work/api/service.yaml" "4f2a" "/work/api" "/work/api/service.yaml"
               ["img/Dockerfile"];
     mkService "/work/api/sub/service.yaml" "4f2a" "/work/api/sub"
               "/work/api/sub/service.yaml" ["Dockerfile"]].

Definition relpath (p start : string) : string :=
    match strip_prefix (start +:+ "/") p with
    | Some r => r
    | None => p
    end.

Definition name_of (descriptor : string) : string := descriptor.

(** A run that synchronises the repositories of one organisation. *)
Definition puller : Baker :=
    mkBaker "/work" (Some "acme") (Some "s3cr3t") (Some "acme/*")
            (Some "registry.io") (Some "acme") (Some "bob") (Some "pw") false.

(** A stand-in for [fnmatch.fnmatch]: a pattern with a star matches the
    names that start with the text before the star. *)
Definition glob (nm pattern : string) : bool :=
    match split_once "*" pattern with
    | Some (before, _) => startswith nm before
    | None => String.eqb nm pattern
    end.

Definition nothing_cloned (t : trace) (dir : string) : bool := false.

Definition no_challenge (s : string) : exn + list (string * string) := inr [].
Definition repr (v : json) : string := "?".
Definition image (registry repo : option string) (nm ver : string) : string :=
    fmt registry +:+ "/" +:+ fmt repo +:+ "/" +:+ nm +:+ ":" +:+ ver.

(** A local image store that holds every image under one id. *)
Definition docker_images (t : trace) (c : Command) : exn + string := inr "4f2a9c".

(** A container tool whose image store holds the web image only; every
    other docker command succeeds. *)
Definition docker (t : trace) (c : Command) : exn + string :=
    match argv c with
    | [_; a2; _; AStr img] =>
        if arg_is "images" a2
        then inr (if str_contains "/web:" img then "4f2a9c" else "")
        else inr "ok"
    | _ => inr "ok"
    end.



Definition containers (services : list Service) : list (Service * string * string) :=
    flat_map (fun svc => map (fun c => (svc, name svc, c)) (containers_of svc)) services.


End Sample.

(** ** Response chains (for the pagination properties) *)

(** The request [gh] issues for a follow-up page. *)
Definition page_request (b : Baker) (u : string) : Request :=
  mkRequest u (auth_headers b) None None.

(** The first request of [gh]. *)
Definition api_request (b : Baker) (api : string) (expected : option (list Z)) : Request :=
  mkRequest ("https://api.github.com/" +:+ api) (auth_headers b) None expected.




(** ** What an argument is made of (for the redaction properties) *)



(** ** Observations on a deploy run *)

(** The manifest a command of the final loop applies: [kubectl apply -f
    file], with or without a trailing [--dry-run].  The listing of the
    first phase ([kubectl apply --dry-run -f file -o name]) is not of this
    form. *)
Definition applied_file (e : event) : option string :=
  match e with
  | EvCall c =>
      match argv c with
      | a1 :: a2 :: a3 :: AStr f :: _ =>
          if arg_is "kubectl" a1 && arg_is "apply" a2 && arg_is "-f" a3
          then Some f else None
      | _ => None
      end
  | _ => None
  end.

Definition applies (t : trace) : list string := omap applied_file t.

(** What the dry-run listing of a service gave, at some point of the run. *)
Definition listed (exec : trace -> Command -> exn + string)
    (svc : Service) (names : list string) : Prop :=
  exists t out,
    exec t (dry_run_command (kube_file_of svc)) = inr out /\ names = split_ws out.

(** The directories the commands of a run were started in. *)
Definition call_dirs (t : trace) : list string :=
  omap (fun e => match e with EvCall c => cwd c | _ => None end) t.

(** The claims of a run in the order they are made: every service with
    each resource name of its dry-run listing. *)
Fixpoint claims (services : list Service) (listings : list (list string))
    : list (Service * string) :=
  match services, listings with
  | svc :: services', names :: listings' =>
      map (pair svc) names ++ claims services' listings'
  | _, _ => []
  end.

(** The service that claimed [resource] first. *)
Definition first_claimant (made : list (Service * string)) (resource : string)
    : option Service :=
  fst <$> List.find (fun c => String.eqb (snd c) resource) made.

(** The conflicts the spec words describe, read off the sequence of
    claims: a claim of a name that was claimed before gives the tuple of
    the name, the first claimant and this claimant. *)
Fixpoint later_claims (made rest : list (Service * string)) : list (string * string * string) :=
  match rest with
  | [] => []
  | (svc, resource) :: rest' =>
      match first_claimant made resource with
      | Some first => [(resource, name first, name svc)]
      | None => []
      end ++ later_claims (made ++ [(svc, resource)]) rest'
  end.

(** ** Observations on a fan-out and on a push run *)

(** [tracked obs g items t0 finished t order]: the threads that have
    finished are those of [order], each once, every one has returned, and
    what [obs] sees in the trace is what it saw at [t0] followed by the
    contribution [g] of each finished thread's item, in the order the
    threads finished. *)
Definition tracked {A R X} (obs : trace -> list X) (g : A -> X)
    (items : list A) (t0 : trace)
    (finished : gmap nat (exn + mapped R)) (t : trace) (order : list nat) : Prop :=
  NoDup order
  /\ (forall i, i ∈ order <-> is_Some (finished !! i))
  /\ (forall i, i ∈ order -> i < length items)
  /\ (forall i r, finished !! i = Some r -> exists m, r = inr m)
  /\ obs t = obs t0 ++ omap (fun i => g <$> items !! i) order.

(** The image a [docker push] command pushes. *)
Definition pushed_image (e : event) : option string :=
  match e with
  | EvCall c =>
      match argv c with
      | [a1; a2; AStr img] =>
          if arg_is "docker" a1 && arg_is "push" a2 then Some img else None
      | _ => None
      end
  | _ => None
  end.

Definition pushed_images (t : trace) : list string := omap pushed_image t.



(** ** The shape of a scan

    [scan] works on path strings and on the list of services built so
    far.  To say which directory a container context comes from, the walk
    is replayed on positions: a position is the list of entry names that
    leads from the work directory to a directory. *)

Record shape : Type := mkShape {
  s_protos : list (list string);
  s_roots : list (list string);
  s_ctxs : list (nat * list string)
}.

(** [descend] without the effects: the positions of the prototypes, of
    the services, and of the directories whose Dockerfile was attributed,
    each with the index of the service it was attributed to. *)
Fixpoint survey (node : fsnode) (here : list string) (parent : option nat)
    (sh : shape) {struct node} : shape :=
  match node with
  | File => sh
  | Dir entries =>
      let names := map fst entries in
      if mem "proto.yaml" names then
        mkShape (s_protos sh ++ [here]) (s_roots sh) (s_ctxs sh)
      else
        let sh1 := if mem "service.yaml" names
                   then mkShape (s_protos sh) (s_roots sh ++ [here]) (s_ctxs sh)
                   else sh in
        let parent1 := if mem "service.yaml" names
                       then Some (length (s_roots sh)) else parent in
        let sh2 := match parent1 with
                   | Some i =>
                       if mem "Dockerfile" names
                       then mkShape (s_protos sh1) (s_roots sh1) (s_ctxs sh1 ++ [(i, here)])
                       else sh1
                   | None => sh1
                   end in
        (fix children (es : list (string * fsnode)) (sh : shape) : shape :=
           match es with
           | [] => sh
           | (n, child) :: rest =>
               children rest
                 (if negb (mem n EXCLUDED) && is_dir child
                  then survey child (here ++ [n]) parent1 sh
                  else sh)
           end) entries sh2
  end.

(** The loop over the entries of a directory, as a function of its own. *)
Fixpoint survey_children (here : list string) (parent1 : option nat)
    (es : list (string * fsnode)) (sh : shape) : shape :=
  match es with
  | [] => sh
  | (n, child) :: rest =>
      survey_children here parent1 rest
        (if negb (mem n EXCLUDED) && is_dir child
         then survey child (here ++ [n]) parent1 sh
         else sh)
  end.

(** The path string of a position: [os.path.join] along the names. *)
Definition pathstr (b : Baker) (here : list string) : string :=
  fold_left path_join here (workdir b).

(** The directories attributed to service [i], in the order of the walk. *)
Definition dirs_of (i : nat) (ctxs : list (nat * list string)) : list (list string) :=
  map snd (List.filter (fun c => Nat.eqb (fst c) i) ctxs).

(** A directory listing names every entry once. *)
Fixpoint wf_tree (node : fsnode) : Prop :=
  match node with
  | File => True
  | Dir entries =>
      NoDup (map fst entries)
      /\ (fix all (es : list (string * fsnode)) : Prop :=
            match es with
            | [] => True
            | (_, child) :: rest => wf_tree child /\ all rest
            end) entries
  end.

Fixpoint node_at (node : fsnode) (q : list string) : option fsnode :=
  match q with
  | [] => Some node
  | n :: q' =>
      match node with
      | Dir entries =>
          match assoc n entries with
          | Some child => node_at child q'
          | None => None
          end
      | File => None
      end
  end.

(** The directory at position [q] under [node] lists an entry [marker]. *)
Definition marked_at (marker : string) (node : fsnode) (q : list string) : bool :=
  match node_at node q with
  | Some (Dir entries) => mem marker (map fst entries)
  | _ => false
  end.

(** The service a Dockerfile directory belongs to by the words of the
    spec, found by going down from [node] (at position [here]) along
    [rest]: the last directory on the way that holds service.yaml, unless
    a directory on the way holds proto.yaml or is excluded. [owner] is the
    service already in force above [node]. *)
Fixpoint owner_on_path (rest : list string) (node : fsnode) (here : list string)
    (owner : option (list string)) {struct rest} : option (list string) :=
  match node with
  | File => None
  | Dir entries =>
      let names := map fst entries in
      if mem "proto.yaml" names then None
      else
        let owner1 := if mem "service.yaml" names then Some here else owner in
        match rest with
        | [] => if mem "Dockerfile" names then owner1 else None
        | n :: rest' =>
            if mem n EXCLUDED then None
            else match assoc n entries with
                 | Some child => owner_on_path rest' child (here ++ [n]) owner1
                 | None => None
                 end
        end
  end.

(** The service index in force points at the owner position. *)
Definition points (parent : option nat) (roots : list (list string))
    (owner : option (list string)) : Prop :=
  match parent with
  | Some i => exists p, roots !! i = Some p /\ owner = Some p
  | None => owner = None
  end.

(** The state of [scan] agrees with a shape: same prototypes, same service
    roots, and the containers of every service are the rendered positions
    attributed to its index. *)
Definition agrees (relpath : string -> string -> string) (b : Baker)
    (st : list Prototype * list Service) (sh : shape) : Prop :=
  map proto_descriptor (fst st)
  = map (fun q => path_join (pathstr b q) "proto.yaml") (s_protos sh)
  /\ map root (snd st) = map (pathstr b) (s_roots sh)
  /\ (forall i svc, snd st !! i = Some svc ->
        containers_of svc
        = map (fun d => relpath (path_join (pathstr b d) "Dockerfile") (root svc))
              (dirs_of i (s_ctxs sh)))
  /\ (forall i d, (i, d) ∈ s_ctxs sh -> i < length (s_roots sh)).

(** The loop over the entries in [descend], as a function of its own. *)
Fixpoint descend_children (exec : trace -> Command -> exn + string)
    (relpath : string -> string -> string) (name_of : string -> string)
    (path : string) (parent1 : option nat)
    (es : list (string * fsnode)) (st : list Prototype * list Service)
    : M (list Prototype * list Service) :=
  match es with
  | [] => ret st
  | (n, child) :: rest =>
      st' <~ (if negb (mem n EXCLUDED) && is_dir child
              then descend exec relpath name_of child (path_join path n) parent1 st
              else ret st) ;;
      descend_children exec relpath name_of path parent1 rest st'
  end.

(** Adding shapes: what a walk appends to what was there. *)
Definition extend_shape (sh : shape) (dp dr : list (list string))
    (dc : list (nat * list string)) : shape :=
  mkShape (s_protos sh ++ dp) (s_roots sh ++ dr) (s_ctxs sh ++ dc).

Definition extends (sh sh' : shape) : Prop :=
  exists dp dr dc, sh' = extend_shape sh dp dr dc.

(** The service index in force, if any, is one of the services found. *)
Definition valid (parent : option nat) (sh : shape) : Prop :=
  forall i, parent = Some i -> i < length (s_roots sh).

(** What the replayed walk of [node] appends: attributed directories are
    pairwise different, each lies at or under the position of [node], and
    each is attributed to the service that [owner_on_path] names. *)
Definition attributes (node : fsnode) : Prop :=
  forall here parent owner sh,
    wf_tree node ->
    points parent (s_roots sh) owner ->
    exists dp dr dc,
      survey node here parent sh = extend_shape sh dp dr dc
      /\ NoDup (map snd dc)
      /\ forall i d, (i, d) ∈ dc ->
           exists rest p,
             d = here ++ rest
             /\ owner_on_path rest node here owner = Some p
             /\ (s_roots sh ++ dr) !! i = Some p.

(** ** Outcomes of a fan-out (for the error properties) *)

(** What [async_map] delivers for the outcomes of its threads taken in
    item order: the exception of the first thread that raised, or the
    values that are not [OMIT]. *)
Fixpoint gather {R} (outcomes : list (exn + mapped R)) : exn + list R :=
  match outcomes with
  | [] => inr []
  | inl e :: _ => inl e
  | inr OMIT :: rest => gather rest
  | inr (Val v) :: rest =>
      match gather rest with
      | inl e => inl e
      | inr vs => inr (v :: vs)
      end
  end.

(** Every finished thread holds the outcome of its item. *)
Definition resolved {A R} (outcome : A -> exn + mapped R) (items : list A)
    (finished : gmap nat (exn + mapped R)) : Prop :=
  forall i r, finished !! i = Some r ->
    exists a, items !! i = Some a /\ r = outcome a.

Module Tasks.
(** A task that leaves its item in the trace and returns it. *)
Definition visit (a : string) : M (mapped string) :=
  fun t => (t ++ [EvMakedirs a], inr (Val a)).

(** A task that raises on the items that start with a dash. *)
Definition fussy_outcome (a : string) : exn + mapped string :=
  if startswith a "-" then inl (CLIError a) else inr (Val a).

Definition fussy (a : string) : M (mapped string) :=
  fun t => (t ++ [EvMakedirs a], fussy_outcome a).

Definition backwards (t : trace) : list nat := [3; 2; 1; 0; 2; 7].
End Tasks.

(** ** The requests and commands of a run (for the registry properties) *)

Definition commands (t : trace) : list Command :=
  omap (fun e => match e with EvCall c => Some c | _ => None end) t.

Definition requests (t : trace) : list Request :=
  omap (fun e => match e with EvGet r => Some r | _ => None end) t.

(** [challenge[7:]] when the challenge starts with the Bearer scheme. *)
Definition strip_bearer (challenge : string) : string :=
  match strip_prefix "Bearer " challenge with
  | Some rest => rest
  | None => challenge
  end.

(** The token request of the handshake in [pushed]. *)
Definition token_request (b : Baker) (realm service scope : string) : Request :=
  mkRequest (realm +:+ "?service=" +:+ service +:+ "&scope=" +:+ scope)
            None (Some (user b, password b)) None.

(** The retry of the manifest request with the bearer token. *)
Definition bearer_request (b : Baker) (nm ver tok : string) : Request :=
  mkRequest (manifest_url b nm ver)
            (Some [("Authorization", "Bearer " +:+ tok)]) None (Some [404%Z]).

(** A computation that only issues GET requests, at most [n] of them. *)
Definition gets_only {A} (n : nat) (m : M A) : Prop :=
  forall t, exists reqs,
    fst (m t) = t ++ map EvGet reqs /\ length reqs <= n.

Module Registry.
(** A registry that asks for a bearer token first and then answers the
    manifest request with the given body. *)
Definition challenge : Response :=
  mkResponse 401 false
    [("WWW-Authenticate", "Bearer realm=auth.io/token,service=registry.io,scope=pull")]
    None "unauthorized".

Definition parse_challenge (s : string) : exn + list (string * string) :=
  if String.eqb s "realm=auth.io/token,service=registry.io,scope=pull"
  then inr [("realm", "https://auth.io/token"); ("service", "registry.io");
            ("scope", "pull")]
  else inl ValueError.

Definition manifest : json :=
  JObj [("signatures", JArr []); ("fsLayers", JArr [])].

Definition guarded (t : trace) (r : Request) : exn + Response :=
  match req_headers r with
  | Some _ => inr (mkResponse 200 true [] (Some manifest) "")
  | None =>
      if startswith (url r) "https://auth.io/token"
      then inr (mkResponse 200 true [] (Some (JObj [("token", JStr "tk")])) "")
      else inr challenge
  end.

(** Two registries that answer with the same body under different
    statuses. *)
Definition answers (status : Z) (t : trace) (r : Request) : exn + Response :=
  inr (mkResponse status true [] (Some (Sample.error_body "MANIFEST_UNKNOWN")) "gone").

(** A local image store with no image at all. *)
Definition empty_store (t : trace) (c : Command) : exn + string := inr "".
End Registry.

(** The docker commands that change something: login and push. *)
Definition docker_action (e : event) : option Command :=
  match e with
  | EvCall c =>
      match argv c with
      | a1 :: a2 :: _ =>
          if arg_is "docker" a1 && (arg_is "login" a2 || arg_is "push" a2)
          then Some c else None
      | _ => None
      end
  | _ => None
  end.

Definition docker_actions (t : trace) : list Command := omap docker_action t.

(** A [kubectl apply] that is not a dry run. *)
Definition wet_apply (e : event) : option Command :=
  match e with
  | EvCall c =>
      match argv c with
      | a1 :: a2 :: _ =>
          if arg_is "kubectl" a1 && arg_is "apply" a2
             && negb (existsb (arg_is "--dry-run") (argv c))
          then Some c else None
      | _ => None
      end
  | _ => None
  end.

Definition wet_applies (t : trace) : list Command := omap wet_apply t.

Module Cluster.

(** A cluster tool that knows no manifest: every dry-run listing fails. *)
Definition broken : trace -> Command -> exn + string := Sample.kubectl [].
End Cluster.

(** The replayed walk of [node] misses no Dockerfile directory that has an
    owner by [owner_on_path]. *)
Definition complete_at (node : fsnode) : Prop :=
  forall here parent owner sh rest p,
    points parent (s_roots sh) owner ->
    owner_on_path rest node here owner = Some p ->
    exists i,
      (i, here ++ rest) ∈ s_ctxs (survey node here parent sh)
      /\ s_roots (survey node here parent sh) !! i = Some p.

(** The event of the [git rev-parse HEAD] that [scan] runs in a service
    directory. *)
Definition rev_parse (dir : string) : event :=
  EvCall (mkCommand [AStr "git"; AStr "rev-parse"; AStr "HEAD"] (Some dir) false).

(** [recorded exec t new]: the versions of the services [new], given as
    pairs of root and version, are the stripped outputs of the rev-parse
    commands run one after the other from trace [t] on. *)
Fixpoint recorded (exec : trace -> Command -> exn + string) (t : trace)
    (new : list (string * string)) : Prop :=
  match new with
  | [] => True
  | (dir, ver) :: rest =>
      (exists out,
          exec t (mkCommand [AStr "git"; AStr "rev-parse"; AStr "HEAD"] (Some dir) false)
          = inr out
          /\ ver = strip out)
      /\ recorded exec (t ++ [rev_parse dir]) rest
  end.

Definition root_version (svc : Service) : string * string :=
  (root svc, version svc).

(** What a successful walk adds: new services, whose rev-parse commands
    are all the walk has run. *)
Definition walked (exec : trace -> Command -> exn + string)
    (st : list Prototype * list Service) (t : trace)
    (st' : list Prototype * list Service) (t' : trace) : Prop :=
  exists new,
    map root_version (snd st') = map root_version (snd st) ++ new
    /\ t' = t ++ map (fun kv => rev_parse (fst kv)) new
    /\ recorded exec t new.

(** ** The command line (get_repo, get_workdir, get_config, default,
    subcommand, validate)

    [args] is the dictionary docopt returns: its values are [None],
    booleans and strings, written here as the corresponding [json]
    values. *)

(** [args[key]] *)
Definition arg_get (args : gmap string json) (key : string) : exn + json :=
  match args !! key with
  | Some v => inr v
  | None => inl (KeyError key)
  end.

(** [get_repo(args)] *)
Definition get_repo (args : gmap string json) : exn + (option string * option string) :=
  u <-- arg_get args "<docker-repo>" ;;
  match u with
  | JNull => inr (None, None)
  | JStr s =>
      match split_once "/" s with
      | Some (registry, repo) => inr (Some registry, Some repo)
      | None => inl ValueError
      end
  | _ => inl AttributeError
  end.

(** [get_workdir(args)], with [cwd] what [os.getcwd()] returns. *)
Definition get_workdir (cwd : string) (args : gmap string json) : exn + string :=
  v <-- arg_get args "--workdir" ;;
  let workdir := if json_truthy v then v else JStr cwd in
  match workdir with
  | JStr w => inr (if negb (startswith w "/") then path_join cwd w else w)
  | _ => inl AttributeError
  end.

(** [p[:p.rfind("/") + 1]]: the text up to and including the last
    slash. *)
Fixpoint head_of (p : string) : string :=
  match p with
  | "" => ""
  | String c rest =>
      let head := head_of rest in
      if str_truthy head || Ascii.eqb c "/" then String c head else ""
  end.

(** [s.rstrip("/")] *)
Fixpoint rstrip_slash (s : string) : string :=
  match s with
  | "" => ""
  | String c rest =>
      let rest' := rstrip_slash rest in
      if negb (str_truthy rest') && Ascii.eqb c "/" then "" else String c rest'
  end.

(** [posixpath.dirname(p)]: the head, without its trailing slashes unless
    it is made of slashes only. *)
Definition dirname (p : string) : string :=
  let head := head_of p in
  if str_truthy head && str_truthy (rstrip_slash head) then rstrip_slash head
  else head.

(** A failure of the command line layer: an exception of the program, or
    the AssertionError of an [assert False]. *)
Inductive failure : Type :=
  | Raised (e : exn)
  | AssertionError.

(** [REQUIRED], in the order of the source text. *)
Definition REQUIRED : list (string * list string) :=
  [ ("pull", ["<organization>"]);
    ("bake", ["<docker-repo>"]);
    ("push", ["<docker-repo>"]);
    ("deploy", ["<docker-repo>"]);
    ("create", []);
    ("serve", ["<organization>"; "<docker-repo>"]) ].

Section CommandLine.
(** [os.environ], [os.getcwd()], [os.path.exists] and the parsed content
    of a YAML file ([open] followed by [yaml.load]). *)
Variable environ : gmap string string.
Variable getcwd : string.
Variable file_exists : string -> bool.
Variable load : string -> exn + json.

(** The [while path != prev] loop of [get_config]. *)
Fixpoint search (fuel : nat) (prev : option string) (path : string) : exn + json :=
  match fuel with
  | 0 => inl OutOfFuel
  | S fuel' =>
      if match prev with Some p => String.eqb path p | None => false end
      then inr JNull
      else
        let candidate := path_join path "forge.yaml" in
        if file_exists candidate then inr (JStr candidate)
        else search fuel' (Some path) (dirname path)
  end.

(** [get_config(args)]; [None] is [JNull]. *)
Definition get_config (fuel : nat) (args : gmap string json) : exn + json :=
  c <-- arg_get args "--config" ;;
  match c with
  | JNull =>
      match environ !! "FORGE_CONFIG" with
      | Some f => inr (JStr f)
      | None => search fuel None getcwd
      end
  | v => inr v
  end.

(** The body of the first loop of [default]:
    [if arg not in args or args[arg] is None and name in conf:
       args[arg] = conf[name]] with [arg = "--%s" % name]. *)
Definition fill_option (conf : json) (args : gmap string json) (name : string)
    : exn + gmap string json :=
  let arg := "--" +:+ name in
  cond <-- match args !! arg with
           | None => inr true
           | Some JNull => py_in name conf
           | Some _ => inr false
           end ;;
  if cond : bool then v <-- getitem conf name ;; inr (<[arg := v]> args)
  else inr args.

(** The body of the second loop:
    [if name not in args or args[arg] is None and name in conf:
       args[arg] = conf[name]] with [arg = "<%s>" % name]: the membership
    test is on [name], not on [arg]. *)
Definition fill_positional (conf : json) (args : gmap string json) (name : string)
    : exn + gmap string json :=
  let arg := "<" +:+ name +:+ ">" in
  cond <-- match args !! name with
           | None => inr true
           | Some _ =>
               v <-- arg_get args arg ;;
               match v with
               | JNull => py_in name conf
               | _ => inr false
               end
           end ;;
  if cond : bool then v <-- getitem conf name ;; inr (<[arg := v]> args)
  else inr args.

Fixpoint fill_all (fill : json -> gmap string json -> string -> exn + gmap string json)
    (conf : json) (names : list string) (args : gmap string json)
    : exn + gmap string json :=
  match names with
  | [] => inr args
  | name :: rest => args' <-- fill conf args name ;; fill_all fill conf rest args'
  end.

(** [default(args)]: the dictionary [args] after the call. *)
Definition default (fuel : nat) (args : gmap string json) : exn + gmap string json :=
  conf_file <-- get_config fuel args ;;
  if negb (json_truthy conf_file) then inr args
  else match conf_file with
       | JStr f =>
           conf <-- load f ;;
           args' <-- fill_all fill_option conf ["token"; "user"; "password"; "workdir"] args ;;
           fill_all fill_positional conf ["organization"; "docker-repo"] args'
       | _ => inl TypeError
       end.
End CommandLine.

(** [subcommand(args)]; [keys] is the order in which the dictionary
    [REQUIRED] hands out its keys. *)
Fixpoint subcommand (keys : list string) (args : gmap string json) : failure + string :=
  match keys with
  | [] => inl AssertionError
  | k :: rest =>
      match args !! k with
      | None => inl (Raised (KeyError k))
      | Some v => if json_truthy v then inr k else subcommand rest args
      end
  end.

(** The loop of [validate]: the required arguments that are not set. *)
Fixpoint missing_args (required : list string) (args : gmap string json)
    : exn + list string :=
  match required with
  | [] => inr []
  | n :: rest =>
      v <-- arg_get args n ;;
      missing <-- missing_args rest args ;;
      inr (if json_truthy v then missing else n :: missing)
  end.

(** [validate(args)] *)
Definition validate (keys : list string) (args : gmap string json) : failure + unit :=
  match subcommand keys args with
  | inl f => inl f
  | inr k =>
      match assoc k REQUIRED with
      | None => inl (Raised (KeyError k))
      | Some required =>
          match missing_args required args with
          | inl e => inl (Raised e)
          | inr [] => inr tt
          | inr missing =>
              inl (Raised (CLIError ("missing arguments: " +:+ join ", " missing)))
          end
      end
  end.

(** The ancestors of a directory: [iter_dirname k p] is [dirname] applied
    [k] times. *)
Fixpoint iter_dirname (k : nat) (p : string) : string :=
  match k with
  | 0 => p
  | S k' => iter_dirname k' (dirname p)
  end.

(** What the upward search answers from [path]: the candidate of the
    nearest ancestor that has one, or [None] when none has. *)
Definition nearest (file_exists : string -> bool) (path : string) (r : exn + json) : Prop :=
  match r with
  | inr (JStr c) =>
      exists k, c = path_join (iter_dirname k path) "forge.yaml"
                /\ file_exists c = true
                /\ forall j, j < k ->
                     file_exists (path_join (iter_dirname j path) "forge.yaml") = false
  | inr JNull =>
      forall j, file_exists (path_join (iter_dirname j path) "forge.yaml") = false
  | _ => False
  end.

(** The required arguments of a subcommand that [args] leaves unset. *)
Definition unset (args : gmap string json) (n : string) : bool :=
  match args !! n with
  | Some v => negb (json_truthy v)
  | None => true
  end.

(** ** The status display (render_tail, render)

    The items of the work stream, with the attributes the display reads;
    the summaries are the texts their formatting gives. *)
Record Item : Type := mkItem {
  class_name : string;
  start_summary : string;
  item_finished : bool;
  finish_summary : string;
  item_verbose : bool;
  item_output : option string
}.

(** The attributes of the terminal the display uses. *)
Record Terminal : Type := mkTerminal {
  height : Z;
  bold : string -> string;
  move_up : string;
  move_down : string;
  clear_eol : string
}.

Module Display.
Section Display.
Variable terminal : Terminal.
(** [str.splitlines] *)
Variable splitlines : string -> list string.

(** The [lines] of one item. *)
Definition lines (item : Item) : list string :=
  let summary := class_name item +:+ ": " +:+ start_summary item in
  let summary :=
    if item_finished item
    then summary +:+ " -> " +:+ bold terminal (finish_summary item)
    else summary in
  summary ::
    (if item_verbose item && opt_truthy (item_output item)
     then match item_output item with
          | Some out => map (fun l => "  " +:+ l) (splitlines out)
          | None => []
          end
     else []).

(** [for l in reversed(lines): yield l; count = count + 1;
     if count >= limit: return]: the lines yielded, the count after
    them, and whether the generator returned. *)
Fixpoint yield_lines (limit : Z) (ls : list string) (count : Z)
    : list string * Z * bool :=
  match ls with
  | [] => ([], count, false)
  | l :: rest =>
      let count := (count + 1)%Z in
      if (limit <=? count)%Z then ([l], count, true)
      else let '(out, c, returned) := yield_lines limit rest count in
           (l :: out, c, returned)
  end.

Fixpoint yield_items (limit : Z) (items : list Item) (count : Z) : list string :=
  match items with
  | [] => []
  | item :: rest =>
      let '(out, c, returned) := yield_lines limit (rev (lines item)) count in
      if returned : bool then out else out ++ yield_items limit rest c
  end.

(** [list(self.render_tail(limit))] over [self.items]. *)
Definition render_tail (items : list Item) (limit : Z) : list string :=
  yield_items limit (rev items) 0.

(** [move_up * moved] *)
Fixpoint times (s : string) (n : nat) : string :=
  match n with
  | 0 => ""
  | S n' => s +:+ times s n'
  end.

(** [render]: the strings written to the standard output, in order, and
    the new value of [self.moved]. *)
Definition render (items : list Item) (moved : nat) : list string * nat :=
  let screenful := render_tail items (height terminal) in
  (times (move_up terminal) moved
     :: map (fun line => line +:+ clear_eol terminal +:+ move_down terminal)
            (rev screenful)
     ++ [clear_eol terminal],
   length screenful).
End Display.
End Display.

(** ** What a run of [pull] leaves in the trace *)





(** A computation that only appends events, all of them allowed. *)
Definition adds_only {A} (allowed : event -> Prop) (m : M A) : Prop :=
  forall t, exists added, fst (m t) = t ++ added /\ Forall allowed added.

(** The events of a [pull]: requests, of which those that tolerate a 404
    ask about a repository whose full name matches the filter; [git init]
    and [git pull] in a directory joined to the work directory; the
    creation of such a directory.  No file is written. *)
Definition pull_event (fnmatch : string -> string -> bool) (b : Baker) (e : event) : Prop :=
  match e with
  | EvGet r =>
      expected r = Some [404%Z] ->
      exists full pattern,
        name_filter b = Some pattern
        /\ fnmatch full pattern = true
        /\ url r = "https://api.github.com/repos/" +:+ full
  | EvCall c =>
      exists nm,
        cwd c = Some (path_join (workdir b) nm)
        /\ (argv c = [AStr "git"; AStr "init"]
            \/ exists a, argv c = [AStr "git"; AStr "pull"; a])
  | EvMakedirs dir => exists nm, dir = path_join (workdir b) nm
  | EvWrite _ _ => False
  end.

Module Invocation.
(** [forge pull --token=given other], as docopt hands it over. *)
Definition args : gmap string json :=
  {[ "--config" := JNull; "--token" := JStr "given"; "--user" := JNull;
     "--password" := JNull; "--workdir" := JNull;
     "<organization>" := JStr "other"; "<docker-repo>" := JNull ]}.

(** A configuration file with a token, an organization and a docker
    repository. *)
Definition conf : json :=
  JObj [("token", JStr "from-file"); ("organization", JStr "acme");
        ("docker-repo", JStr "registry.io/acme")].

Definition load (file : string) : exn + json := inr conf.

(** The only forge.yaml is the one of the home directory. *)
Definition file_exists (file : string) : bool := String.eqb file "/home/dev/forge.yaml".

Definition getcwd : string := "/home/dev/acme/web".

(** [args] after [default]. *)
Definition defaulted : gmap string json :=
  <["<docker-repo>" := JStr "registry.io/acme"]>
    (<["<organization>" := JStr "acme"]> args).
End Invocation.

(** * Properties *)

(** ** The monad *)

Lemma bind_inr {A B} (m : M A) (k : A -> M B) t t' a :
  m t = (t', inr a) -> bind m k t = k a t'.
Proof. intros H. unfold bind. now rewrite H. Qed.

Lemma bind_inl {A B} (m : M A) (k : A -> M B) t t' e :
  m t = (t', inl e) -> bind m k t = (t', inl e).
Proof. intros H. unfold bind. now rewrite H. Qed.

Lemma bind_ext {A B} (m : M A) (k k' : A -> M B) t :
  (forall a t', k a t' = k' a t') -> bind m k t = bind m k' t.
Proof. intros H. unfold bind. destruct (m t) as [t' [e|a]]; [reflexivity|apply H]. Qed.

(** ** Fan-out *)

Section EventletFacts.
Context {A R : Type}.
Variable fn : A -> M (mapped R).
Variable f : A -> mapped R.
Variable items : list A.
Hypothesis fn_returns : forall a t, snd (fn a t) = inr (f a).

Local Abbreviation settled := (settled f items).

Lemma settled_empty : settled ∅.
Proof. intros i r H. now rewrite lookup_empty in H. Qed.

Lemma run_thread_settled i finished t :
    settled finished -> settled (snd (run_thread fn items i finished t)).
Proof.
    intros Hs. unfold run_thread.
    destruct (finished !! i) eqn:Hi; [exact Hs|].
    destruct (items !! i) as [a|] eqn:Ha; [|exact Hs].
    pose proof (fn_returns a t) as Hr.
    destruct (fn a t) as [t' r]. simpl in *. subst r.
    intros j r Hj. destruct (decide (i = j)) as [->|Hne].
    - rewrite lookup_insert_eq in Hj. inversion Hj; subst. eauto.
    - rewrite lookup_insert_ne in Hj by exact Hne. eauto.
Qed.

Lemma run_thread_finishes i a finished t :
    settled finished -> items !! i = Some a ->
    snd (run_thread fn items i finished t) !! i = Some (inr (f a)).
Proof.
    intros Hs Ha. unfold run_thread.
    destruct (finished !! i) as [r|] eqn:Hi.
    - simpl. rewrite Hi. destruct (Hs _ _ Hi) as (a' & Ha' & ->). congruence.
    - rewrite Ha. pose proof (fn_returns a t) as Hr.
      destruct (fn a t) as [t' r]. simpl in *. subst r.
      apply lookup_insert_eq.
Qed.

Lemma run_schedule_settled order : forall finished t,
    settled finished -> settled (snd (run_schedule fn items order finished t)).
Proof.
    induction order as [|i rest IH]; intros finished t Hs; simpl; [exact Hs|].
    pose proof (run_thread_settled i finished t Hs) as H1.
    destruct (run_thread fn items i finished t) as [t' finished'].
    apply IH, H1.
Qed.

Lemma wait_each_settled n : forall k finished t,
    settled finished -> k + n <= length items ->
    snd (wait_each fn items (seq k n) finished t)
    = inr (kept (map f (take n (drop k items)))).
Proof.
    induction n as [|n IH]; intros k finished t Hs Hlen; simpl.
    - reflexivity.
    - destruct (lookup_lt_is_Some_2 items k ltac:(lia)) as [a Ha].
      pose proof (run_thread_settled k finished t Hs) as H1.
      pose proof (run_thread_finishes k a finished t Hs Ha) as H2.
      destruct (run_thread fn items k finished t) as [t' finished'].
      simpl in H1, H2. rewrite H2.
      rewrite (drop_S _ _ _ Ha). simpl.
      specialize (IH (S k) finished' t' H1 ltac:(lia)).
      destruct (f a) as [|r]; [exact IH|].
      unfold bind.
      destruct (wait_each fn items (seq (S k) n) finished' t') as [t'' res].
      simpl in IH. rewrite IH. reflexivity.
Qed.

Lemma async_map_settled sched t :
    snd (async_map sched fn items t) = inr (kept (map f items)).
Proof.
    unfold async_map.
    pose proof (run_schedule_settled (sched t) ∅ t settled_empty) as Hs.
    destruct (run_schedule fn items (sched t) ∅ t) as [t' finished].
    rewrite (wait_each_settled (length items) 0 finished t' Hs ltac:(lia)).
    now rewrite drop_0, firstn_all.
Qed.
End EventletFacts.

Lemma kept_length {R} (ms : list (mapped R)) :
  length (kept ms) = length ms - length (List.filter is_omit ms).
Proof.
  induction ms as [|[|r] ms IH]; simpl; [reflexivity| |].
  - rewrite IH. lia.
  - rewrite IH. pose proof (List.filter_length_le is_omit ms). lia.
Qed.

(** C3.  Whatever order the scheduler completes the threads in, and
    whenever each call of the mapped function returns the value [f] gives
    for its item, [async_map] returns the values of [f] on the items in
    input order with every [OMIT] removed; its length is the number of
    items minus the number of items mapped to [OMIT]. *)
Theorem async_map_in_order {A R} (sched : trace -> list nat)
    (fn : A -> M (mapped R)) (f : A -> mapped R) (items : list A) (t : trace) :
  (forall a t0, snd (fn a t0) = inr (f a)) ->
  snd (async_map sched fn items t) = inr (kept (map f items))
  /\ length (kept (map f items))
     = length items - length (List.filter (fun a => is_omit (f a)) items).
Proof.
  intros Hf. split.
  - now apply async_map_settled.
  - rewrite kept_length, length_map. f_equal.
    induction items as [|a l IH]; simpl; [reflexivity|].
    destruct (is_omit (f a)); simpl; now rewrite IH.
Qed.

Lemma async_map_in_order_witness :
  snd (async_map Sample.last_first Sample.tenfold_task [1; 2; 3] [])
  = inr (kept (map Sample.tenfold [1; 2; 3]))
  /\ length (kept (map Sample.tenfold [1; 2; 3]))
     = 3 - length (List.filter (fun a => is_omit (Sample.tenfold a)) [1; 2; 3]).
Proof.
  apply (async_map_in_order Sample.last_first Sample.tenfold_task
           Sample.tenfold [1; 2; 3] []).
  intros a t0. reflexivity.
Defined.

Example async_map_sample :
  async_map Sample.last_first Sample.tenfold_task [1; 2; 3] []
  = ([EvMakedirs "seen"; EvMakedirs "seen"; EvMakedirs "seen"], inr [10; 30]).
Proof. vm_compute. reflexivity. Qed.

(** ** Registry state *)

Section RegistryFacts.
Variable exec : trace -> Command -> exn + string.
Variable fetch : trace -> Request -> exn + Response.
Variable parse_challenge : string -> exn + list (string * string).
Variable py_str : json -> string.
Variable image : option string -> option string -> string -> string -> string.
Variable b : Baker.

Lemma is_str_spec key v : is_str key v = true <-> v = JStr key.
Proof.
  destruct v; simpl; try (split; [discriminate|discriminate]).
  rewrite String.eqb_eq. split; [now intros ->|now inversion 1].
Qed.

Lemma manifest_state_false v text :
  manifest_state v text = inr false <-> unknown_manifest v.
Proof.
  unfold manifest_state, bindE, unknown_manifest.
  destruct v as [| vb | vz | vm ve | s | l | fs]; simpl;
    try (split; [discriminate | intros (fs & e & rest & Hv & _); discriminate]).
  - (* a string *)
    split; [|intros (fs & e & rest & Hv & _); discriminate].
    destruct (str_contains "signatures" s); simpl;
      destruct (str_contains "fsLayers" s); simpl; try discriminate;
      destruct (str_contains "errors" s); simpl; discriminate.
  - (* a list *)
    split; [|intros (fs & e & rest & Hv & _); discriminate].
    destruct (existsb (is_str "signatures") l); simpl;
      destruct (existsb (is_str "fsLayers") l); simpl; try discriminate;
      destruct (existsb (is_str "errors") l); simpl; discriminate.
  - (* an object *)
    unfold has_key.
    destruct (assoc "errors" fs) as [errors|] eqn:He.
    2:{ split.
        - destruct (assoc "signatures" fs); simpl;
            destruct (assoc "fsLayers" fs); simpl; discriminate.
        - intros (fs' & e & rest & Hv & _ & Herr & _).
          inversion Hv; subst. congruence. }
    split.
    + intros H. exists fs.
      destruct (assoc "signatures" fs) as [sg|]; simpl in *;
        destruct (assoc "fsLayers" fs) as [ly|]; simpl in *; try discriminate;
        (destruct errors as [| [] | z | m x | s | [|first l] | [|kv o]];
         simpl in *; try discriminate;
         try (destruct (z =? 0)%Z; simpl in *; discriminate);
         try (destruct (m =? 0)%Z; simpl in *; discriminate);
         try (destruct s; simpl in *; discriminate));
        (destruct first as [| vb | vz | vm ve | vs | vl | e]; simpl in *; try discriminate;
         destruct (assoc "code" e) as [code|] eqn:Hc; simpl in *; try discriminate;
         destruct (is_str "MANIFEST_UNKNOWN" code) eqn:Hs; simpl in *; try discriminate;
         apply is_str_spec in Hs; subst code;
         exists e, l; repeat split; first [reflexivity | assumption]).
    + intros (fs' & e & rest & Hv & Hboth & Herr & Hcode).
      inversion Hv; subst fs'. rewrite He in Herr. inversion Herr; subst errors.
      unfold has_key in Hboth.
      destruct (assoc "signatures" fs) as [sg|]; simpl in *;
        destruct (assoc "fsLayers" fs) as [ly|]; simpl in *; try discriminate;
        rewrite Hcode; simpl; reflexivity.
Qed.

(** A first answer that is not a 401 is classified as it is: one request,
    no handshake. *)
Lemma pushed_without_challenge nm ver t r :
  fetch t (manifest_request b nm ver) = inr r ->
  status_code r <> 401%Z ->
  pushed fetch parse_challenge py_str b nm ver t
  = (result <~ response_json r ;; lift (manifest_state result (content r)))
      (t ++ [EvGet (manifest_request b nm ver)]).
Proof.
  intros Hr Hs. unfold pushed, bind, get. rewrite Hr.
  destruct (Z.eqb_spec (status_code r) 401) as [E|_]; [contradiction|].
  reflexivity.
Qed.
Lemma pushed_trace_404 nm ver t r :
  fetch t (manifest_request b nm ver) = inr r ->
  status_code r = 404%Z ->
  fst (pushed fetch parse_challenge py_str b nm ver t)
  = t ++ [EvGet (manifest_request b nm ver)]
  /\ snd (pushed fetch parse_challenge py_str b nm ver t)
     = match body r with
       | Some v => manifest_state v (content r)
       | None => inl ValueError
       end.
Proof.
  intros Hr Hs.
  rewrite (pushed_without_challenge nm ver t r Hr) by (rewrite Hs; discriminate).
  unfold bind, response_json, lift, ret, raise.
  destruct (body r); split; reflexivity.
Qed.
End RegistryFacts.

(** C6, as the code has it.  When the manifest request is answered with a
    404, [pushed] issues that one request and returns false exactly when
    the body is a JSON object of the manifest-unknown shape; for every
    other body it raises or, with both manifest sections present, returns
    true. *)
Theorem pushed_404_unknown_manifest
    (fetch : trace -> Request -> exn + Response)
    (parse_challenge : string -> exn + list (string * string))
    (py_str : json -> string) (b : Baker) (nm ver : string) (t : trace)
    (r : Response) :
  fetch t (manifest_request b nm ver) = inr r ->
  status_code r = 404%Z ->
  fst (pushed fetch parse_challenge py_str b nm ver t)
  = t ++ [EvGet (manifest_request b nm ver)]
  /\ (snd (pushed fetch parse_challenge py_str b nm ver t) = inr false
      <-> exists v, body r = Some v /\ unknown_manifest v).
Proof.
  intros Hr Hs.
  destruct (pushed_trace_404 fetch parse_challenge py_str b nm ver t r Hr Hs)
    as [Ht Hv].
  split; [exact Ht|]. rewrite Hv.
  destruct (body r) as [v|].
  - rewrite manifest_state_false. split.
    + intros H. exists v. now split.
    + intros (v0 & Hv0 & H). now inversion Hv0; subst.
  - split; [discriminate|]. intros (v0 & Hv0 & _). discriminate.
Qed.

Lemma pushed_404_unknown_manifest_witness :
  fst (pushed (Sample.registry_404 "MANIFEST_UNKNOWN") Sample.no_challenge
              Sample.repr Sample.baker "web" "1.0" [])
  = [] ++ [EvGet (manifest_request Sample.baker "web" "1.0")]
  /\ (snd (pushed (Sample.registry_404 "MANIFEST_UNKNOWN") Sample.no_challenge
                  Sample.repr Sample.baker "web" "1.0" []) = inr false
      <-> exists v, body (Sample.response_404 "MANIFEST_UNKNOWN") = Some v
                    /\ unknown_manifest v).
Proof.
  apply (pushed_404_unknown_manifest (Sample.registry_404 "MANIFEST_UNKNOWN")
           Sample.no_challenge Sample.repr Sample.baker "web" "1.0" []
           (Sample.response_404 "MANIFEST_UNKNOWN")).
  - reflexivity.
  - reflexivity.
Defined.

(** C6 as stated fails: a 404 whose first error code is NAME_UNKNOWN makes
    [pushed] raise [CLIError] with the response text. *)
Lemma pushed_404_other_code_raises :
  Sample.registry_404 "NAME_UNKNOWN" [] (manifest_request Sample.baker "web" "1.0")
  = inr (Sample.response_404 "NAME_UNKNOWN")
  /\ status_code (Sample.response_404 "NAME_UNKNOWN") = 404%Z
  /\ snd (pushed (Sample.registry_404 "NAME_UNKNOWN") Sample.no_challenge
                 Sample.repr Sample.baker "web" "1.0" [])
     = inl (CLIError "not found").
Proof. repeat split. Qed.

(** C4.  Once [pushed] has answered [p], and with [out] the output of the
    local image query, [is_raw] returns a value that is true exactly when
    the image is not published or is built locally; it is false exactly
    when the image is published and not built. *)
Theorem is_raw_not_pushed_or_baked
    (exec : trace -> Command -> exn + string)
    (fetch : trace -> Request -> exn + Response)
    (parse_challenge : string -> exn + list (string * string))
    (py_str : json -> string)
    (image : option string -> option string -> string -> string -> string)
    (b : Baker) (nm ver : string) (t t1 t2 : trace) (p : bool) (out : string) :
  pushed fetch parse_challenge py_str b nm ver t = (t1, inr p) ->
  baked exec image b nm ver t1 = (t2, inr out) ->
  exists t' v,
    is_raw exec fetch parse_challenge py_str image b nm ver t = (t', inr v)
    /\ truthy v = negb p || str_truthy out
    /\ (truthy v = false <-> p = true /\ str_truthy out = false).
Proof.
  intros Hp Hb. unfold is_raw.
  rewrite (bind_inr _ _ _ _ _ Hp).
  destruct p; simpl.
  - rewrite (bind_inr _ _ _ _ _ Hb). exists t2, (PStr out). simpl.
    split; [reflexivity|]. split; [reflexivity|].
    split; [now intros ->|now intros [_ ->]].
  - exists t1, (PBool true). simpl.
    split; [reflexivity|]. split; [reflexivity|].
    split; [discriminate|now intros [? _]].
Qed.

Lemma is_raw_not_pushed_or_baked_witness :
  exists t' v,
    is_raw Sample.docker_images (Sample.registry_404 "MANIFEST_UNKNOWN")
           Sample.no_challenge Sample.repr Sample.image Sample.baker
           "web" "1.0" [] = (t', inr v)
    /\ truthy v = negb false || str_truthy "4f2a9c"
    /\ (truthy v = false <-> false = true /\ str_truthy "4f2a9c" = false).
Proof.
  eapply (is_raw_not_pushed_or_baked Sample.docker_images
            (Sample.registry_404 "MANIFEST_UNKNOWN") Sample.no_challenge
            Sample.repr Sample.image Sample.baker "web" "1.0" []).
  - reflexivity.
  - reflexivity.
Defined.


(** ** Pagination *)

Section PaginationFacts.
Variable parse_header_links : string -> list (list (string * string)).
Variable fetch : trace -> Request -> exn + Response.
Variable b : Baker.





(** A first response that is not ok ends [gh] at once. *)
Lemma gh_not_ok api expected fuel t r v :
  fetch t (api_request b api expected) = inr r ->
  ok r = false ->
  body r = Some v ->
  gh parse_header_links fetch fuel b api expected t
  = (t ++ [EvGet (api_request b api expected)], inr v).
Proof.
  intros Hr Hok Hb. unfold gh.
  unfold bind at 1. unfold get. fold (api_request b api expected). rewrite Hr.
  unfold bind at 1. unfold response_json. rewrite Hb. unfold ret at 1.
  now rewrite Hok.
Qed.
End PaginationFacts.



(** ** The verification fetch of pull *)

Section PullFacts.
Variable parse_header_links : string -> list (list (string * string)).
Variable fetch : trace -> Request -> exn + Response.
Variable py_str : json -> string.
Variable b : Baker.

(** The mapped function of the verification fetch never returns [OMIT]. *)
Lemma verify_never_omit fuel r t t' m :
  verify fetch parse_header_links py_str b fuel r t = (t', inr m) ->
  exists v, m = Val v.
Proof.
  unfold verify, bind, lift, ret.
  destruct (getitem r "full_name") as [e|full]; [discriminate|].
  destruct (gh _ _ _ _ _ _ t) as [t1 [e|v]]; [discriminate|].
  intros H. inversion H; subst. now exists v.
Qed.

Lemma clone_urls_without_id fs rest :
  has_key "id" fs = false ->
  clone_urls (JObj fs :: rest) = clone_urls rest.
Proof. intros H. simpl. now rewrite H. Qed.

Lemma clone_urls_with_id fs rest urls :
  has_key "id" fs = true ->
  clone_urls (JObj fs :: rest) = inr urls ->
  exists full u tl,
    assoc "full_name" fs = Some full /\ assoc "clone_url" fs = Some u
    /\ clone_urls rest = inr tl /\ urls = (full, u) :: tl.
Proof.
  intros H. simpl. rewrite H.
  destruct (assoc "full_name" fs) as [full|]; [|discriminate].
  destruct (assoc "clone_url" fs) as [u|]; [|discriminate].
  destruct (clone_urls rest) as [e|tl]; [discriminate|].
  intros E. inversion E; subst. now exists full, u, tl.
Qed.
End PullFacts.

(** C10.  When the first response of [gh] is not ok (a status the caller
    tolerates, such as the 404 of the verification fetch), [gh] issues that
    one request and returns the body as it is, whatever Link header the
    response carries.  The verification fetch of [pull] hands this body on
    as a value, never as [OMIT]; the repository is left out of the clone
    list exactly by the body having no id key. *)
Theorem gh_tolerated_response_not_followed
    (parse_header_links : string -> list (list (string * string)))
    (fetch : trace -> Request -> exn + Response)
    (py_str : json -> string) (b : Baker) (fuel : nat) (t : trace)
    (repo_ : json) (full : string) (r : Response) (fs : list (string * json)) :
  let q := api_request b ("repos/" +:+ full) (Some [404%Z]) in
  getitem repo_ "full_name" = inr (JStr full) ->
  fetch t q = inr r ->
  ok r = false ->
  body r = Some (JObj fs) ->
  gh parse_header_links fetch fuel b ("repos/" +:+ full) (Some [404%Z]) t
  = (t ++ [EvGet q], inr (JObj fs))
  /\ verify fetch parse_header_links py_str b fuel repo_ t
     = (t ++ [EvGet q], inr (Val (JObj fs)))
  /\ (has_key "id" fs = false ->
      forall rest, clone_urls (JObj fs :: rest) = clone_urls rest)
  /\ (has_key "id" fs = true ->
      forall rest urls, clone_urls (JObj fs :: rest) = inr urls ->
      exists tl, clone_urls rest = inr tl /\ length urls = S (length tl)).
Proof.
  intros q Hfull Hr Hok Hb.
  pose proof (gh_not_ok parse_header_links fetch b ("repos/" +:+ full)
                (Some [404%Z]) fuel t r (JObj fs) Hr Hok Hb) as Hgh.
  split; [exact Hgh|]. split.
  - unfold verify. unfold bind at 1. unfold lift. rewrite Hfull.
    unfold bind at 1. simpl to_str. rewrite Hgh. reflexivity.
  - split.
    + intros Hid rest. now apply clone_urls_without_id.
    + intros Hid rest urls Hu.
      destruct (clone_urls_with_id fs rest urls Hid Hu)
        as (f0 & u & tl & _ & _ & Htl & ->).
      exists tl. now split.
Qed.

Lemma gh_tolerated_response_not_followed_witness :
  gh Sample.parse_links Sample.github 5 Sample.baker
     ("repos/" +:+ "acme/gone") (Some [404%Z]) []
  = ([] ++ [EvGet (api_request Sample.baker ("repos/" +:+ "acme/gone") (Some [404%Z]))],
     inr (JObj [("message", JStr "Not Found")]))
  /\ verify Sample.github Sample.parse_links Sample.repr Sample.baker 5
            (Sample.repo_json "acme/gone") []
     = ([] ++ [EvGet (api_request Sample.baker ("repos/" +:+ "acme/gone") (Some [404%Z]))],
        inr (Val (JObj [("message", JStr "Not Found")])))
  /\ (has_key "id" [("message", JStr "Not Found")] = false ->
      forall rest, clone_urls (JObj [("message", JStr "Not Found")] :: rest)
                   = clone_urls rest)
  /\ (has_key "id" [("message", JStr "Not Found")] = true ->
      forall rest urls,
        clone_urls (JObj [("message", JStr "Not Found")] :: rest) = inr urls ->
        exists tl, clone_urls rest = inr tl /\ length urls = S (length tl)).
Proof.
  apply (gh_tolerated_response_not_followed Sample.parse_links Sample.github
           Sample.repr Sample.baker 5 [] (Sample.repo_json "acme/gone")
           "acme/gone" Sample.not_found [("message", JStr "Not Found")]);
    reflexivity.
Defined.

(** ** Credential injection *)

Lemma inject_token_parts url tok :
  str_truthy tok = true ->
  inject_token url (Some tok)
  = match split_once "://" url with
    | Some (scheme, rest) =>
        AElidable [Plain (scheme +:+ "://"); Secret tok; Plain ("@" +:+ rest)]
    | None => AElidable [Secret tok; Plain ("@" +:+ url)]
    end.
Proof. intros H. unfold inject_token. now rewrite H. Qed.

Lemma strip_prefix_app p s : strip_prefix p (p +:+ s) = Some s.
Proof.
  induction p as [|c p IH]; simpl; [now destruct s|].
  now rewrite Ascii.eqb_refl.
Qed.

Lemma str_contains_unfold sub s :
  str_contains sub s
  = if startswith s sub then true
    else match s with "" => false | String _ s' => str_contains sub s' end.
Proof. now destruct s. Qed.

Lemma str_contains_prefix p s : str_contains p (p +:+ s) = true.
Proof.
  rewrite str_contains_unfold. unfold startswith.
  now rewrite strip_prefix_app.
Qed.

Lemma str_contains_app_r sub p s :
  str_contains sub s = true -> str_contains sub (p +:+ s) = true.
Proof.
  intros H. induction p as [|c p IH]; [exact H|].
  rewrite str_contains_unfold. simpl. rewrite IH.
  now destruct (startswith _ _).
Qed.





(** ** Deploy: ownership and conflicts *)

Lemma first_claimant_snoc made svc r0 r :
  first_claimant (made ++ [(svc, r0)]) r
  = match first_claimant made r with
    | Some s => Some s
    | None => if String.eqb r0 r then Some svc else None
    end.
Proof.
  unfold first_claimant.
  induction made as [|[s x] made IH]; simpl.
  - now destruct (String.eqb r0 r).
  - destruct (String.eqb x r); [reflexivity|exact IH].
Qed.

(** The loop over resource names computes the first claimants and the
    later claims of the sequence of claims. *)
Lemma claim_fold rest : forall made (owners0 : gmap string Service) cs0,
  (forall r, owners0 !! r = first_claimant made r) ->
  (forall r, fst (fold_left (fun acc c => claim (fst c) (snd c) acc) rest (owners0, cs0)) !! r
             = first_claimant (made ++ rest) r)
  /\ snd (fold_left (fun acc c => claim (fst c) (snd c) acc) rest (owners0, cs0))
     = cs0 ++ later_claims made rest.
Proof.
  induction rest as [|[svc r0] rest IH]; intros made owners0 cs0 Hinv.
  - simpl. rewrite !app_nil_r. now split.
  - assert (Hstep : forall r,
      fst (claim svc r0 (owners0, cs0)) !! r = first_claimant (made ++ [(svc, r0)]) r).
    { intros r. rewrite first_claimant_snoc. unfold claim.
      rewrite <- (Hinv r).
      destruct (owners0 !! r0) as [first|] eqn:H0; simpl.
      - destruct (owners0 !! r) eqn:Hr; [reflexivity|].
        destruct (String.eqb_spec r0 r) as [->|_]; [congruence|reflexivity].
      - destruct (String.eqb_spec r0 r) as [->|Hne].
        + rewrite lookup_insert_eq. now rewrite H0.
        + rewrite lookup_insert_ne by exact Hne. now destruct (owners0 !! r). }
    cbn [fold_left fst snd].
    assert (Hc : snd (claim svc r0 (owners0, cs0))
                 = cs0 ++ match first_claimant made r0 with
                          | Some first => [(r0, name first, name svc)]
                          | None => []
                          end).
    { unfold claim. rewrite (Hinv r0).
      destruct (first_claimant made r0); simpl; [reflexivity|now rewrite app_nil_r]. }
    destruct (claim svc r0 (owners0, cs0)) as [owners1 cs1].
    simpl in Hstep, Hc.
    destruct (IH (made ++ [(svc, r0)]) owners1 cs1 Hstep) as [IH1 IH2]. split.
    + intros r. rewrite IH1. now rewrite <- app_assoc.
    + rewrite IH2, Hc. cbn [later_claims]. now rewrite <- app_assoc.
Qed.

Lemma claim_all_fold svc names acc :
  claim_all svc names acc
  = fold_left (fun acc c => claim (fst c) (snd c) acc) (map (pair svc) names) acc.
Proof.
  unfold claim_all. revert acc.
  induction names as [|r names IH]; intros acc; simpl; [reflexivity|apply IH].
Qed.

Lemma applies_snoc t e : applies (t ++ [e]) = applies t ++ omap applied_file [e].
Proof. unfold applies. apply omap_app. Qed.


Section DeployFacts.
Variable exec : trace -> Command -> exn + string.
Variable metadata : Service -> option string -> option string -> string * string.
Variable b : Baker.

Local Abbreviation listed := (listed exec).

(** One turn of the first loop: no manifest is applied; on success the
    listing is folded into the owners and conflicts and the manifest file
    is recorded. *)
Lemma render_service_step svc st t :
  applies (fst (render_service exec metadata b svc st t)) = applies t
  /\ forall st', snd (render_service exec metadata b svc st t) = inr st' ->
       exists names, listed svc names
       /\ (owners st', conflicts st') = claim_all svc names (owners st, conflicts st)
       /\ kube_files st' = kube_files st ++ [kube_file_of svc].
Proof.
  unfold render_service.
  destruct (metadata svc (registry b) (repo b)) as [filename text].
  unfold bind, write_file, call. cbn [fst snd argv dry_run_command].
  destruct (exec _ _) as [e|out] eqn:H1; cbn [fst snd].
  { split; [|discriminate]. repeat rewrite applies_snoc. simpl. now rewrite !app_nil_r. }
  match goal with |- context [exec ?a ?c] =>
    destruct (exec a c) as [e|names] eqn:H2 end; cbn [fst snd].
  { split; [|discriminate]. repeat rewrite applies_snoc. simpl. now rewrite !app_nil_r. }
  destruct (claim_all svc (split_ws names) (owners st, conflicts st))
    as [owners' conflicts'] eqn:Hc.
  unfold ret. cbn [fst snd]. split.
  - repeat rewrite applies_snoc. simpl. now rewrite !app_nil_r.
  - intros st' E. inversion E; subst st'. cbn [owners conflicts kube_files].
    exists (split_ws names). split; [|split; [now rewrite Hc | reflexivity]].
    eexists _, names. split; [exact H2 | reflexivity].
Qed.
Lemma render_services_run services : forall st t,
  applies (fst (render_services exec metadata b services st t)) = applies t
  /\ forall st', snd (render_services exec metadata b services st t) = inr st' ->
       exists listings, Forall2 listed services listings
       /\ (owners st', conflicts st')
          = fold_left (fun acc c => claim (fst c) (snd c) acc)
                      (claims services listings) (owners st, conflicts st)
       /\ kube_files st' = kube_files st ++ map kube_file_of services.
Proof.
  induction services as [|svc rest IH]; intros st t.
  - simpl. split; [reflexivity|]. intros st' E. inversion E; subst.
    exists []. split; [constructor|]. split; [reflexivity|now rewrite app_nil_r].
  - cbn [render_services]. unfold bind.
    destruct (render_service_step svc st t) as [Ha Hs].
    destruct (render_service exec metadata b svc st t) as [t1 [e|st1]];
      cbn [fst snd] in *.
    { split; [exact Ha|discriminate]. }
    destruct (Hs st1 eq_refl) as (names & Hl & Hc & Hk).
    destruct (IH st1 t1) as [Ha' Hs']. split; [now rewrite Ha'|].
    intros st' E. destruct (Hs' st' E) as (listings & Hls & Hc' & Hk').
    exists (names :: listings). split; [now constructor|]. split.
    + cbn [claims]. rewrite fold_left_app, <- claim_all_fold, <- Hc. exact Hc'.
    + rewrite Hk', Hk, <- app_assoc. reflexivity.
Qed.

(** A failure in the first phase ends the deploy before any apply. *)
Lemma deploy_phase_error services t t1 e :
  render_services exec metadata b services (mkDeployState ∅ [] []) t = (t1, inl e) ->
  deploy_services exec metadata b services t = (t1, inl e)
  /\ applies t1 = applies t.
Proof.
  intros Hrun. split.
  - unfold deploy_services. now rewrite (bind_inl _ _ _ _ _ Hrun).
  - destruct (render_services_run services (mkDeployState ∅ [] []) t) as [Ha _].
    now rewrite Hrun in Ha.
Qed.


End DeployFacts.


(** C2, as the code has it.  When the dry-run phase has gone through all
    services, every service has been listed, the recorded owner of a
    resource name is the first service that claimed it, and the recorded
    conflicts are the later claims of already-claimed names, in order,
    each as the tuple of the name, the first owner and the later claimant,
    whichever service the later claim comes from. *)
Theorem deploy_conflicts_recorded
    (exec : trace -> Command -> exn + string)
    (metadata : Service -> option string -> option string -> string * string)
    (b : Baker) (services : list Service) (t t1 : trace) (st : deploy_state) :
  render_services exec metadata b services (mkDeployState ∅ [] []) t = (t1, inr st) ->
  exists listings,
    Forall2 (listed exec) services listings
    /\ (forall r, owners st !! r = first_claimant (claims services listings) r)
    /\ conflicts st = later_claims [] (claims services listings).
Proof.
  intros Hrun.
  destruct (render_services_run exec metadata b services (mkDeployState ∅ [] []) t)
    as [_ Hs].
  rewrite Hrun in Hs. cbn [fst snd] in Hs.
  destruct (Hs st eq_refl) as (listings & Hl & Hc & _). cbn [owners conflicts] in Hc.
  exists listings. split; [exact Hl|].
  destruct (claim_fold (claims services listings) [] ∅ [])
    as [H1 H2].
  { intros r. now rewrite lookup_empty. }
  rewrite <- Hc in H1, H2. cbn [fst snd] in H1, H2.
  split; [exact H1|exact H2].
Qed.


Lemma deploy_conflicts_recorded_witness :
  exists listings,
    Forall2 (listed (Sample.kubectl [("/work/web/kube.yaml", "service/a deployment/b");
                                     ("/work/api/kube.yaml", "deployment/b service/c")]))
            [Sample.web; Sample.api] listings
    /\ (forall r,
         owners (mkDeployState
                   (<["service/c" := Sample.api]>
                      (<["deployment/b" := Sample.web]>
                         (<["service/a" := Sample.web]> ∅)))
                   [("deployment/b", "web", "api")]
                   ["/work/web/kube.yaml"; "/work/api/kube.yaml"]) !! r
         = first_claimant (claims [Sample.web; Sample.api] listings) r)
    /\ conflicts (mkDeployState
                   (<["service/c" := Sample.api]>
                      (<["deployment/b" := Sample.web]>
                         (<["service/a" := Sample.web]> ∅)))
                   [("deployment/b", "web", "api")]
                   ["/work/web/kube.yaml"; "/work/api/kube.yaml"])
       = later_claims [] (claims [Sample.web; Sample.api] listings).
Proof.
  eapply (deploy_conflicts_recorded
            (Sample.kubectl [("/work/web/kube.yaml", "service/a deployment/b");
                             ("/work/api/kube.yaml", "deployment/b service/c")])
            Sample.metadata Sample.baker [Sample.web; Sample.api] []).
  vm_compute. reflexivity.
Defined.

(** C2 as stated fails: a service whose own listing names a resource
    twice is recorded as in conflict with itself, and the deploy is
    refused, although no other service claims the name. *)
Lemma same_service_conflict_recorded :
  deploy_services
    (Sample.kubectl [("/work/web/kube.yaml", "service/a service/a")])
    Sample.metadata Sample.baker [Sample.web] []
  = ([EvWrite "/work/web/metadata.yaml" "name: web";
      EvCall (mkCommand [AStr "./deployment"; AStr "metadata.yaml"]
                        (Some "/work/web") false);
      EvWrite "/work/web/kube.yaml" "kind: List";
      EvCall (dry_run_command "/work/web/kube.yaml")],
     inl (CLIError "conflicts: service/a defined by web and web")).
Proof. vm_compute. reflexivity. Qed.

(** The two paths of the deploy on the spec's examples. *)
Example deploy_conflict_path :
  let run := deploy_services
               (Sample.kubectl [("/work/web/kube.yaml", "service/a deployment/b");
                                ("/work/api/kube.yaml", "deployment/b service/c")])
               Sample.metadata Sample.baker [Sample.web; Sample.api] [] in
  snd run = inl (CLIError "conflicts: deployment/b defined by web and api")
  /\ applies (fst run) = [].
Proof. vm_compute. split; reflexivity. Qed.

Example deploy_clean_path :
  let run := deploy_services
               (Sample.kubectl [("/work/web/kube.yaml", "service/a");
                                ("/work/api/kube.yaml", "service/b")])
               Sample.metadata Sample.baker [Sample.web; Sample.api] [] in
  snd run = inr tt
  /\ applies (fst run) = ["/work/web/kube.yaml"; "/work/api/kube.yaml"].
Proof. vm_compute. split; reflexivity. Qed.

(** ** What a fan-out leaves in the trace *)

Lemma fst_bind_ret {A B} (m : M A) (h : A -> B) t :
  fst ((x <~ m ;; ret (h x)) t) = fst (m t).
Proof. unfold bind, ret. now destruct (m t) as [t' [e|a]]. Qed.

Lemma omap_ext_in {A B} (f g : A -> option B) (l : list A) :
  (forall x, x ∈ l -> f x = g x) -> omap f l = omap g l.
Proof.
  induction l as [|a l IH]; intros H; [reflexivity|].
  change (match f a with Some y => y :: omap f l | None => omap f l end
          = match g a with Some y => y :: omap g l | None => omap g l end).
  rewrite (H a) by apply list_elem_of_here.
  rewrite IH; [reflexivity|]. intros x Hx. apply H. now apply list_elem_of_further.
Qed.

Lemma omap_lookup_seq {A X} (g : A -> X) (l : list A) : forall k,
  omap (fun i => g <$> l !! (i - k)) (seq k (length l)) = map g l.
Proof.
  induction l as [|a l IH]; intros k; [reflexivity|].
  cbn [length seq]. simpl omap. rewrite Nat.sub_diag. simpl.
  f_equal. rewrite <- (IH (S k)). apply omap_ext_in.
  intros i Hi. apply elem_of_seq in Hi.
  replace (i - k) with (S (i - S k)) by lia. reflexivity.
Qed.

Section AsyncTrace.
Context {A R X : Type}.
Variable fn : A -> M (mapped R).
Variable items : list A.
Variable obs : trace -> list X.

(** Threads that leave the observation alone: so does the fan-out,
    whether or not a thread raises. *)
Section Silent.
Hypothesis fn_silent : forall a t, obs (fst (fn a t)) = obs t.

Lemma run_thread_silent i finished t :
  obs (fst (run_thread fn items i finished t)) = obs t.
Proof.
  unfold run_thread. destruct (finished !! i); [reflexivity|].
  destruct (items !! i) as [a|]; [|reflexivity].
  pose proof (fn_silent a t) as H. now destruct (fn a t).
Qed.

Lemma run_schedule_silent order : forall finished t,
  obs (fst (run_schedule fn items order finished t)) = obs t.
Proof.
  induction order as [|i rest IH]; intros finished t; [reflexivity|]. simpl.
  pose proof (run_thread_silent i finished t) as H.
  destruct (run_thread fn items i finished t) as [t' finished'].
  rewrite IH. exact H.
Qed.

Lemma wait_each_silent threads : forall finished t,
  obs (fst (wait_each fn items threads finished t)) = obs t.
Proof.
  induction threads as [|i rest IH]; intros finished t; [reflexivity|]. simpl.
  pose proof (run_thread_silent i finished t) as H.
  destruct (run_thread fn items i finished t) as [t' finished'].
  cbn [fst] in H.
  destruct (finished' !! i) as [[e|[|r]]|]; cbn [fst];
    rewrite ?fst_bind_ret, ?IH; exact H.
Qed.

Lemma async_map_silent sched t :
  obs (fst (async_map sched fn items t)) = obs t.
Proof.
  unfold async_map.
  pose proof (run_schedule_silent (sched t) ∅ t) as H.
  destruct (run_schedule fn items (sched t) ∅ t) as [t' finished].
  rewrite wait_each_silent. exact H.
Qed.
End Silent.

(** Threads that return and each add one entry to the observation: the
    fan-out returns, and the entries of all items are added, in the order
    the threads finished. *)
Section Loud.
Variable g : A -> X.
Variable t0 : trace.
Hypothesis fn_returns : forall a t, exists m, snd (fn a t) = inr m.
Hypothesis fn_adds : forall a t, obs (fst (fn a t)) = obs t ++ [g a].

Local Abbreviation tracked := (tracked (R:=R) obs g items t0).

Lemma run_thread_tracked i finished t order :
  tracked finished t order ->
  exists order',
    tracked (snd (run_thread fn items i finished t))
            (fst (run_thread fn items i finished t)) order'
    /\ (forall j, j ∈ order -> j ∈ order')
    /\ (i < length items -> i ∈ order').
Proof.
  intros (Hnd & Hin & Hlt & Hret & Hobs). unfold run_thread.
  destruct (finished !! i) as [r|] eqn:Hi.
  { exists order.
    split; [exact (conj Hnd (conj Hin (conj Hlt (conj Hret Hobs))))|]. split; [auto|].
    intros _. apply Hin. rewrite Hi. eauto. }
  destruct (items !! i) as [a|] eqn:Ha.
  2:{ exists order.
    split; [exact (conj Hnd (conj Hin (conj Hlt (conj Hret Hobs))))|]. split; [auto|].
      intros Hl. apply lookup_ge_None in Ha. lia. }
  destruct (fn_returns a t) as [m Hm]. pose proof (fn_adds a t) as Hadd.
  destruct (fn a t) as [t' r]. cbn [fst snd] in *. subst r.
  exists (order ++ [i]). split; [|split].
  - split; [|split; [|split; [|split]]].
    + apply NoDup_app. split; [exact Hnd|]. split.
      * intros x Hx Hx'. apply list_elem_of_singleton in Hx'. subst x.
        apply Hin in Hx. rewrite Hi in Hx. now destruct Hx.
      * apply NoDup_singleton.
    + intros j. rewrite elem_of_app, list_elem_of_singleton, Hin.
      destruct (decide (i = j)) as [->|Hne].
      * rewrite lookup_insert_eq. split; [eauto|now right].
      * rewrite lookup_insert_ne by exact Hne. split; [|tauto].
        intros [H|H]; [exact H|congruence].
    + intros j Hj. apply elem_of_app in Hj. destruct Hj as [Hj|Hj]; [auto|].
      apply list_elem_of_singleton in Hj. subst j.
      apply lookup_lt_is_Some. eauto.
    + intros j r Hj. destruct (decide (i = j)) as [->|Hne].
      * rewrite lookup_insert_eq in Hj. inversion Hj. eauto.
      * rewrite lookup_insert_ne in Hj by exact Hne. eauto.
    + rewrite Hadd, Hobs, omap_app. simpl. rewrite Ha. simpl.
      now rewrite <- app_assoc.
  - intros j Hj. apply elem_of_app. now left.
  - intros _. apply elem_of_app. right. apply list_elem_of_singleton. reflexivity.
Qed.

Lemma run_schedule_tracked sched : forall finished t order,
  tracked finished t order ->
  exists order',
    tracked (snd (run_schedule fn items sched finished t))
            (fst (run_schedule fn items sched finished t)) order'.
Proof.
  induction sched as [|i rest IH]; intros finished t order Ht; simpl.
  - now exists order.
  - destruct (run_thread_tracked i finished t order Ht) as (order' & Ht' & _).
    destruct (run_thread fn items i finished t) as [t' finished'].
    now apply (IH finished' t' order').
Qed.

Lemma tracked_all finished t order :
  tracked finished t order ->
  (forall i, i < length items -> i ∈ order) ->
  obs t ≡ₚ obs t0 ++ map g items.
Proof.
  intros (Hnd & _ & Hlt & _ & Hobs) Hall. rewrite Hobs.
  apply Permutation_app_head.
  rewrite <- (omap_lookup_seq g items 0).
  rewrite (omap_ext_in (fun i => g <$> items !! (i - 0)) (fun i => g <$> items !! i)).
  2:{ intros i _. now rewrite Nat.sub_0_r. }
  apply omap_Permutation, NoDup_Permutation.
  - exact Hnd.
  - apply NoDup_seq.
  - intros i. rewrite elem_of_seq. split.
    + intros Hi. specialize (Hlt i Hi). lia.
    + intros Hi. apply Hall. lia.
Qed.

Lemma wait_each_tracked n : forall k finished t order,
  tracked finished t order ->
  (forall i, i < k -> i ∈ order) ->
  k + n = length items ->
  exists t' rs,
    wait_each fn items (seq k n) finished t = (t', inr rs)
    /\ obs t' ≡ₚ obs t0 ++ map g items.
Proof.
  induction n as [|n IH]; intros k finished t order Ht Hk Hlen.
  - exists t, []. split; [reflexivity|].
    apply (tracked_all finished t order Ht). intros i Hi. apply Hk. lia.
  - cbn [seq wait_each].
    destruct (run_thread_tracked k finished t order Ht) as (order' & Ht' & Hmono & Hdone).
    destruct (run_thread fn items k finished t) as [t1 finished1].
    cbn [fst snd] in Ht'.
    assert (Hk' : forall i, i < S k -> i ∈ order').
    { intros i Hi. destruct (decide (i = k)) as [->|Hne].
      - apply Hdone. lia.
      - apply Hmono, Hk. lia. }
    destruct (IH (S k) finished1 t1 order' Ht' Hk' ltac:(lia)) as (t' & rs & Hrun & Hperm).
    destruct Ht' as (_ & Hin & _ & Hret & _).
    destruct (proj1 (Hin k) (Hk' k ltac:(lia))) as [r Hr]. rewrite Hr.
    destruct (Hret k r Hr) as [m ->].
    destruct m as [|v].
    + now exists t', rs.
    + exists t', (v :: rs). split; [|exact Hperm].
      unfold bind. now rewrite Hrun.
Qed.
End Loud.

Lemma async_map_adds (g : A -> X) sched t :
  (forall a t, exists m, snd (fn a t) = inr m) ->
  (forall a t, obs (fst (fn a t)) = obs t ++ [g a]) ->
  exists t' rs,
    async_map sched fn items t = (t', inr rs)
    /\ obs t' ≡ₚ obs t ++ map g items.
Proof.
  intros Hret Hadd. unfold async_map.
  assert (H0 : tracked (R:=R) obs g items t ∅ t []).
  { split; [apply NoDup_nil_2|]. split.
    - intros i. rewrite lookup_empty. split.
      + intros H. now apply elem_of_nil in H.
      + intros [x Hx]. discriminate.
    - split; [intros i H; now apply elem_of_nil in H|]. split.
      + intros i r H. now rewrite lookup_empty in H.
      + simpl. now rewrite app_nil_r. }
  destruct (run_schedule_tracked g t Hret Hadd (sched t) ∅ t [] H0) as [order Ht].
  destruct (run_schedule fn items (sched t) ∅ t) as [t1 finished].
  cbn [fst snd] in Ht.
  apply (wait_each_tracked g t Hret Hadd (length items) 0 finished t1 order Ht).
  - intros i Hi. lia.
  - reflexivity.
Qed.
End AsyncTrace.

(** ** Push *)








Section PushFacts.
Variable exec : trace -> Command -> exn + string.
Variable fetch : trace -> Request -> exn + Response.
Variable sched : trace -> list nat.
Variable parse_challenge : string -> exn + list (string * string).
Variable py_str : json -> string.
Variable image : option string -> option string -> string -> string -> string.
Variable containers : list Service -> list (Service * string * string).
Variable b : Baker.






End PushFacts.



Example push_sample :
  pushed_images
    (fst (push_services Sample.docker (Sample.registry_404 "MANIFEST_UNKNOWN")
            Sample.last_first Sample.no_challenge Sample.repr Sample.image
            Sample.containers Sample.baker [Sample.web; Sample.api] []))
  = ["registry.io/acme/web:4f2a"].
Proof. vm_compute. reflexivity. Qed.

(** ** Scan *)

Lemma fsnode_nested_ind (P : fsnode -> Prop) :
  P File ->
  (forall es, Forall (fun e => P (snd e)) es -> P (Dir es)) ->
  forall n, P n.
Proof.
  intros HF HD. fix IH 1. intros [|es]; [exact HF|]. apply HD.
  induction es as [|[n c] es IHes]; constructor; [apply IH|exact IHes].
Qed.

Lemma survey_children_fix here parent1 es : forall sh,
  (fix children (es : list (string * fsnode)) (sh : shape) : shape :=
     match es with
     | [] => sh
     | (n, child) :: rest =>
         children rest
           (if negb (mem n EXCLUDED) && is_dir child
            then survey child (here ++ [n]) parent1 sh
            else sh)
     end) es sh
  = survey_children here parent1 es sh.
Proof.
  induction es as [|[n c] es IH]; intros sh; [reflexivity|].
  cbn [survey_children]. apply IH.
Qed.

Lemma survey_Dir entries here parent sh :
  survey (Dir entries) here parent sh
  = let names := map fst entries in
    if mem "proto.yaml" names then
      mkShape (s_protos sh ++ [here]) (s_roots sh) (s_ctxs sh)
    else
      let sh1 := if mem "service.yaml" names
                 then mkShape (s_protos sh) (s_roots sh ++ [here]) (s_ctxs sh)
                 else sh in
      let parent1 := if mem "service.yaml" names
                     then Some (length (s_roots sh)) else parent in
      let sh2 := match parent1 with
                 | Some i =>
                     if mem "Dockerfile" names
                     then mkShape (s_protos sh1) (s_roots sh1) (s_ctxs sh1 ++ [(i, here)])
                     else sh1
                 | None => sh1
                 end in
      survey_children here parent1 entries sh2.
Proof.
  cbn [survey]. cbv zeta.
  destruct (mem "proto.yaml" (map fst entries)); [reflexivity|].
  apply survey_children_fix.
Qed.

Lemma extend_shape_nil sh : sh = extend_shape sh [] [] [].
Proof. destruct sh. unfold extend_shape. simpl. now rewrite !app_nil_r. Qed.

Lemma extend_shape_twice sh dp dr dc dp' dr' dc' :
  extend_shape (extend_shape sh dp dr dc) dp' dr' dc'
  = extend_shape sh (dp ++ dp') (dr ++ dr') (dc ++ dc').
Proof. unfold extend_shape. simpl. now rewrite !app_assoc. Qed.

Lemma extends_refl sh : extends sh sh.
Proof. exists [], [], []. apply extend_shape_nil. Qed.

Lemma extends_trans sh1 sh2 sh3 : extends sh1 sh2 -> extends sh2 sh3 -> extends sh1 sh3.
Proof.
  intros (dp & dr & dc & ->) (dp' & dr' & dc' & ->).
  rewrite extend_shape_twice. now eexists _, _, _.
Qed.

Lemma extends_roots sh sh' : extends sh sh' -> length (s_roots sh) <= length (s_roots sh').
Proof. intros (dp & dr & dc & ->). simpl. rewrite length_app. lia. Qed.

Lemma survey_children_extends here parent1 es :
  Forall (fun e => forall here parent sh, extends sh (survey (snd e) here parent sh)) es ->
  forall sh, extends sh (survey_children here parent1 es sh).
Proof.
  induction 1 as [|[n c] es Hc _ IH]; intros sh; [apply extends_refl|].
  cbn [survey_children].
  eapply extends_trans; [|apply IH].
  destruct (negb (mem n EXCLUDED) && is_dir c); [apply Hc|apply extends_refl].
Qed.

Lemma survey_extends node : forall here parent sh,
  extends sh (survey node here parent sh).
Proof.
  induction node as [|es IH] using fsnode_nested_ind; intros here parent sh.
  - apply extends_refl.
  - rewrite survey_Dir. cbv zeta.
    destruct (mem "proto.yaml" (map fst es)).
    { exists [here], [], []. unfold extend_shape. now rewrite !app_nil_r. }
    eapply extends_trans; [|apply survey_children_extends, IH].
    destruct (mem "service.yaml" (map fst es)).
    + destruct (mem "Dockerfile" (map fst es)).
      * exists [], [here], [(length (s_roots sh), here)].
        unfold extend_shape. simpl. now rewrite !app_nil_r.
      * exists [], [here], []. unfold extend_shape. simpl. now rewrite !app_nil_r.
    + destruct parent as [i|]; [|apply extends_refl].
      destruct (mem "Dockerfile" (map fst es)); [|apply extends_refl].
      exists [], [], [(i, here)]. unfold extend_shape. simpl. now rewrite !app_nil_r.
Qed.

Lemma dirs_of_snoc i ctxs j d :
  dirs_of i (ctxs ++ [(j, d)]) = dirs_of i ctxs ++ (if Nat.eqb j i then [d] else []).
Proof.
  unfold dirs_of. rewrite List.filter_app, map_app. simpl.
  now destruct (Nat.eqb j i).
Qed.

Lemma dirs_of_fresh k ctxs :
  (forall j d, (j, d) ∈ ctxs -> j < k) -> dirs_of k ctxs = [].
Proof.
  induction ctxs as [|[j d] ctxs IH]; intros H; [reflexivity|].
  unfold dirs_of. simpl.
  destruct (Nat.eqb_spec j k) as [->|_].
  - specialize (H k d (list_elem_of_here _ _)). lia.
  - apply IH. intros j' d' Hin. apply (H j' d'). now apply list_elem_of_further.
Qed.

Lemma map_root_alter (f : Service -> Service) i (l : list Service) :
  (forall svc, root (f svc) = root svc) ->
  map root (alter f i l) = map root l.
Proof.
  intros Hf. revert i. induction l as [|x l IH]; intros [|i]; simpl; try reflexivity.
  - now rewrite Hf.
  - f_equal. apply IH.
Qed.

Lemma pathstr_snoc b here n : pathstr b (here ++ [n]) = path_join (pathstr b here) n.
Proof. unfold pathstr. now rewrite fold_left_app. Qed.

Section ScanFacts.
Variable exec : trace -> Command -> exn + string.
Variable relpath : string -> string -> string.
Variable name_of : string -> string.
Variable b : Baker.

Local Abbreviation agrees := (agrees relpath b).

Lemma agrees_proto st sh here :
  agrees st sh ->
  agrees (fst st ++ [mkPrototype (path_join (pathstr b here) "proto.yaml")], snd st)
         (mkShape (s_protos sh ++ [here]) (s_roots sh) (s_ctxs sh)).
Proof.
  intros (Hp & Hr & Hc & Hv). split; [|now split].
  cbn [fst s_protos]. now rewrite !map_app, Hp.
Qed.

Lemma agrees_service st sh here nm ver desc :
  agrees st sh ->
  agrees (fst st, snd st ++ [mkService nm ver (pathstr b here) desc []])
         (mkShape (s_protos sh) (s_roots sh ++ [here]) (s_ctxs sh)).
Proof.
  intros (Hp & Hr & Hc & Hv).
  assert (Hlen : length (snd st) = length (s_roots sh)).
  { rewrite <- (length_map root), Hr. apply length_map. }
  split; [exact Hp|]. split; [|split].
  - cbn [snd s_roots]. now rewrite !map_app, Hr.
  - cbn [snd s_ctxs]. intros i svc Hi.
    apply lookup_app_Some in Hi. destruct Hi as [Hi|[Hge Hi]]; [now apply Hc|].
    destruct (i - length (snd st)) as [|k] eqn:Hk; [|discriminate].
    inversion Hi; subst svc. cbn [containers_of].
    rewrite dirs_of_fresh; [reflexivity|].
    intros j d Hin. specialize (Hv j d Hin). lia.
  - cbn [s_ctxs s_roots]. intros i d Hin. specialize (Hv i d Hin).
    rewrite length_app. lia.
Qed.

Lemma agrees_container st sh here i :
  agrees st sh ->
  i < length (s_roots sh) ->
  agrees (fst st,
          alter (fun svc => add_container
                   (relpath (path_join (pathstr b here) "Dockerfile") (root svc)) svc)
                i (snd st))
         (mkShape (s_protos sh) (s_roots sh) (s_ctxs sh ++ [(i, here)])).
Proof.
  intros (Hp & Hr & Hc & Hv) Hi.
  split; [exact Hp|]. split; [|split].
  - cbn [snd s_roots]. rewrite map_root_alter; [exact Hr|reflexivity].
  - cbn [snd s_ctxs]. intros j svc Hj. rewrite dirs_of_snoc.
    destruct (Nat.eqb_spec i j) as [->|Hne].
    + rewrite list_lookup_alter_eq in Hj.
      destruct (snd st !! j) as [svc0|] eqn:H0; simpl in Hj; [|discriminate].
      inversion Hj; subst svc. cbn [containers_of add_container root].
      now rewrite map_app, (Hc j svc0 H0).
    + rewrite list_lookup_alter_ne in Hj by exact Hne.
      rewrite app_nil_r. now apply Hc.
  - cbn [s_ctxs s_roots]. intros j d Hin. apply elem_of_app in Hin.
    destruct Hin as [Hin|Hin]; [now apply (Hv j d)|].
    apply list_elem_of_singleton in Hin. injection Hin as -> ->. exact Hi.
Qed.
Lemma descend_children_fix path parent1 es : forall st t,
  (fix children (es : list (string * fsnode)) (st : scan_state) : M scan_state :=
     match es with
     | [] => ret st
     | (n, child) :: rest =>
         st' <~ (if negb (mem n EXCLUDED) && is_dir child
                 then descend exec relpath name_of child (path_join path n) parent1 st
                 else ret st) ;;
         children rest st'
     end) es st t
  = descend_children exec relpath name_of path parent1 es st t.
Proof.
  induction es as [|[n c] es IH]; intros st t; [reflexivity|].
  cbn [descend_children]. cbn beta iota fix. unfold bind.
  destruct (negb (mem n EXCLUDED) && is_dir c).
  - destruct (descend exec relpath name_of c (path_join path n) parent1 st t)
      as [t1 [e|st1]]; [reflexivity|apply IH].
  - apply IH.
Qed.

Lemma descend_Dir entries path parent st t :
  descend exec relpath name_of (Dir entries) path parent st t
  = (let names := map fst entries in
     if mem "proto.yaml" names then
       ret (fst st ++ [mkPrototype (path_join path "proto.yaml")], snd st)
     else
       sp <~ (if mem "service.yaml" names then
                out <~ call exec [AStr "git"; AStr "rev-parse"; AStr "HEAD"]
                            (Some path) false ;;
                let svc := mkService (name_of (path_join path "service.yaml"))
                                     (strip out) path
                                     (path_join path "service.yaml") [] in
                ret ((fst st, snd st ++ [svc]), Some (length (snd st)))
              else ret (st, parent)) ;;
       let st1 := fst sp in
       let parent1 := snd sp in
       let st2 :=
         match parent1 with
         | Some i =>
             if mem "Dockerfile" names then
               (fst st1,
                alter (fun svc => add_container
                         (relpath (path_join path "Dockerfile") (root svc)) svc)
                      i (snd st1))
             else st1
         | None => st1
         end in
       descend_children exec relpath name_of path parent1 entries st2) t.
Proof.
  cbn [descend]. cbv zeta.
  destruct (mem "proto.yaml" (map fst entries)); [reflexivity|].
  apply bind_ext. intros sp t1. apply descend_children_fix.
Qed.

Lemma descend_children_agrees here parent1 es :
  Forall (fun e => forall here parent st sh t t' st',
            agrees st sh -> valid parent sh ->
            descend exec relpath name_of (snd e) (pathstr b here) parent st t
            = (t', inr st') ->
            agrees st' (survey (snd e) here parent sh)) es ->
  forall st sh t t' st',
    agrees st sh -> valid parent1 sh ->
    descend_children exec relpath name_of (pathstr b here) parent1 es st t
    = (t', inr st') ->
    agrees st' (survey_children here parent1 es sh).
Proof.
  induction 1 as [|[n c] es Hc _ IH]; intros st sh t t' st' Ha Hv Hrun.
  - inversion Hrun; subst. exact Ha.
  - cbn [descend_children survey_children] in *. unfold bind in Hrun.
    destruct (negb (mem n EXCLUDED) && is_dir c).
    + rewrite <- pathstr_snoc in Hrun.
      destruct (descend exec relpath name_of c (pathstr b (here ++ [n])) parent1 st t)
        as [t1 [e|st1]] eqn:Hd; [discriminate|].
      apply (IH st1 _ t1 t' st'); [|..|exact Hrun].
      * apply (Hc (here ++ [n]) parent1 st sh t t1 st1 Ha Hv Hd).
      * intros i Hi. specialize (Hv i Hi).
        pose proof (extends_roots _ _ (survey_extends c (here ++ [n]) parent1 sh)). lia.
    + apply (IH st sh t t' st' Ha Hv Hrun).
Qed.

(** The services and containers [descend] builds are those of the
    replayed walk. *)
Lemma descend_agrees node : forall here parent st sh t t' st',
  agrees st sh -> valid parent sh ->
  descend exec relpath name_of node (pathstr b here) parent st t = (t', inr st') ->
  agrees st' (survey node here parent sh).
Proof.
  induction node as [|es IH] using fsnode_nested_ind;
    intros here parent st sh t t' st' Ha Hv Hrun.
  - discriminate.
  - rewrite descend_Dir in Hrun. rewrite survey_Dir. cbv zeta in *.
    destruct (mem "proto.yaml" (map fst es)).
    { inversion Hrun; subst. now apply agrees_proto. }
    assert (Hlen : length (snd st) = length (s_roots sh)).
    { destruct Ha as (_ & Hr & _). rewrite <- (length_map root), Hr. apply length_map. }
    unfold bind at 1 in Hrun.
    destruct (mem "service.yaml" (map fst es)).
    + unfold bind, call, ret in Hrun.
      destruct (exec t _) as [e|out]; [discriminate|].
      cbn [fst snd] in Hrun. rewrite Hlen in Hrun.
      pose proof (agrees_service st sh here
                    (name_of (path_join (pathstr b here) "service.yaml")) (strip out)
                    (path_join (pathstr b here) "service.yaml") Ha) as Ha1.
      destruct (mem "Dockerfile" (map fst es)).
      * eapply (descend_children_agrees here _ es IH); [| |exact Hrun].
        -- apply (agrees_container _ _ here (length (s_roots sh)) Ha1).
           cbn [s_roots]. rewrite length_app. simpl. lia.
        -- intros i Hi. inversion Hi; subst. cbn [s_roots]. rewrite length_app. simpl. lia.
      * eapply (descend_children_agrees here _ es IH); [exact Ha1| |exact Hrun].
        intros i Hi. inversion Hi; subst. cbn [s_roots]. rewrite length_app. simpl. lia.
    + unfold ret in Hrun. cbn [fst snd] in Hrun.
      destruct parent as [i|].
      * destruct (mem "Dockerfile" (map fst es)).
        -- eapply (descend_children_agrees here _ es IH); [| |exact Hrun].
           ++ apply (agrees_container _ _ here i Ha). now apply Hv.
           ++ exact Hv.
        -- eapply (descend_children_agrees here _ es IH); [exact Ha|exact Hv|exact Hrun].
      * eapply (descend_children_agrees here _ es IH); [exact Ha|exact Hv|exact Hrun].
Qed.
End ScanFacts.

Lemma wf_tree_Dir es :
  wf_tree (Dir es) <-> NoDup (map fst es) /\ Forall (fun e => wf_tree (snd e)) es.
Proof.
  cbn [wf_tree]. split; intros [Hn Ha]; (split; [exact Hn|]).
  - induction es as [|[n c] es IH]; constructor.
    + apply Ha.
    + apply IH; [now inversion Hn|apply Ha].
  - induction Ha as [|[n c] es Hc _ IH]; [exact I|].
    split; [exact Hc|]. apply IH. now inversion Hn.
Qed.

Lemma assoc_NoDup {V} n (c : V) es :
  NoDup (map fst es) -> (n, c) ∈ es -> assoc n es = Some c.
Proof.
  induction es as [|[k v] es IH]; intros Hn Hin.
  - now apply elem_of_nil in Hin.
  - simpl. inversion Hn as [|? ? Hk Hn']; subst.
    apply elem_of_cons in Hin. destruct Hin as [Hin|Hin].
    + inversion Hin; subst. now rewrite String.eqb_refl.
    + destruct (String.eqb_spec k n) as [->|_]; [|now apply IH].
      exfalso. apply Hk. apply list_elem_of_fmap. now exists (n, c).
Qed.

Lemma points_extend parent roots dr owner :
  points parent roots owner -> points parent (roots ++ dr) owner.
Proof.
  destruct parent as [i|]; [|exact id].
  intros (p & Hp & Ho). exists p. split; [|exact Ho].
  now apply lookup_app_l_Some.
Qed.

Lemma survey_children_attributes here parent1 owner1 es :
  Forall (fun e => attributes (snd e)) es ->
  NoDup (map fst es) ->
  Forall (fun e => wf_tree (snd e)) es ->
  forall sh,
    points parent1 (s_roots sh) owner1 ->
    exists dp dr dc,
      survey_children here parent1 es sh = extend_shape sh dp dr dc
      /\ NoDup (map snd dc)
      /\ forall i d, (i, d) ∈ dc ->
           exists n c rest p,
             (n, c) ∈ es /\ mem n EXCLUDED = false
             /\ d = here ++ n :: rest
             /\ owner_on_path rest c (here ++ [n]) owner1 = Some p
             /\ (s_roots sh ++ dr) !! i = Some p.
Proof.
  induction 1 as [|[n c] es Hc _ IH]; intros Hnd Hwf sh Hp.
  - exists [], [], []. split; [apply extend_shape_nil|]. split; [constructor|].
    intros i d Hin. now apply elem_of_nil in Hin.
  - inversion Hnd as [|? ? Hn Hnd']; subst. inversion Hwf as [|? ? Hwc Hwf']; subst.
    cbn [survey_children].
    assert (Hstep : exists dp dr dc,
      (if negb (mem n EXCLUDED) && is_dir c
       then survey c (here ++ [n]) parent1 sh else sh) = extend_shape sh dp dr dc
      /\ NoDup (map snd dc)
      /\ forall i d, (i, d) ∈ dc ->
           exists rest p, mem n EXCLUDED = false /\ d = here ++ n :: rest
             /\ owner_on_path rest c (here ++ [n]) owner1 = Some p
             /\ (s_roots sh ++ dr) !! i = Some p).
    { destruct (mem n EXCLUDED) eqn:Hx; simpl.
      { exists [], [], []. split; [apply extend_shape_nil|]. split; [constructor|].
        intros i d Hin. now apply elem_of_nil in Hin. }
      destruct (is_dir c).
      2:{ exists [], [], []. split; [apply extend_shape_nil|]. split; [constructor|].
          intros i d Hin. now apply elem_of_nil in Hin. }
      destruct (Hc (here ++ [n]) parent1 owner1 sh Hwc Hp) as (dp & dr & dc & He & Hd & Ha).
      exists dp, dr, dc. split; [exact He|]. split; [exact Hd|].
      intros i d Hin. destruct (Ha i d Hin) as (rest & p & -> & Ho & Hl).
      exists rest, p. rewrite <- app_assoc. now repeat split. }
    destruct Hstep as (dp & dr & dc & -> & Hd & Ha).
    destruct (IH Hnd' Hwf' (extend_shape sh dp dr dc)) as (dp' & dr' & dc' & He' & Hd' & Ha').
    { cbn [extend_shape s_roots]. now apply points_extend. }
    exists (dp ++ dp'), (dr ++ dr'), (dc ++ dc').
    split; [now rewrite He', extend_shape_twice|]. split.
    + rewrite map_app. apply NoDup_app. split; [exact Hd|]. split; [|exact Hd'].
      intros d Hin Hin'.
      apply list_elem_of_fmap in Hin. destruct Hin as ([i d1] & -> & Hin).
      apply list_elem_of_fmap in Hin'. destruct Hin' as ([i' d2] & Heq & Hin').
      cbn [snd] in Heq. subst d2.
      destruct (Ha i d1 Hin) as (rest & p & _ & -> & _).
      destruct (Ha' i' _ Hin') as (n' & c' & rest' & p' & Hm & _ & Heq & _).
      apply app_inv_head in Heq. inversion Heq; subst n'.
      apply Hn. apply list_elem_of_fmap. now exists (n, c').
    + intros i d Hin. apply elem_of_app in Hin. destruct Hin as [Hin|Hin].
      * destruct (Ha i d Hin) as (rest & p & Hx & -> & Ho & Hl).
        exists n, c, rest, p. split; [apply list_elem_of_here|]. split; [exact Hx|].
        split; [reflexivity|]. split; [exact Ho|].
        rewrite app_assoc. now apply lookup_app_l_Some.
      * destruct (Ha' i d Hin) as (n' & c' & rest & p & Hm & Hx & -> & Ho & Hl).
        exists n', c', rest, p. split; [now apply list_elem_of_further|].
        split; [exact Hx|]. split; [reflexivity|]. split; [exact Ho|].
        cbn [extend_shape s_roots] in Hl. now rewrite app_assoc.
Qed.

Lemma survey_attributes node : attributes node.
Proof.
  induction node as [|es IH] using fsnode_nested_ind;
    intros here parent owner sh Hwf Hp.
  - exists [], [], []. split; [apply extend_shape_nil|]. split; [constructor|].
    intros i d Hin. now apply elem_of_nil in Hin.
  - apply wf_tree_Dir in Hwf. destruct Hwf as [Hnd Hwf].
    rewrite survey_Dir. cbv zeta.
    destruct (mem "proto.yaml" (map fst es)) eqn:Hproto.
    { exists [here], [], []. split.
      - unfold extend_shape. now rewrite !app_nil_r.
      - split; [constructor|]. intros i d Hin. now apply elem_of_nil in Hin. }
    (* the service in force below this directory *)
    set (parent1 := if mem "service.yaml" (map fst es)
                    then Some (length (s_roots sh)) else parent).
    set (owner1 := if mem "service.yaml" (map fst es) then Some here else owner).
    set (dr0 := if mem "service.yaml" (map fst es) then [here] else []).
    set (dc0 := match parent1 with
                | Some i => if mem "Dockerfile" (map fst es) then [(i, here)] else []
                | None => []
                end).
    assert (Hp1 : points parent1 (s_roots sh ++ dr0) owner1).
    { subst parent1 owner1 dr0. destruct (mem "service.yaml" (map fst es)).
      - exists here. split; [|reflexivity].
        rewrite lookup_app_r by lia. now rewrite Nat.sub_diag.
      - now rewrite app_nil_r. }
    match goal with |- context [survey_children here parent1 es ?s] =>
      assert (Hsh2 : s = extend_shape sh [] dr0 dc0) end.
    { subst parent1 dr0 dc0. destruct sh as [ps rs cs]. unfold extend_shape. cbn.
      destruct (mem "service.yaml" (map fst es)); cbn.
      - destruct (mem "Dockerfile" (map fst es)); cbn; now rewrite ?app_nil_r.
      - destruct parent as [i|]; cbn; [|now rewrite ?app_nil_r].
        destruct (mem "Dockerfile" (map fst es)); cbn; now rewrite ?app_nil_r. }
    rewrite Hsh2.
    destruct (survey_children_attributes here parent1 owner1 es IH Hnd Hwf
                (extend_shape sh [] dr0 dc0) Hp1)
      as (dp & dr & dc & He & Hd & Ha).
    exists dp, (dr0 ++ dr), (dc0 ++ dc).
    split; [now rewrite He, extend_shape_twice|]. split.
    + rewrite map_app. apply NoDup_app. split; [|split; [|exact Hd]].
      * subst dc0. destruct parent1; [|constructor].
        destruct (mem "Dockerfile" (map fst es)); [|constructor].
        apply NoDup_singleton.
      * intros d Hin Hin'.
        assert (d = here) as ->.
        { subst dc0. destruct parent1; [|now apply elem_of_nil in Hin].
          destruct (mem "Dockerfile" (map fst es)); [|now apply elem_of_nil in Hin].
          now apply list_elem_of_singleton in Hin. }
        apply list_elem_of_fmap in Hin'. destruct Hin' as ([i d2] & Heq & Hin').
        cbn [snd] in Heq. subst d2.
        destruct (Ha i here Hin') as (n & c & rest & p & _ & _ & Heq & _).
        rewrite <- (app_nil_r here) in Heq at 1.
        apply app_inv_head in Heq. discriminate.
    + intros i d Hin. apply elem_of_app in Hin. destruct Hin as [Hin|Hin].
      * (* the Dockerfile of this directory *)
        subst dc0. destruct parent1 as [k|] eqn:Hk; [|now apply elem_of_nil in Hin].
        destruct (mem "Dockerfile" (map fst es)) eqn:Hdocker;
          [|now apply elem_of_nil in Hin].
        apply list_elem_of_singleton in Hin. injection Hin as -> ->.
        destruct Hp1 as (p & Hl & Ho).
        exists [], p. split; [now rewrite app_nil_r|]. split.
        -- cbn [owner_on_path]. rewrite Hproto, Hdocker. exact Ho.
        -- rewrite app_assoc. now apply lookup_app_l_Some.
      * destruct (Ha i d Hin) as (n & c & rest & p & Hm & Hx & -> & Ho & Hl).
        exists (n :: rest), p. split; [reflexivity|]. split.
        -- cbn [owner_on_path]. rewrite Hproto, Hx.
           rewrite (assoc_NoDup n c es Hnd Hm). exact Ho.
        -- cbn [extend_shape s_roots] in Hl. now rewrite app_assoc.
Qed.

(** *** What [owner_on_path] says, in terms of the directories on the way *)

Lemma prefix_of_cons_inv (q : list string) n rest :
  q `prefix_of` (n :: rest) -> q = [] \/ exists q', q = n :: q' /\ q' `prefix_of` rest.
Proof.
  destruct q as [|m q]; [now left|]. intros [k Hk]. right.
  injection Hk as -> ->. exists q. split; [reflexivity|now exists k].
Qed.

Lemma marked_at_cons marker es n child q :
  assoc n es = Some child ->
  marked_at marker (Dir es) (n :: q) = marked_at marker child q.
Proof. intros H. unfold marked_at. cbn [node_at]. now rewrite H. Qed.

Lemma owner_on_path_markers rest : forall node here owner p,
  owner_on_path rest node here owner = Some p ->
  marked_at "Dockerfile" node rest = true
  /\ (forall q, q `prefix_of` rest -> marked_at "proto.yaml" node q = false)
  /\ ((owner = Some p
       /\ forall q, q `prefix_of` rest -> marked_at "service.yaml" node q = false)
      \/ exists pre,
           p = here ++ pre /\ pre `prefix_of` rest
           /\ marked_at "service.yaml" node pre = true
           /\ forall q, q `prefix_of` rest -> length pre < length q ->
                marked_at "service.yaml" node q = false).
Proof.
  induction rest as [|n rest IH]; intros [|es] here owner p H; try discriminate.
  - cbn [owner_on_path] in H.
    destruct (mem "proto.yaml" (map fst es)) eqn:Hproto; [discriminate|].
    destruct (mem "Dockerfile" (map fst es)) eqn:Hdocker; [|discriminate].
    split; [exact Hdocker|]. split.
    { intros q Hq. apply prefix_nil_inv in Hq. subst q. exact Hproto. }
    destruct (mem "service.yaml" (map fst es)) eqn:Hsvc.
    + right. exists []. injection H as <-. rewrite app_nil_r.
      split; [reflexivity|]. split; [reflexivity|]. split; [exact Hsvc|].
      intros q Hq Hlen. apply prefix_nil_inv in Hq. subst q. simpl in Hlen. lia.
    + left. split; [exact H|].
      intros q Hq. apply prefix_nil_inv in Hq. subst q. exact Hsvc.
  - cbn [owner_on_path] in H.
    destruct (mem "proto.yaml" (map fst es)) eqn:Hproto; [discriminate|].
    destruct (mem n EXCLUDED); [discriminate|].
    destruct (assoc n es) as [child|] eqn:Hchild; [|discriminate].
    destruct (IH child (here ++ [n]) _ p H) as (Hd & Hp & Hs).
    split; [now rewrite (marked_at_cons _ es n child rest Hchild)|]. split.
    { intros q Hq. apply prefix_of_cons_inv in Hq.
      destruct Hq as [->|(q' & -> & Hq')]; [exact Hproto|].
      rewrite (marked_at_cons _ es n child q' Hchild). now apply Hp. }
    destruct Hs as [[Ho Hnone]|(pre & -> & Hpre & Hm & Hlater)].
    + destruct (mem "service.yaml" (map fst es)) eqn:Hsvc.
      * right. exists []. injection Ho as <-. rewrite app_nil_r.
        split; [reflexivity|]. split; [apply prefix_nil|]. split; [exact Hsvc|].
        intros q Hq Hlen. apply prefix_of_cons_inv in Hq.
        destruct Hq as [->|(q' & -> & Hq')]; [simpl in Hlen; lia|].
        rewrite (marked_at_cons _ es n child q' Hchild). now apply Hnone.
      * left. split; [exact Ho|].
        intros q Hq. apply prefix_of_cons_inv in Hq.
        destruct Hq as [->|(q' & -> & Hq')]; [exact Hsvc|].
        rewrite (marked_at_cons _ es n child q' Hchild). now apply Hnone.
    + right. exists (n :: pre). rewrite <- app_assoc.
      split; [reflexivity|]. split; [now apply prefix_cons|].
      split; [now rewrite (marked_at_cons _ es n child pre Hchild)|].
      intros q Hq Hlen. apply prefix_of_cons_inv in Hq.
      destruct Hq as [->|(q' & -> & Hq')]; [simpl in Hlen; lia|].
      rewrite (marked_at_cons _ es n child q' Hchild).
      apply Hlater; [exact Hq'|]. simpl in Hlen. lia.
Qed.

(** C9.  A directory that lists proto.yaml is recorded as a prototype and
    [descend] returns at once: nothing below it is visited.  For a
    workspace whose listings name every entry once, the containers of the
    services found by [scan] are the Dockerfile directories of an
    attribution in which no directory occurs twice, and every attributed
    directory lies at or under the root of its service, which is the
    nearest directory at or above it that lists service.yaml; no
    directory at or above it lists proto.yaml. *)
Theorem scan_attribution
    (exec : trace -> Command -> exn + string)
    (relpath : string -> string -> string) (name_of : string -> string)
    (b : Baker) (tree : fsnode) (t t' : trace)
    (protos : list Prototype) (services : list Service) :
  wf_tree tree ->
  scan exec relpath name_of b tree t = (t', inr (protos, services)) ->
  (forall es path parent st t0,
      mem "proto.yaml" (map fst es) = true ->
      descend exec relpath name_of (Dir es) path parent st t0
      = (t0, inr (fst st ++ [mkPrototype (path_join path "proto.yaml")], snd st)))
  /\ exists roots ctxs,
      map root services = map (pathstr b) roots
      /\ (forall i svc, services !! i = Some svc ->
            containers_of svc
            = map (fun d => relpath (path_join (pathstr b d) "Dockerfile") (root svc))
                  (dirs_of i ctxs))
      /\ NoDup (map snd ctxs)
      /\ forall i d, (i, d) ∈ ctxs ->
           exists p,
             roots !! i = Some p
             /\ p `prefix_of` d
             /\ marked_at "service.yaml" tree p = true
             /\ marked_at "Dockerfile" tree d = true
             /\ (forall q, q `prefix_of` d -> marked_at "proto.yaml" tree q = false)
             /\ (forall q, q `prefix_of` d -> length p < length q ->
                   marked_at "service.yaml" tree q = false).
Proof.
  intros Hwf Hrun. split.
  { intros es path parent st t0 Hproto.
    rewrite descend_Dir. cbv zeta. now rewrite Hproto. }
  unfold scan in Hrun.
  assert (Ha0 : agrees relpath b ([], []) (mkShape [] [] [])).
  { split; [reflexivity|]. split; [reflexivity|]. split.
    - intros i svc Hi. cbn [snd] in Hi. now rewrite lookup_nil in Hi.
    - intros i d Hin. now apply elem_of_nil in Hin. }
  pose proof (descend_agrees exec relpath name_of b tree [] None ([], [])
                (mkShape [] [] []) t t' (protos, services) Ha0
                ltac:(intros i Hi; discriminate) Hrun) as Ha.
  destruct (survey_attributes tree [] None None (mkShape [] [] []) Hwf eq_refl)
    as (dp & dr & dc & He & Hnd & Hattr).
  rewrite He in Ha. unfold extend_shape in Ha. cbn [s_protos s_roots s_ctxs app] in Ha.
  destruct Ha as (_ & Hr & Hc & _). cbn [fst snd s_roots s_ctxs] in Hr, Hc.
  exists dr, dc. split; [exact Hr|]. split; [exact Hc|]. split; [exact Hnd|].
  intros i d Hin. destruct (Hattr i d Hin) as (rest & p & -> & Ho & Hl).
  cbn [s_roots app] in Hl. cbn [app].
  destruct (owner_on_path_markers rest tree [] None p Ho) as (Hd & Hp & Hs).
  destruct Hs as [[Hnone _]|(pre & -> & Hpre & Hm & Hlater)]; [discriminate|].
  exists pre. cbn [app]. now repeat split.
Qed.

Lemma scan_attribution_witness :
  (forall es path parent st t0,
      mem "proto.yaml" (map fst es) = true ->
      descend Sample.git Sample.relpath Sample.name_of (Dir es) path parent st t0
      = (t0, inr (fst st ++ [mkPrototype (path_join path "proto.yaml")], snd st)))
  /\ exists roots ctxs,
      map root Sample.found = map (pathstr Sample.baker) roots
      /\ (forall i svc, Sample.found !! i = Some svc ->
            containers_of svc
            = map (fun d => Sample.relpath
                              (path_join (pathstr Sample.baker d) "Dockerfile") (root svc))
                  (dirs_of i ctxs))
      /\ NoDup (map snd ctxs)
      /\ forall i d, (i, d) ∈ ctxs ->
           exists p,
             roots !! i = Some p
             /\ p `prefix_of` d
             /\ marked_at "service.yaml" Sample.workspace p = true
             /\ marked_at "Dockerfile" Sample.workspace d = true
             /\ (forall q, q `prefix_of` d ->
                   marked_at "proto.yaml" Sample.workspace q = false)
             /\ (forall q, q `prefix_of` d -> length p < length q ->
                   marked_at "service.yaml" Sample.workspace q = false).
Proof.
  eapply (scan_attribution Sample.git Sample.relpath Sample.name_of Sample.baker
            Sample.workspace [] _ _ Sample.found).
  - cbn. repeat split;
      match goal with |- NoDup ?l => apply (bool_decide_unpack (NoDup l)) end;
      vm_compute; exact I.
  - vm_compute. reflexivity.
Defined.

Example scan_sample :
  snd (scan Sample.git Sample.relpath Sample.name_of Sample.baker Sample.workspace [])
  = inr ([mkPrototype "/work/templates/proto.yaml"], Sample.found).
Proof. vm_compute. reflexivity. Qed.

(** The replayed walk of the sample workspace: the Dockerfile under the
    prototype, the one in .git and the one at the top are not attributed. *)
Example survey_sample :
  survey Sample.workspace [] None (mkShape [] [] [])
  = mkShape [["templates"]]
            [["web"]; ["api"]; ["api"; "sub"]]
            [(0, ["web"]); (0, ["web"; "worker"]); (1, ["api"; "img"]);
             (2, ["api"; "sub"])].
Proof. vm_compute. reflexivity. Qed.

(** A whole [pull] on the sample hosting API: four listing requests, three
    verification fetches, and a clone for the two repositories that still
    exist; the one answered with 404 is left out. *)
Example pull_sample :
  let run := pull Sample.git Sample.github Sample.nothing_cloned Sample.last_first
                  Sample.parse_links Sample.repr Sample.glob Sample.puller 5 [] in
  snd run = inr tt
  /\ call_dirs (fst run)
     = ["/work/acme/web"; "/work/acme/web"; "/work/acme/db"; "/work/acme/db"].
Proof. vm_compute. split; reflexivity. Qed.

(** ** The operations after their scan *)

Lemma deploy_after_scan exec relpath name_of metadata b tree t t1 st :
  scan exec relpath name_of b tree t = (t1, inr st) ->
  deploy exec relpath name_of metadata b tree t
  = deploy_services exec metadata b (snd st) t1.
Proof. intros H. unfold deploy. now rewrite (bind_inr _ _ _ _ _ H). Qed.

Lemma push_after_scan exec fetch sched parse_challenge py_str relpath image
    name_of containers b tree t t1 st :
  scan exec relpath name_of b tree t = (t1, inr st) ->
  push exec fetch sched parse_challenge py_str relpath image name_of containers
       b tree t
  = push_services exec fetch sched parse_challenge py_str image containers b
                  (snd st) t1.
Proof. intros H. unfold push. now rewrite (bind_inr _ _ _ _ _ H). Qed.

(** * Further properties of the code *)

(** ** Fan-out: errors and single execution *)

Section EventletOutcomes.
Context {A R : Type}.
Variable fn : A -> M (mapped R).
Variable outcome : A -> exn + mapped R.
Variable items : list A.
Hypothesis fn_outcome : forall a t, snd (fn a t) = outcome a.

Local Abbreviation resolved := (resolved outcome items).

Lemma run_thread_resolved i finished t :
  resolved finished -> resolved (snd (run_thread fn items i finished t)).
Proof.
  intros Hs. unfold run_thread.
  destruct (finished !! i) eqn:Hi; [exact Hs|].
  destruct (items !! i) as [a|] eqn:Ha; [|exact Hs].
  pose proof (fn_outcome a t) as Hr.
  destruct (fn a t) as [t' r]. simpl in *. subst r.
  intros j r Hj. destruct (decide (i = j)) as [->|Hne].
  - rewrite lookup_insert_eq in Hj. inversion Hj; subst. eauto.
  - rewrite lookup_insert_ne in Hj by exact Hne. eauto.
Qed.

Lemma run_thread_resolves i a finished t :
  resolved finished -> items !! i = Some a ->
  snd (run_thread fn items i finished t) !! i = Some (outcome a).
Proof.
  intros Hs Ha. unfold run_thread.
  destruct (finished !! i) as [r|] eqn:Hi.
  - simpl. rewrite Hi. destruct (Hs _ _ Hi) as (a' & Ha' & ->). congruence.
  - rewrite Ha. pose proof (fn_outcome a t) as Hr.
    destruct (fn a t) as [t' r]. simpl in *. subst r.
    apply lookup_insert_eq.
Qed.

Lemma run_schedule_resolved order : forall finished t,
  resolved finished -> resolved (snd (run_schedule fn items order finished t)).
Proof.
  induction order as [|i rest IH]; intros finished t Hs; simpl; [exact Hs|].
  pose proof (run_thread_resolved i finished t Hs) as H1.
  destruct (run_thread fn items i finished t) as [t' finished'].
  apply IH, H1.
Qed.

Lemma wait_each_resolved n : forall k finished t,
  resolved finished -> k + n <= length items ->
  snd (wait_each fn items (seq k n) finished t)
  = gather (map outcome (take n (drop k items))).
Proof.
  induction n as [|n IH]; intros k finished t Hs Hlen; simpl.
  - reflexivity.
  - destruct (lookup_lt_is_Some_2 items k ltac:(lia)) as [a Ha].
    pose proof (run_thread_resolved k finished t Hs) as H1.
    pose proof (run_thread_resolves k a finished t Hs Ha) as H2.
    destruct (run_thread fn items k finished t) as [t' finished'].
    simpl in H1, H2. rewrite H2.
    rewrite (drop_S _ _ _ Ha). simpl.
    specialize (IH (S k) finished' t' H1 ltac:(lia)).
    destruct (outcome a) as [e|[|r]]; [reflexivity|exact IH|].
    unfold bind.
    destruct (wait_each fn items (seq (S k) n) finished' t') as [t'' res].
    simpl in IH. rewrite <- IH. now destruct res.
Qed.
End EventletOutcomes.

(** X1.  When every call of the mapped function has the outcome its item
    determines, [async_map] raises the exception of the first item, in
    input order, whose call raised, whatever order the threads completed
    in; when none raised it returns the kept values. *)
Theorem async_map_first_error {A R} (sched : trace -> list nat)
    (fn : A -> M (mapped R)) (outcome : A -> exn + mapped R)
    (items : list A) (t : trace) :
  (forall a t0, snd (fn a t0) = outcome a) ->
  snd (async_map sched fn items t) = gather (map outcome items).
Proof.
  intros Hf. unfold async_map.
  assert (H0 : resolved outcome items (∅ : gmap nat (exn + mapped R))).
  { intros i r H. now rewrite lookup_empty in H. }
  pose proof (run_schedule_resolved fn outcome items Hf (sched t) ∅ t H0) as Hs.
  destruct (run_schedule fn items (sched t) ∅ t) as [t' finished].
  rewrite (wait_each_resolved fn outcome items Hf (length items) 0 finished t' Hs
             ltac:(lia)).
  now rewrite drop_0, firstn_all.
Qed.

Lemma async_map_first_error_witness :
  snd (async_map Tasks.backwards Tasks.fussy ["a"; "-b"; "c"; "-d"] [])
  = gather (map Tasks.fussy_outcome ["a"; "-b"; "c"; "-d"]).
Proof.
  apply (async_map_first_error Tasks.backwards Tasks.fussy Tasks.fussy_outcome
           ["a"; "-b"; "c"; "-d"] []).
  intros a t0. reflexivity.
Defined.

Example async_map_first_error_sample :
  async_map Tasks.backwards Tasks.fussy ["a"; "-b"; "c"; "-d"] []
  = ([EvMakedirs "-d"; EvMakedirs "c"; EvMakedirs "-b"; EvMakedirs "a"],
     inl (CLIError "-b")).
Proof. vm_compute. reflexivity. Qed.

(** X2.  When every call of the mapped function returns and leaves one
    entry in an observation of the trace, [async_map] returns, and the
    entries it leaves are those of the items, each once, for any
    schedule: a thread the scheduler names twice, or not at all, or an
    index that is no thread, changes nothing. *)
Theorem async_map_each_item_once {A R X} (sched : trace -> list nat)
    (fn : A -> M (mapped R)) (items : list A)
    (obs : trace -> list X) (g : A -> X) (t : trace) :
  (forall a t0, exists m, snd (fn a t0) = inr m) ->
  (forall a t0, obs (fst (fn a t0)) = obs t0 ++ [g a]) ->
  exists t' rs,
    async_map sched fn items t = (t', inr rs)
    /\ obs t' ≡ₚ obs t ++ map g items.
Proof. intros Hret Hadd. now apply async_map_adds. Qed.

Lemma async_map_each_item_once_witness :
  exists t' rs,
    async_map Tasks.backwards Tasks.visit ["a"; "b"; "c"; "d"] [] = (t', inr rs)
    /\ (fun t => t) t' ≡ₚ (fun t => t) [] ++ map EvMakedirs ["a"; "b"; "c"; "d"].
Proof.
  apply (async_map_each_item_once Tasks.backwards Tasks.visit ["a"; "b"; "c"; "d"]
           (fun t => t) EvMakedirs []).
  - intros a t0. now eexists.
  - intros a t0. reflexivity.
Defined.

(** ** Pagination: what [gh] sends *)

Lemma extend_trace result response t : fst (extend result response t) = t.
Proof.
  unfold extend. destruct result; try reflexivity.
  unfold bind, response_json, lift, ret, raise.
  destruct (body response) as [v|]; [|reflexivity].
  cbn [fst snd]. now destruct (iterate v).
Qed.

Lemma gh_pages_trace parse_header_links fetch b fuel : forall next_url result t,
  exists urls,
    fst (gh_pages parse_header_links fetch fuel (auth_headers b) next_url result t)
    = t ++ map (fun u => EvGet (page_request b u)) urls
    /\ Forall (fun u => str_truthy u = true) urls
    /\ length urls <= fuel.
Proof.
  induction fuel as [|fuel IH]; intros next_url result t.
  - exists []. cbn [gh_pages]. destruct (opt_truthy next_url); cbn;
      rewrite app_nil_r; repeat split; constructor.
  - cbn [gh_pages]. destruct (opt_truthy next_url) eqn:Hn.
    2:{ exists []. cbn. rewrite app_nil_r. repeat split; [constructor|lia]. }
    destruct next_url as [u|]; [|discriminate]. cbn [opt_truthy fmt] in *.
    unfold bind at 1. unfold get. fold (page_request b u).
    destruct (fetch t (page_request b u)) as [e|response].
    { exists [u]. cbn. repeat split; [now constructor|lia]. }
    unfold bind at 1.
    pose proof (extend_trace result response (t ++ [EvGet (page_request b u)])) as He.
    destruct (extend result response (t ++ [EvGet (page_request b u)])) as [t1 [e|result']].
    { cbn [fst] in *. subst t1. exists [u]. cbn. repeat split; [now constructor|lia]. }
    cbn [fst] in He. subst t1. unfold bind at 1. unfold lift.
    destruct (next_page parse_header_links response) as [e|next'].
    { exists [u]. cbn. repeat split; [now constructor|lia]. }
    destruct (IH next' result' (t ++ [EvGet (page_request b u)])) as (urls & Ht & Hu & Hl).
    exists (u :: urls). rewrite Ht, <- app_assoc. cbn.
    repeat split; [now constructor|lia].
Qed.

(** X3.  Whatever the server answers, [gh] sends the first request to the
    API URL with the caller's expected statuses, and after it only
    requests to non-empty next URLs, at most as many as the loop has
    turns; every request carries the Authorization header of the
    configured token (none without a token) and no other credentials,
    and [gh] does nothing else. *)
Theorem gh_requests_carry_token
    (parse_header_links : string -> list (list (string * string)))
    (fetch : trace -> Request -> exn + Response)
    (fuel : nat) (b : Baker) (api : string) (expected : option (list Z))
    (t : trace) :
  exists urls,
    fst (gh parse_header_links fetch fuel b api expected t)
    = t ++ EvGet (mkRequest ("https://api.github.com/" +:+ api)
                            (if opt_truthy (token b)
                             then Some [("Authorization", "token " +:+ fmt (token b))]
                             else None)
                            None expected)
          :: map (fun u => EvGet (mkRequest u
                            (if opt_truthy (token b)
                             then Some [("Authorization", "token " +:+ fmt (token b))]
                             else None)
                            None None)) urls
    /\ Forall (fun u => str_truthy u = true) urls
    /\ length urls <= fuel.
Proof.
  unfold gh. unfold bind at 1. unfold get.
  fold (auth_headers b). fold (api_request b api expected).
  destruct (fetch t (api_request b api expected)) as [e|response].
  { exists []. cbn. repeat split; [constructor|lia]. }
  unfold bind at 1. unfold response_json.
  destruct (body response) as [v|]; cbn [raise ret].
  2:{ exists []. cbn. repeat split; [constructor|lia]. }
  destruct (ok response).
  2:{ exists []. cbn. repeat split; [constructor|lia]. }
  unfold bind at 1. unfold lift.
  destruct (next_page parse_header_links response) as [e|next_url].
  { exists []. cbn. repeat split; [constructor|lia]. }
  destruct (gh_pages_trace parse_header_links fetch b fuel next_url v
              (t ++ [EvGet (api_request b api expected)])) as (urls & Ht & Hu & Hl).
  exists urls. rewrite Ht, <- app_assoc. now repeat split.
Qed.



(** ** Registry state: the handshake, and what [pushed] sends *)

Lemma gets_only_ret {A} (a : A) : gets_only 0 (ret a).
Proof. intros t. exists []. cbn. now rewrite app_nil_r. Qed.

Lemma gets_only_raise {A} e : gets_only 0 (@raise A e).
Proof. intros t. exists []. cbn. now rewrite app_nil_r. Qed.

Lemma gets_only_lift {A} (r : exn + A) : gets_only 0 (lift r).
Proof. intros t. exists []. cbn. now rewrite app_nil_r. Qed.

Lemma gets_only_get fetch r : gets_only 1 (get fetch r).
Proof. intros t. exists [r]. cbn. split; [reflexivity|lia]. Qed.

Lemma gets_only_json r : gets_only 0 (response_json r).
Proof. unfold response_json. destruct (body r); [apply gets_only_ret|apply gets_only_raise]. Qed.

Lemma gets_only_weaken {A} n k (m : M A) : n <= k -> gets_only n m -> gets_only k m.
Proof. intros Hle H t. destruct (H t) as (reqs & Ht & Hl). exists reqs. split; [exact Ht|lia]. Qed.

Lemma gets_only_bind {A B} n k (m : M A) (f : A -> M B) :
  gets_only n m -> (forall a, gets_only k (f a)) -> gets_only (n + k) (bind m f).
Proof.
  intros Hm Hf t. unfold bind. destruct (Hm t) as (reqs & Ht & Hl).
  destruct (m t) as [t1 [e|a]]; cbn [fst] in *; subst t1.
  - exists reqs. split; [reflexivity|lia].
  - destruct (Hf a (t ++ map EvGet reqs)) as (reqs' & Ht' & Hl').
    exists (reqs ++ reqs'). rewrite Ht', map_app, app_assoc, length_app.
    split; [reflexivity|lia].
Qed.

Lemma commands_gets t reqs : commands (t ++ map EvGet reqs) = commands t.
Proof.
  unfold commands. rewrite omap_app.
  assert (H : omap (fun e => match e with EvCall c => Some c | _ => None end)
                   (map EvGet reqs) = []) by (induction reqs; [reflexivity|exact IHreqs]).
  rewrite H. apply app_nil_r.
Qed.

Section HandshakeFacts.
Variable exec : trace -> Command -> exn + string.
Variable fetch : trace -> Request -> exn + Response.
Variable parse_challenge : string -> exn + list (string * string).
Variable py_str : json -> string.
Variable image : option string -> option string -> string -> string -> string.
Variable b : Baker.

(** After its first request, [pushed] issues at most two more requests
    and nothing else. *)
Lemma pushed_gets nm ver t :
  exists reqs,
    fst (pushed fetch parse_challenge py_str b nm ver t)
    = t ++ EvGet (manifest_request b nm ver) :: map EvGet reqs
    /\ length reqs <= 2.
Proof.
  unfold pushed. unfold bind at 1. unfold get.
  destruct (fetch t (manifest_request b nm ver)) as [e|response].
  { exists []. split; [reflexivity|cbn; lia]. }
  match goal with |- context [bind ?m ?f (t ++ ?l)] =>
    assert (H : gets_only (2 + (0 + 0)) (bind m f)) end.
  { apply gets_only_bind.
    - destruct (status_code response =? 401)%Z;
        [|apply (gets_only_weaken 0); [lia|apply gets_only_ret]].
      apply (gets_only_bind 0 2); [apply gets_only_lift|]. intros challenge.
      apply (gets_only_bind 0 2); [apply gets_only_lift|]. intros opts.
      apply (gets_only_bind 0 2); [apply gets_only_lift|]. intros realm.
      apply (gets_only_bind 0 2); [apply gets_only_lift|]. intros service.
      apply (gets_only_bind 0 2); [apply gets_only_lift|]. intros scope.
      apply (gets_only_bind 1 1); [apply gets_only_get|]. intros tr.
      apply (gets_only_bind 0 1); [apply gets_only_json|]. intros tj.
      apply (gets_only_bind 0 1); [apply gets_only_lift|]. intros tok.
      apply gets_only_get.
    - intros r'. apply gets_only_bind; [apply gets_only_json|].
      intros result. apply gets_only_lift. }
  destruct (H (t ++ [EvGet (manifest_request b nm ver)])) as (reqs & Ht & Hl).
  exists reqs. rewrite Ht, <- app_assoc. split; [reflexivity|cbn in Hl; lia].
Qed.
End HandshakeFacts.

(** X5.  The handshake of [pushed]: on a 401 whose challenge parses to a
    realm, a service and a scope, [pushed] requests a token from the realm
    with the operator's credentials, repeats the manifest request with the
    token as bearer and without the credentials, and classifies the body
    of this last answer; it issues exactly these three requests. *)
Theorem pushed_handshake
    (fetch : trace -> Request -> exn + Response)
    (parse_challenge : string -> exn + list (string * string))
    (py_str : json -> string) (b : Baker) (nm ver : string) (t : trace)
    (r0 rt r2 : Response) (challenge realm service scope : string)
    (opts : list (string * string)) (tj tok : json) :
  let q0 := manifest_request b nm ver in
  let qt := token_request b realm service scope in
  let q2 := bearer_request b nm ver (to_str py_str tok) in
  fetch t q0 = inr r0 ->
  status_code r0 = 401%Z ->
  header "Www-Authenticate" (headers r0) = Some challenge ->
  parse_challenge (strip_bearer challenge) = inr opts ->
  assoc "realm" opts = Some realm ->
  assoc "service" opts = Some service ->
  assoc "scope" opts = Some scope ->
  fetch (t ++ [EvGet q0]) qt = inr rt ->
  body rt = Some tj ->
  getitem tj "token" = inr tok ->
  fetch (t ++ [EvGet q0; EvGet qt]) q2 = inr r2 ->
  pushed fetch parse_challenge py_str b nm ver t
  = (t ++ [EvGet q0; EvGet qt; EvGet q2],
     match body r2 with
     | Some v => manifest_state v (content r2)
     | None => inl ValueError
     end).
Proof.
  intros q0 qt q2 H0 Hs Hc Hp Hrealm Hservice Hscope Ht Htj Htok H2.
  unfold pushed. unfold bind at 1. unfold get. fold q0. rewrite H0.
  unfold bind at 1. rewrite Hs. cbn [Z.eqb Pos.eqb].
  unfold bind at 1. unfold lift at 1. rewrite Hc.
  fold (strip_bearer challenge).
  unfold bind at 1. unfold lift at 1. rewrite Hp.
  unfold bind at 1. unfold lift at 1. unfold opt_key at 1. rewrite Hrealm.
  unfold bind at 1. unfold lift at 1. unfold opt_key at 1. rewrite Hservice.
  unfold bind at 1. unfold lift at 1. unfold opt_key at 1. rewrite Hscope.
  unfold bind at 1. fold (token_request b realm service scope). fold qt. rewrite Ht.
  unfold bind at 1. unfold response_json at 1. rewrite Htj. unfold ret at 1.
  unfold bind at 1. unfold lift at 1. rewrite Htok.
  fold (bearer_request b nm ver (to_str py_str tok)). fold q2.
  rewrite <- app_assoc. cbn [app]. rewrite H2.
  unfold bind, response_json, lift, ret, raise.
  rewrite <- app_assoc. cbn [app].
  now destruct (body r2).
Qed.

Lemma pushed_handshake_witness :
  pushed Registry.guarded Registry.parse_challenge Sample.repr Sample.baker
         "web" "1.0" []
  = ([] ++ [EvGet (manifest_request Sample.baker "web" "1.0");
            EvGet (token_request Sample.baker "https://auth.io/token" "registry.io" "pull");
            EvGet (bearer_request Sample.baker "web" "1.0"
                     (to_str Sample.repr (JStr "tk")))],
     match body (mkResponse 200 true [] (Some Registry.manifest) "") with
     | Some v => manifest_state v (content (mkResponse 200 true [] (Some Registry.manifest) ""))
     | None => inl ValueError
     end).
Proof.
  apply (pushed_handshake Registry.guarded Registry.parse_challenge Sample.repr
           Sample.baker "web" "1.0" [] Registry.challenge
           (mkResponse 200 true [] (Some (JObj [("token", JStr "tk")])) "")
           (mkResponse 200 true [] (Some Registry.manifest) "")
           "Bearer realm=auth.io/token,service=registry.io,scope=pull"
           "https://auth.io/token" "registry.io" "pull"
           [("realm", "https://auth.io/token"); ("service", "registry.io");
            ("scope", "pull")]
           (JObj [("token", JStr "tk")]) (JStr "tk"));
    reflexivity.
Defined.

Example pushed_handshake_sample :
  snd (pushed Registry.guarded Registry.parse_challenge Sample.repr Sample.baker
              "web" "1.0" []) = inr true.
Proof. vm_compute. reflexivity. Qed.

(** X6.  Whatever the registry answers, [pushed] begins with the manifest
    request carrying the operator's credentials, issues at most two more
    requests, and runs no subprocess. *)
Theorem pushed_at_most_three_requests
    (fetch : trace -> Request -> exn + Response)
    (parse_challenge : string -> exn + list (string * string))
    (py_str : json -> string) (b : Baker) (nm ver : string) (t : trace) :
  exists reqs,
    fst (pushed fetch parse_challenge py_str b nm ver t)
    = t ++ EvGet (mkRequest (manifest_url b nm ver) None
                            (Some (user b, password b)) (Some [404; 401]%Z))
          :: map EvGet reqs
    /\ length reqs <= 2
    /\ commands (fst (pushed fetch parse_challenge py_str b nm ver t)) = commands t.
Proof.
  destruct (pushed_gets fetch parse_challenge py_str b nm ver t) as (reqs & Ht & Hl).
  exists reqs. split; [exact Ht|]. split; [exact Hl|].
  rewrite Ht. change (EvGet (manifest_request b nm ver) :: map EvGet reqs)
    with (map EvGet (manifest_request b nm ver :: reqs)).
  apply commands_gets.
Qed.

(** X7.  [pushed] decides from the body alone once the answer is not a
    401: two answers with the same body and the same text give the same
    result, whatever their status codes. *)
Theorem pushed_ignores_status
    (fetch fetch' : trace -> Request -> exn + Response)
    (parse_challenge : string -> exn + list (string * string))
    (py_str : json -> string) (b : Baker) (nm ver : string) (t : trace)
    (r r' : Response) :
  fetch t (manifest_request b nm ver) = inr r ->
  fetch' t (manifest_request b nm ver) = inr r' ->
  status_code r <> 401%Z ->
  status_code r' <> 401%Z ->
  body r = body r' ->
  content r = content r' ->
  pushed fetch parse_challenge py_str b nm ver t
  = pushed fetch' parse_challenge py_str b nm ver t.
Proof.
  intros Hr Hr' Hs Hs' Hb Hc.
  rewrite (pushed_without_challenge fetch parse_challenge py_str b nm ver t r Hr Hs).
  rewrite (pushed_without_challenge fetch' parse_challenge py_str b nm ver t r' Hr' Hs').
  unfold bind, response_json. now rewrite Hb, Hc.
Qed.

Lemma pushed_ignores_status_witness :
  pushed (Registry.answers 200) Sample.no_challenge Sample.repr Sample.baker "web" "1.0" []
  = pushed (Registry.answers 404) Sample.no_challenge Sample.repr Sample.baker "web" "1.0" [].
Proof.
  apply (pushed_ignores_status (Registry.answers 200) (Registry.answers 404)
           Sample.no_challenge Sample.repr Sample.baker "web" "1.0" []
           (mkResponse 200 true [] (Some (Sample.error_body "MANIFEST_UNKNOWN")) "gone")
           (mkResponse 404 true [] (Some (Sample.error_body "MANIFEST_UNKNOWN")) "gone"));
    first [reflexivity | discriminate].
Defined.

(** X8.  For an image the registry does not hold, [is_raw] answers True
    without querying the local image store: it runs no subprocess. *)
Theorem is_raw_unpublished_skips_store
    (exec : trace -> Command -> exn + string)
    (fetch : trace -> Request -> exn + Response)
    (parse_challenge : string -> exn + list (string * string))
    (py_str : json -> string)
    (image : option string -> option string -> string -> string -> string)
    (b : Baker) (nm ver : string) (t t1 : trace) :
  pushed fetch parse_challenge py_str b nm ver t = (t1, inr false) ->
  is_raw exec fetch parse_challenge py_str image b nm ver t = (t1, inr (PBool true))
  /\ commands t1 = commands t.
Proof.
  intros Hp. split.
  - unfold is_raw. now rewrite (bind_inr _ _ _ _ _ Hp).
  - destruct (pushed_gets fetch parse_challenge py_str b nm ver t) as (reqs & Ht & _).
    rewrite Hp in Ht. cbn [fst] in Ht. subst t1.
    change (EvGet (manifest_request b nm ver) :: map EvGet reqs)
      with (map EvGet (manifest_request b nm ver :: reqs)).
    apply commands_gets.
Qed.

Lemma is_raw_unpublished_skips_store_witness :
  is_raw Sample.docker_images (Sample.registry_404 "MANIFEST_UNKNOWN")
         Sample.no_challenge Sample.repr Sample.image Sample.baker "web" "1.0" []
  = ([EvGet (manifest_request Sample.baker "web" "1.0")], inr (PBool true))
  /\ commands [EvGet (manifest_request Sample.baker "web" "1.0")] = commands [].
Proof.
  apply (is_raw_unpublished_skips_store Sample.docker_images
           (Sample.registry_404 "MANIFEST_UNKNOWN") Sample.no_challenge Sample.repr
           Sample.image Sample.baker "web" "1.0" []).
  reflexivity.
Defined.

(** X9.  For an image that is not built locally, the selection of [push]
    answers [OMIT] after the one local query: the registry is not asked. *)
Theorem candidate_unbuilt_skips_registry
    (exec : trace -> Command -> exn + string)
    (fetch : trace -> Request -> exn + Response)
    (parse_challenge : string -> exn + list (string * string))
    (py_str : json -> string)
    (image : option string -> option string -> string -> string -> string)
    (b : Baker) (svc : Service) (nm container : string) (t : trace) (out : string) :
  exec t (mkCommand [AStr "docker"; AStr "images"; AStr "-q";
                     AStr (image (registry b) (repo b) nm (version svc))] None false)
  = inr out ->
  str_truthy out = false ->
  candidate exec fetch parse_challenge py_str image b (svc, nm, container) t
  = (t ++ [EvCall (mkCommand [AStr "docker"; AStr "images"; AStr "-q";
                              AStr (image (registry b) (repo b) nm (version svc))]
                             None false)],
     inr OMIT)
  /\ requests (fst (candidate exec fetch parse_challenge py_str image b
                              (svc, nm, container) t)) = requests t.
Proof.
  intros Hout Hfalsy.
  assert (H : candidate exec fetch parse_challenge py_str image b (svc, nm, container) t
              = (t ++ [EvCall (mkCommand [AStr "docker"; AStr "images"; AStr "-q";
                              AStr (image (registry b) (repo b) nm (version svc))]
                             None false)], inr OMIT)).
  { unfold candidate, bind, baked, call. rewrite Hout. now rewrite Hfalsy. }
  split; [exact H|]. rewrite H. cbn [fst]. unfold requests.
  rewrite omap_app. apply app_nil_r.
Qed.

Lemma candidate_unbuilt_skips_registry_witness :
  candidate Registry.empty_store (Sample.registry_404 "MANIFEST_UNKNOWN")
            Sample.no_challenge Sample.repr Sample.image Sample.baker
            (Sample.web, "web", "Dockerfile") []
  = ([] ++ [EvCall (mkCommand [AStr "docker"; AStr "images"; AStr "-q";
                               AStr (Sample.image (registry Sample.baker) (repo Sample.baker)
                                                  "web" (version Sample.web))]
                              None false)],
     inr OMIT)
  /\ requests (fst (candidate Registry.empty_store (Sample.registry_404 "MANIFEST_UNKNOWN")
                              Sample.no_challenge Sample.repr Sample.image Sample.baker
                              (Sample.web, "web", "Dockerfile") [])) = requests [].
Proof.
  apply (candidate_unbuilt_skips_registry Registry.empty_store
           (Sample.registry_404 "MANIFEST_UNKNOWN") Sample.no_challenge Sample.repr
           Sample.image Sample.baker Sample.web "web" "Dockerfile" [] "").
  - reflexivity.
  - reflexivity.
Defined.

(** ** Push with nothing to push *)

Lemma omap_gets {X} (f : event -> option X) t reqs :
  (forall r, f (EvGet r) = None) ->
  omap f (t ++ map EvGet reqs) = omap f t.
Proof.
  intros Hf. rewrite omap_app.
  assert (H : omap f (map EvGet reqs) = []).
  { induction reqs as [|r reqs IH]; [reflexivity|].
    change (match f (EvGet r) with
            | Some y => y :: omap f (map EvGet reqs)
            | None => omap f (map EvGet reqs)
            end = []).
    now rewrite Hf. }
  rewrite H. apply app_nil_r.
Qed.

Lemma async_map_nil {A R} sched (fn : A -> M (mapped R)) t :
  async_map sched fn [] t = (t, inr []).
Proof.
  unfold async_map. cbn [length seq wait_each].
  assert (H : forall order finished t0,
             run_schedule fn [] order finished t0 = (t0, finished)).
  { induction order as [|i rest IH]; intros finished t0; [reflexivity|].
    cbn [run_schedule]. unfold run_thread. rewrite lookup_nil.
    destruct (finished !! i); apply IH. }
  now rewrite H.
Qed.

Lemma kept_all_omit {A R} (items : list A) :
  kept (map (fun _ : A => @OMIT R) items) = [].
Proof. induction items; [reflexivity|exact IHitems]. Qed.

Lemma candidate_no_action exec fetch parse_challenge py_str image b item t :
  docker_actions (fst (candidate exec fetch parse_challenge py_str image b item t))
  = docker_actions t.
Proof.
  destruct item as [[svc nm] container]. unfold candidate. unfold bind at 1.
  unfold baked, call.
  assert (Hq : forall t0 c, argv c = [AStr "docker"; AStr "images"; AStr "-q";
                 AStr (image (registry b) (repo b) nm (version svc))] ->
               docker_actions (t0 ++ [EvCall c]) = docker_actions t0).
  { intros t0 c Hc. unfold docker_actions. rewrite omap_app. cbn. rewrite Hc. cbn.
    apply app_nil_r. }
  destruct (exec t _) as [e|out]; cbn [fst]; [now apply Hq|].
  destruct (str_truthy out); [|cbn [fst ret]; now apply Hq].
  unfold bind.
  destruct (pushed_gets fetch parse_challenge py_str b nm (version svc)
              (t ++ [EvCall (mkCommand [AStr "docker"; AStr "images"; AStr "-q";
                 AStr (image (registry b) (repo b) nm (version svc))] None false)]))
    as (reqs & Ht & _).
  destruct (pushed fetch parse_challenge py_str b nm (version svc) _) as [t2 [e|p]];
    cbn [fst] in *; subst t2.
  - change (EvGet (manifest_request b nm (version svc)) :: map EvGet reqs)
      with (map EvGet (manifest_request b nm (version svc) :: reqs)).
    unfold docker_actions. rewrite omap_gets by reflexivity. now apply Hq.
  - assert (Hd : forall m : M (mapped (Service * string * string)),
               (forall t0, fst (m t0) = t0) ->
               docker_actions (fst (m ((t ++ [EvCall (mkCommand [AStr "docker";
                 AStr "images"; AStr "-q";
                 AStr (image (registry b) (repo b) nm (version svc))] None false)])
                 ++ EvGet (manifest_request b nm (version svc)) :: map EvGet reqs)))
               = docker_actions t).
    { intros m Hm. rewrite Hm.
      change (EvGet (manifest_request b nm (version svc)) :: map EvGet reqs)
        with (map EvGet (manifest_request b nm (version svc) :: reqs)).
      unfold docker_actions. rewrite omap_gets by reflexivity. now apply Hq. }
    destruct (negb p); apply Hd; reflexivity.
Qed.

(** X10.  When the selection keeps no item, [push] returns after the
    queries alone: it issues neither a docker login nor a docker push. *)
Theorem push_nothing_selected
    (exec : trace -> Command -> exn + string)
    (fetch : trace -> Request -> exn + Response)
    (sched : trace -> list nat)
    (parse_challenge : string -> exn + list (string * string))
    (py_str : json -> string)
    (image : option string -> option string -> string -> string -> string)
    (containers : list Service -> list (Service * string * string))
    (b : Baker) (services : list Service) (t : trace) :
  (forall item t0,
      snd (candidate exec fetch parse_challenge py_str image b item t0) = inr OMIT) ->
  exists t',
    push_services exec fetch sched parse_challenge py_str image containers b
                  services t = (t', inr tt)
    /\ docker_actions t' = docker_actions t.
Proof.
  intros Hsel. unfold push_services, async_apply.
  pose proof (async_map_settled _ (fun _ => OMIT) (containers services) Hsel sched t)
    as Hres.
  pose proof (async_map_silent _ (containers services) docker_actions
                (candidate_no_action exec fetch parse_challenge py_str image b)
                sched t) as Hobs.
  rewrite kept_all_omit in Hres.
  unfold bind at 1.
  destruct (async_map sched _ (containers services) t) as [t1 r].
  cbn [fst snd] in Hres, Hobs. subst r.
  unfold bind at 1. cbn [ret]. unfold force, bind.
  rewrite async_map_nil. now exists t1.
Qed.

Lemma push_nothing_selected_witness :
  exists t',
    push_services Registry.empty_store (Sample.registry_404 "MANIFEST_UNKNOWN")
                  Sample.last_first Sample.no_challenge Sample.repr Sample.image
                  Sample.containers Sample.baker [Sample.web; Sample.api] []
    = (t', inr tt)
    /\ docker_actions t' = docker_actions [].
Proof.
  apply (push_nothing_selected Registry.empty_store
           (Sample.registry_404 "MANIFEST_UNKNOWN") Sample.last_first
           Sample.no_challenge Sample.repr Sample.image Sample.containers
           Sample.baker [Sample.web; Sample.api] []).
  intros [[svc nm] container] t0. reflexivity.
Defined.

(** ** Deploy: dry runs, accounting of claims, failures *)


Section SilentScan.
Context {X : Type}.
Variable f : event -> option X.
Variable exec : trace -> Command -> exn + string.
Variable relpath : string -> string -> string.
Variable name_of : string -> string.
Hypothesis git_unseen : forall dir,
  f (EvCall (mkCommand [AStr "git"; AStr "rev-parse"; AStr "HEAD"] (Some dir) false))
  = None.


End SilentScan.

Section DryRunFacts.
Variable exec : trace -> Command -> exn + string.
Variable metadata : Service -> option string -> option string -> string * string.
Variable b : Baker.






End DryRunFacts.



(** Without the flag the same run does apply: the observation is not
    blind. *)
Example deploy_wet_sample :
  length (wet_applies
            (fst (deploy (Sample.kubectl [("/work/web/kube.yaml", "service/a");
                                          ("/work/api/kube.yaml", "service/b");
                                          ("/work/api/sub/kube.yaml", "service/c")])
                         Sample.relpath Sample.name_of
                         Sample.metadata Sample.baker Sample.workspace [])))
  = 3.
Proof. vm_compute. reflexivity. Qed.

Lemma claim_count rest : forall (owners0 : gmap string Service) (cs0 : list conflict),
  size (fst (fold_left (fun acc c => claim (fst c) (snd c) acc) rest (owners0, cs0)))
  + length (snd (fold_left (fun acc c => claim (fst c) (snd c) acc) rest (owners0, cs0)))
  = size owners0 + length cs0 + length rest.
Proof.
  induction rest as [|[svc r] rest IH]; intros owners0 cs0; [simpl; lia|].
  cbn [fold_left fst snd]. unfold claim at 2 4.
  destruct (owners0 !! r) as [first|] eqn:Hr.
  - rewrite IH, length_app. simpl. lia.
  - rewrite IH, (map_size_insert_None _ _ _ Hr). simpl. lia.
Qed.

Lemma claims_length services listings :
  Forall2 (fun (_ : Service) (_ : list string) => True) services listings ->
  length (claims services listings) = length (concat listings).
Proof.
  induction 1 as [|svc names services listings _ _ IH]; [reflexivity|].
  cbn [claims concat]. now rewrite !length_app, length_map, IH.
Qed.

(** X12.  When the dry-run phase has gone through all services, every
    resource name listed is accounted for once: the number of recorded
    owners plus the number of recorded conflicts is the number of names
    the dry-run listings gave. *)
Theorem deploy_claims_accounted
    (exec : trace -> Command -> exn + string)
    (metadata : Service -> option string -> option string -> string * string)
    (b : Baker) (services : list Service) (t t1 : trace) (st : deploy_state) :
  render_services exec metadata b services (mkDeployState ∅ [] []) t = (t1, inr st) ->
  exists listings,
    Forall2 (listed exec) services listings
    /\ size (owners st) + length (conflicts st) = length (concat listings).
Proof.
  intros Hrun.
  destruct (render_services_run exec metadata b services (mkDeployState ∅ [] []) t)
    as [_ Hs].
  rewrite Hrun in Hs. cbn [fst snd] in Hs.
  destruct (Hs st eq_refl) as (listings & Hl & Hc & _). cbn [owners conflicts] in Hc.
  exists listings. split; [exact Hl|].
  pose proof (claim_count (claims services listings) ∅ []) as Hn.
  rewrite <- Hc in Hn. cbn [fst snd] in Hn.
  rewrite Hn, map_size_empty. cbn [length]. rewrite Nat.add_0_l.
  apply claims_length. eapply Forall2_impl; [exact Hl|]. intros; exact I.
Qed.

Lemma deploy_claims_accounted_witness :
  exists listings,
    Forall2 (listed (Sample.kubectl [("/work/web/kube.yaml", "service/a deployment/b");
                                     ("/work/api/kube.yaml", "deployment/b service/c")]))
            [Sample.web; Sample.api] listings
    /\ size (owners (mkDeployState
                      (<["service/c" := Sample.api]>
                         (<["deployment/b" := Sample.web]>
                            (<["service/a" := Sample.web]> ∅)))
                      [("deployment/b", "web", "api")]
                      ["/work/web/kube.yaml"; "/work/api/kube.yaml"]))
       + length (conflicts (mkDeployState
                      (<["service/c" := Sample.api]>
                         (<["deployment/b" := Sample.web]>
                            (<["service/a" := Sample.web]> ∅)))
                      [("deployment/b", "web", "api")]
                      ["/work/web/kube.yaml"; "/work/api/kube.yaml"]))
       = length (concat listings).
Proof.
  eapply (deploy_claims_accounted
            (Sample.kubectl [("/work/web/kube.yaml", "service/a deployment/b");
                             ("/work/api/kube.yaml", "deployment/b service/c")])
            Sample.metadata Sample.baker [Sample.web; Sample.api] []).
  vm_compute. reflexivity.
Defined.

(** X13.  When a command of the dry-run phase fails, [deploy] raises that
    error at that point: the services after the failing one are not
    rendered and no manifest is applied. *)
Theorem deploy_failure_applies_nothing
    (exec : trace -> Command -> exn + string)
    (metadata : Service -> option string -> option string -> string * string)
    (b : Baker) (services : list Service) (t t1 : trace) (e : exn) :
  render_services exec metadata b services (mkDeployState ∅ [] []) t = (t1, inl e) ->
  deploy_services exec metadata b services t = (t1, inl e)
  /\ applies t1 = applies t.
Proof. intros Hrun. now apply deploy_phase_error. Qed.

Lemma deploy_failure_applies_nothing_witness :
  deploy_services Cluster.broken Sample.metadata Sample.baker
                  [Sample.web; Sample.api] []
  = ([EvWrite "/work/web/metadata.yaml" "name: web";
      EvCall (mkCommand [AStr "./deployment"; AStr "metadata.yaml"]
                        (Some "/work/web") false);
      EvWrite "/work/web/kube.yaml" "kind: List";
      EvCall (dry_run_command "/work/web/kube.yaml")],
     inl (ExternalError "no such manifest"))
  /\ applies [EvWrite "/work/web/metadata.yaml" "name: web";
              EvCall (mkCommand [AStr "./deployment"; AStr "metadata.yaml"]
                                (Some "/work/web") false);
              EvWrite "/work/web/kube.yaml" "kind: List";
              EvCall (dry_run_command "/work/web/kube.yaml")]
     = applies [].
Proof.
  apply (deploy_failure_applies_nothing Cluster.broken Sample.metadata Sample.baker
           [Sample.web; Sample.api] []).
  vm_compute. reflexivity.
Defined.

(** ** Scan: nothing is missed *)

Lemma assoc_elem_of {V} n (c : V) es : assoc n es = Some c -> (n, c) ∈ es.
Proof.
  induction es as [|[k v] es IH]; [discriminate|]. simpl.
  destruct (String.eqb_spec k n) as [->|_].
  - intros H. inversion H; subst. apply list_elem_of_here.
  - intros H. apply list_elem_of_further, IH, H.
Qed.

Lemma extends_ctxs sh sh' x : extends sh sh' -> x ∈ s_ctxs sh -> x ∈ s_ctxs sh'.
Proof. intros (dp & dr & dc & ->) H. cbn. apply elem_of_app. now left. Qed.

Lemma extends_lookup sh sh' i p :
  extends sh sh' -> s_roots sh !! i = Some p -> s_roots sh' !! i = Some p.
Proof. intros (dp & dr & dc & ->) H. cbn. now apply lookup_app_l_Some. Qed.

Lemma extends_points parent sh sh' owner :
  extends sh sh' -> points parent (s_roots sh) owner -> points parent (s_roots sh') owner.
Proof. intros (dp & dr & dc & ->). cbn. apply points_extend. Qed.

Lemma survey_children_extends' here parent1 es sh :
  extends sh (survey_children here parent1 es sh).
Proof.
  apply survey_children_extends. apply Forall_forall.
  intros e _ here' parent' sh'. apply survey_extends.
Qed.

Lemma owner_on_path_dir rest node here owner p :
  owner_on_path rest node here owner = Some p -> is_dir node = true.
Proof. destruct rest, node; simpl; congruence. Qed.

Lemma survey_children_complete here parent1 owner1 es :
  Forall (fun e => complete_at (snd e)) es ->
  forall sh n c rest p,
    (n, c) ∈ es ->
    mem n EXCLUDED = false ->
    points parent1 (s_roots sh) owner1 ->
    owner_on_path rest c (here ++ [n]) owner1 = Some p ->
    exists i,
      (i, here ++ n :: rest) ∈ s_ctxs (survey_children here parent1 es sh)
      /\ s_roots (survey_children here parent1 es sh) !! i = Some p.
Proof.
  induction 1 as [|[n0 c0] es Hc _ IH]; intros sh n c rest p Hin Hx Hp Ho.
  - now apply elem_of_nil in Hin.
  - cbn [survey_children]. apply elem_of_cons in Hin. destruct Hin as [Heq|Hin].
    + injection Heq as <- <-. rewrite Hx, (owner_on_path_dir _ _ _ _ _ Ho). cbn.
      destruct (Hc (here ++ [n]) parent1 owner1 sh rest p Hp Ho) as (i & Hi & Hr).
      exists i. rewrite <- app_assoc in Hi. split.
      * eapply extends_ctxs; [apply survey_children_extends'|exact Hi].
      * eapply extends_lookup; [apply survey_children_extends'|exact Hr].
    + apply (IH _ n c rest p Hin Hx); [|exact Ho].
      destruct (negb (mem n0 EXCLUDED) && is_dir c0); [|exact Hp].
      eapply extends_points; [apply survey_extends|exact Hp].
Qed.

Lemma survey_complete node : complete_at node.
Proof.
  induction node as [|es IH] using fsnode_nested_ind;
    intros here parent owner sh rest p Hp Ho.
  - destruct rest; discriminate.
  - rewrite survey_Dir. cbv zeta.
    assert (Hproto : mem "proto.yaml" (map fst es) = false).
    { destruct rest; cbn [owner_on_path] in Ho;
        destruct (mem "proto.yaml" (map fst es)); congruence. }
    rewrite Hproto.
    set (parent1 := if mem "service.yaml" (map fst es)
                    then Some (length (s_roots sh)) else parent).
    set (owner1 := if mem "service.yaml" (map fst es) then Some here else owner).
    set (sh1 := if mem "service.yaml" (map fst es)
                then mkShape (s_protos sh) (s_roots sh ++ [here]) (s_ctxs sh) else sh).
    assert (Hp1 : points parent1 (s_roots sh1) owner1).
    { subst parent1 owner1 sh1. destruct (mem "service.yaml" (map fst es)); [|exact Hp].
      exists here. split; [|reflexivity]. cbn [s_roots].
      rewrite lookup_app_r by lia. now rewrite Nat.sub_diag. }
    set (sh2 := match parent1 with
                | Some i =>
                    if mem "Dockerfile" (map fst es)
                    then mkShape (s_protos sh1) (s_roots sh1) (s_ctxs sh1 ++ [(i, here)])
                    else sh1
                | None => sh1
                end).
    assert (Hr2 : s_roots sh2 = s_roots sh1).
    { subst sh2. destruct parent1; [|reflexivity].
      now destruct (mem "Dockerfile" (map fst es)). }
    destruct rest as [|n rest]; cbn [owner_on_path] in Ho; rewrite Hproto in Ho.
    + destruct (mem "Dockerfile" (map fst es)) eqn:Hdocker; [|discriminate].
      fold owner1 in Ho. rewrite Ho in Hp1.
      destruct parent1 as [i|] eqn:Hparent; [|discriminate].
      destruct Hp1 as (p' & Hl & Hp'). injection Hp' as <-.
      exists i. rewrite app_nil_r. split.
      * eapply extends_ctxs; [apply survey_children_extends'|].
        subst sh2. cbn [s_ctxs]. apply elem_of_app. right. apply list_elem_of_here.
      * eapply extends_lookup; [apply survey_children_extends'|].
        now rewrite Hr2.
    + destruct (mem n EXCLUDED) eqn:Hx; [discriminate|].
      destruct (assoc n es) as [child|] eqn:Hchild; [|discriminate].
      fold owner1 in Ho.
      apply (survey_children_complete here parent1 owner1 es IH sh2 n child rest p);
        [now apply assoc_elem_of|exact Hx| |exact Ho].
      now rewrite Hr2.
Qed.

(** X14.  [scan] misses no container context: every directory that lists
    a Dockerfile and is reached from the work directory through
    directories that are not excluded and list no proto.yaml, with a
    directory listing service.yaml at or above it, has its Dockerfile in
    the container list of the service rooted at the nearest such
    directory. *)
Theorem scan_attributes_every_context
    (exec : trace -> Command -> exn + string)
    (relpath : string -> string -> string) (name_of : string -> string)
    (b : Baker) (tree : fsnode) (t t' : trace)
    (protos : list Prototype) (services : list Service) (d p : list string) :
  scan exec relpath name_of b tree t = (t', inr (protos, services)) ->
  owner_on_path d tree [] None = Some p ->
  exists svc,
    svc ∈ services
    /\ root svc = pathstr b p
    /\ relpath (path_join (pathstr b d) "Dockerfile") (root svc) ∈ containers_of svc.
Proof.
  intros Hrun Ho. unfold scan in Hrun.
  assert (Ha0 : agrees relpath b ([], []) (mkShape [] [] [])).
  { split; [reflexivity|]. split; [reflexivity|]. split.
    - intros i svc Hi. cbn [snd] in Hi. now rewrite lookup_nil in Hi.
    - intros i d0 Hin. now apply elem_of_nil in Hin. }
  pose proof (descend_agrees exec relpath name_of b tree [] None ([], [])
                (mkShape [] [] []) t t' (protos, services) Ha0
                ltac:(intros i Hi; discriminate) Hrun) as (_ & Hr & Hc & _).
  destruct (survey_complete tree [] None None (mkShape [] [] []) d p eq_refl Ho)
    as (i & Hi & Hl).
  cbn [fst snd app] in *.
  assert (Hsvc : exists svc, services !! i = Some svc /\ root svc = pathstr b p).
  { pose proof (f_equal (fun l => l !! i) Hr) as Hlook. cbn beta in Hlook.
    rewrite !list_lookup_fmap, Hl in Hlook. cbn in Hlook.
    destruct (services !! i) as [svc|]; [|discriminate].
    exists svc. split; [reflexivity|]. now inversion Hlook. }
  destruct Hsvc as (svc & Hs & Hroot). exists svc.
  split; [eapply list_elem_of_lookup_2; exact Hs|]. split; [exact Hroot|].
  rewrite (Hc i svc Hs). apply list_elem_of_fmap.
  exists d. split; [reflexivity|]. unfold dirs_of. apply list_elem_of_fmap.
  exists (i, d). split; [reflexivity|].
  apply list_elem_of_In, List.filter_In. split; [now apply list_elem_of_In|].
  cbn. apply Nat.eqb_refl.
Qed.

Lemma scan_attributes_every_context_witness :
  exists svc,
    svc ∈ Sample.found
    /\ root svc = pathstr Sample.baker ["web"]
    /\ Sample.relpath (path_join (pathstr Sample.baker ["web"; "worker"]) "Dockerfile")
                      (root svc) ∈ containers_of svc.
Proof.
  eapply (scan_attributes_every_context Sample.git Sample.relpath Sample.name_of
            Sample.baker Sample.workspace [] _ _ Sample.found ["web"; "worker"] ["web"]).
  - vm_compute. reflexivity.
  - reflexivity.
Defined.

(** ** Scan: the commands it runs *)

Lemma recorded_app exec new1 : forall t new2,
  recorded exec t new1 ->
  recorded exec (t ++ map (fun kv => rev_parse (fst kv)) new1) new2 ->
  recorded exec t (new1 ++ new2).
Proof.
  induction new1 as [|[dir ver] new1 IH]; intros t new2 H1 H2.
  - cbn in H2. now rewrite app_nil_r in H2.
  - cbn [recorded app] in *. destruct H1 as [Hout H1]. split; [exact Hout|].
    apply IH; [exact H1|]. cbn [map fst] in H2. now rewrite <- app_assoc.
Qed.

Lemma map_root_version_alter (f : Service -> Service) i (l : list Service) :
  (forall svc, root_version (f svc) = root_version svc) ->
  map root_version (alter f i l) = map root_version l.
Proof.
  intros Hf. revert i. induction l as [|x l IH]; intros [|i]; simpl; try reflexivity.
  - now rewrite Hf.
  - f_equal. apply IH.
Qed.

Lemma walked_refl exec st t : walked exec st t st t.
Proof. exists []. cbn. rewrite !app_nil_r. now repeat split. Qed.

Lemma walked_trans exec st1 t1 st2 t2 st3 t3 :
  walked exec st1 t1 st2 t2 -> walked exec st2 t2 st3 t3 -> walked exec st1 t1 st3 t3.
Proof.
  intros (new1 & Hs1 & -> & Hr1) (new2 & Hs2 & -> & Hr2).
  exists (new1 ++ new2). rewrite Hs2, Hs1, map_app, !app_assoc.
  repeat split. now apply recorded_app.
Qed.

Section ScanTrace.
Variable exec : trace -> Command -> exn + string.
Variable relpath : string -> string -> string.
Variable name_of : string -> string.

Lemma descend_children_walked path parent1 es :
  Forall (fun e => forall path parent st t t' st',
            descend exec relpath name_of (snd e) path parent st t = (t', inr st') ->
            walked exec st t st' t') es ->
  forall st t t' st',
    descend_children exec relpath name_of path parent1 es st t = (t', inr st') ->
    walked exec st t st' t'.
Proof.
  induction 1 as [|[n c] es Hc _ IH]; intros st t t' st' Hrun.
  - inversion Hrun; subst. apply walked_refl.
  - cbn [descend_children] in Hrun. unfold bind in Hrun.
    destruct (negb (mem n EXCLUDED) && is_dir c).
    + destruct (descend exec relpath name_of c (path_join path n) parent1 st t)
        as [t1 [e|st1]] eqn:Hd; [discriminate|].
      eapply walked_trans; [apply (Hc _ _ _ _ _ _ Hd)|apply (IH _ _ _ _ Hrun)].
    + apply (IH _ _ _ _ Hrun).
Qed.

Lemma walked_container st t st' t' c i :
  walked exec (fst st, alter (fun svc => add_container (c svc) svc) i (snd st)) t st' t' ->
  walked exec st t st' t'.
Proof.
  intros (new & Hs & Ht & Hr). exists new. split; [|now split].
  cbn [snd] in Hs. now rewrite map_root_version_alter in Hs.
Qed.

Lemma descend_walked node : forall path parent st t t' st',
  descend exec relpath name_of node path parent st t = (t', inr st') ->
  walked exec st t st' t'.
Proof.
  induction node as [|es IH] using fsnode_nested_ind;
    intros path parent st t t' st' Hrun.
  - discriminate.
  - rewrite descend_Dir in Hrun. cbv zeta in Hrun.
    destruct (mem "proto.yaml" (map fst es)).
    { inversion Hrun; subst. exists []. cbn. rewrite !app_nil_r. now repeat split. }
    unfold bind at 1 in Hrun.
    destruct (mem "service.yaml" (map fst es)).
    + unfold bind, call, ret in Hrun.
      destruct (exec t _) as [e|out] eqn:Hout; [discriminate|].
      cbn [fst snd] in Hrun.
      assert (Hstep : walked exec st t
                (fst st, snd st ++ [mkService (name_of (path_join path "service.yaml"))
                                              (strip out) path
                                              (path_join path "service.yaml") []])
                (t ++ [rev_parse path])).
      { exists [(path, strip out)]. cbn [snd]. rewrite map_app. cbn.
        repeat split. now exists out. }
      eapply walked_trans; [exact Hstep|].
      destruct (mem "Dockerfile" (map fst es)).
      * eapply (walked_container (_, _)).
        apply (descend_children_walked _ _ es IH _ _ _ _ Hrun).
      * apply (descend_children_walked _ _ es IH _ _ _ _ Hrun).
    + unfold ret in Hrun. cbn [fst snd] in Hrun.
      destruct parent as [i|].
      * destruct (mem "Dockerfile" (map fst es)).
        -- eapply (walked_container st).
           apply (descend_children_walked _ _ es IH _ _ _ _ Hrun).
        -- apply (descend_children_walked _ _ es IH _ _ _ _ Hrun).
      * apply (descend_children_walked _ _ es IH _ _ _ _ Hrun).
Qed.
End ScanTrace.

(** X15.  A [scan] that returns has run one [git rev-parse HEAD] per
    service found, in the service's root directory and in the order the
    services are returned, and nothing else; the version of each service
    is the output of its command with the surrounding white space
    stripped. *)
Theorem scan_runs_rev_parse_per_service
    (exec : trace -> Command -> exn + string)
    (relpath : string -> string -> string) (name_of : string -> string)
    (b : Baker) (tree : fsnode) (t t' : trace)
    (protos : list Prototype) (services : list Service) :
  scan exec relpath name_of b tree t = (t', inr (protos, services)) ->
  t' = t ++ map (fun svc => rev_parse (root svc)) services
  /\ recorded exec t (map root_version services).
Proof.
  intros Hrun. unfold scan in Hrun.
  destruct (descend_walked exec relpath name_of tree _ _ _ _ _ _ Hrun)
    as (new & Hs & Ht & Hr).
  cbn [snd map app] in Hs. subst new t'. split; [|exact Hr].
  now rewrite map_map.
Qed.

Lemma scan_runs_rev_parse_per_service_witness :
  [rev_parse "/work/web"; rev_parse "/work/api"; rev_parse "/work/api/sub"]
  = [] ++ map (fun svc => rev_parse (root svc)) Sample.found
  /\ recorded Sample.git [] (map root_version Sample.found).
Proof.
  apply (scan_runs_rev_parse_per_service Sample.git Sample.relpath Sample.name_of
           Sample.baker Sample.workspace []
           [rev_parse "/work/web"; rev_parse "/work/api"; rev_parse "/work/api/sub"]
           [mkPrototype "/work/templates/proto.yaml"] Sample.found).
  vm_compute. reflexivity.
Defined.

(** ** Scan: when it returns *)

Section ScanReturns.
Variable exec : trace -> Command -> exn + string.
Variable relpath : string -> string -> string.
Variable name_of : string -> string.
Hypothesis git_answers : forall t dir, exists out,
  exec t (mkCommand [AStr "git"; AStr "rev-parse"; AStr "HEAD"] (Some dir) false)
  = inr out.


End ScanReturns.



(** ** Splitting and injecting *)

Lemma strip_prefix_sound p : forall s r,
  strip_prefix p s = Some r -> s = p +:+ r.
Proof.
  induction p as [|x p IH]; intros s r H.
  - destruct s; now inversion H.
  - destruct s as [|y s]; [discriminate|]. simpl in H.
    destruct (Ascii.eqb_spec x y) as [->|_]; [|discriminate].
    change (String y s = String y (p +:+ r)). f_equal. now apply IH.
Qed.

Lemma split_once_sound sep s : forall a b,
  split_once sep s = Some (a, b) -> s = a +:+ sep +:+ b.
Proof.
  induction s as [|c s IH]; intros a b H; cbn [split_once] in H.
  - destruct (strip_prefix sep "") as [after|] eqn:Hp; [|discriminate].
    inversion H; subst. destruct sep; [|discriminate]. now inversion Hp.
  - destruct (strip_prefix sep (String c s)) as [after|] eqn:Hp.
    + inversion H; subst.
      change (String c s = sep +:+ b). now apply strip_prefix_sound.
    + destruct (split_once sep s) as [[a0 b0]|] eqn:Hs; [|discriminate].
      inversion H; subst.
      change (String c s = String c (a0 +:+ sep +:+ b)). f_equal. now apply IH.
Qed.

Lemma strip_prefix_extend p : forall x y r,
  strip_prefix p x = Some r -> strip_prefix p (x +:+ y) = Some (r +:+ y).
Proof.
  induction p as [|a p IH]; intros x y r H.
  - destruct x; inversion H; reflexivity.
  - destruct x as [|b x]; [discriminate|]. simpl in *.
    destruct (Ascii.eqb a b); [now apply IH|discriminate].
Qed.

Lemma startswith_extend s p y : startswith s p = true -> startswith (s +:+ y) p = true.
Proof.
  unfold startswith. destruct (strip_prefix p s) as [r|] eqn:H; [|discriminate].
  now rewrite (strip_prefix_extend p s y r H).
Qed.

Lemma str_app_assoc (a b c : string) : (a +:+ b) +:+ c = a +:+ b +:+ c.
Proof.
  induction a as [|x a IH]; [reflexivity|].
  change (String x ((a +:+ b) +:+ c) = String x (a +:+ b +:+ c)). now rewrite IH.
Qed.

(** The separator is found at its leftmost occurrence. *)
Lemma split_once_leftmost sep s : forall a b,
  str_truthy sep = true ->
  split_once sep s = Some (a, b) -> str_contains sep a = false.
Proof.
  induction s as [|c s IH]; intros a b Hsep H; cbn [split_once] in H.
  - destruct (strip_prefix sep "") as [after|] eqn:Hp; [|discriminate].
    destruct sep; discriminate.
  - destruct (strip_prefix sep (String c s)) as [after|] eqn:Hp.
    + inversion H; subst. rewrite str_contains_unfold. unfold startswith.
      destruct sep; [discriminate|reflexivity].
    + destruct (split_once sep s) as [[a0 b0]|] eqn:Hs; [|discriminate].
      inversion H; subst. rewrite str_contains_unfold.
      rewrite (IH a0 b Hsep eq_refl).
      destruct (startswith (String c a0) sep) eqn:Hst; [|reflexivity].
      exfalso. apply (startswith_extend _ _ (sep +:+ b)) in Hst.
      pose proof (split_once_sound sep s a0 b Hs) as Hs'.
      change (String c a0 +:+ sep +:+ b) with (String c (a0 +:+ sep +:+ b)) in Hst.
      rewrite <- Hs' in Hst. unfold startswith in Hst. now rewrite Hp in Hst.
Qed.

Lemma split_once_none sep s :
  split_once sep s = None -> str_contains sep s = false.
Proof.
  induction s as [|c s IH]; intros H; cbn [split_once] in H.
  - rewrite str_contains_unfold. unfold startswith.
    now destruct (strip_prefix sep "").
  - rewrite str_contains_unfold. unfold startswith.
    destruct (strip_prefix sep (String c s)); [discriminate|].
    apply IH. now destruct (split_once sep s) as [[? ?]|].
Qed.

(** X17.  What the subprocess receives from [inject_token]: for a
    non-empty token, the URL with the token and an at sign inserted right
    after the first scheme separator, or put in front when the URL has
    none, so that taking them out gives the URL back; with no token, or
    an empty one, the URL itself. *)
Theorem inject_token_clear_text (url tok : string) :
  clear (inject_token url None) = url
  /\ clear (inject_token url (Some "")) = url
  /\ (str_truthy tok = true ->
      exists pre post,
        url = pre +:+ post
        /\ clear (inject_token url (Some tok)) = pre +:+ tok +:+ "@" +:+ post
        /\ (if str_contains "://" url
            then exists scheme, pre = scheme +:+ "://"
                                /\ str_contains "://" scheme = false
            else pre = "")).
Proof.
  split; [reflexivity|]. split; [reflexivity|]. intros Htok.
  rewrite inject_token_parts by exact Htok.
  destruct (split_once "://" url) as [[scheme rest]|] eqn:Hs.
  - pose proof (split_once_sound _ _ _ _ Hs) as Hu.
    exists (scheme +:+ "://"), rest. split; [|split].
    + rewrite Hu. symmetry. apply str_app_assoc.
    + change (clear (AElidable [Plain (scheme +:+ "://"); Secret tok; Plain ("@" +:+ rest)]))
        with ((scheme +:+ "://") +:+ (tok +:+ ("@" +:+ rest))).
      reflexivity.
    + assert (Hc : str_contains "://" url = true).
      { rewrite Hu. apply str_contains_app_r, str_contains_prefix. }
      rewrite Hc. exists scheme. split; [reflexivity|].
      now apply (split_once_leftmost "://" url scheme rest).
  - exists "", url. split; [reflexivity|]. split; [reflexivity|].
    now rewrite (split_once_none _ _ Hs).
Qed.

Lemma inject_token_clear_text_witness :
  str_truthy "s3cr3t" = true
  /\ exists pre post,
       "https://github.com/acme/web.git" = pre +:+ post
       /\ clear (inject_token "https://github.com/acme/web.git" (Some "s3cr3t"))
          = pre +:+ "s3cr3t" +:+ "@" +:+ post
       /\ exists scheme, pre = scheme +:+ "://" /\ str_contains "://" scheme = false.
Proof.
  split; [reflexivity|].
  exact (proj2 (proj2 (inject_token_clear_text "https://github.com/acme/web.git" "s3cr3t"))
               eq_refl).
Defined.

(** ** The command line *)

Lemma split_once_some sep s a b :
  split_once sep s = Some (a, b) -> str_contains sep s = true.
Proof.
  intros H. rewrite (split_once_sound _ _ _ _ H).
  apply str_contains_app_r, str_contains_prefix.
Qed.

(** X18.  [get_repo] cuts the docker repository argument at its first
    slash: the registry is the text before it and holds no slash, the
    repository is all the text after it, and the two put back around a
    slash give the argument; an argument without a slash is not split but
    raises ValueError. *)
Theorem get_repo_first_slash (args : gmap string json) (url : string) :
  args !! "<docker-repo>" = Some (JStr url) ->
  if str_contains "/" url
  then exists registry repo,
         get_repo args = inr (Some registry, Some repo)
         /\ url = registry +:+ "/" +:+ repo
         /\ str_contains "/" registry = false
  else get_repo args = inl ValueError.
Proof.
  intros Hu. unfold get_repo, arg_get. rewrite Hu. cbn [bindE].
  destruct (split_once "/" url) as [[registry repo]|] eqn:Hs.
  - rewrite (split_once_some _ _ _ _ Hs). exists registry, repo.
    split; [reflexivity|]. split.
    + now apply split_once_sound.
    + now apply (split_once_leftmost "/" url registry repo).
  - now rewrite (split_once_none _ _ Hs).
Qed.

Lemma get_repo_first_slash_witness :
  exists registry repo,
    get_repo {[ "<docker-repo>" := JStr "registry.io/acme/images" ]}
    = inr (Some registry, Some repo)
    /\ "registry.io/acme/images" = registry +:+ "/" +:+ repo
    /\ str_contains "/" registry = false.
Proof.
  apply (get_repo_first_slash {[ "<docker-repo>" := JStr "registry.io/acme/images" ]}
           "registry.io/acme/images").
  reflexivity.
Defined.

Lemma path_join_absolute a b :
  startswith a "/" = true -> startswith (path_join a b) "/" = true.
Proof.
  intros Ha. unfold path_join.
  destruct (startswith b "/") eqn:Hb; [exact Hb|].
  destruct (negb (str_truthy a) || endswith_slash a); now apply startswith_extend.
Qed.

(** X19.  With an absolute current directory, the work directory
    [get_workdir] returns is always absolute; an absolute [--workdir] is
    returned as given, and without the option the work directory is the
    current directory. *)
Theorem get_workdir_absolute (cwd : string) (args : gmap string json) (w : string) :
  startswith cwd "/" = true ->
  get_workdir cwd args = inr w ->
  startswith w "/" = true
  /\ (forall p, args !! "--workdir" = Some (JStr p) -> startswith p "/" = true -> w = p)
  /\ (args !! "--workdir" = Some JNull -> w = cwd).
Proof.
  intros Hcwd H. unfold get_workdir, arg_get in H.
  destruct (args !! "--workdir") as [v|] eqn:Hv; [|discriminate]. cbn [bindE] in H.
  split; [|split].
  - destruct (json_truthy v).
    + destruct v; try discriminate. inversion H; subst.
      destruct (startswith s "/") eqn:Hs; [exact Hs|].
      now apply path_join_absolute.
    + inversion H; subst. now rewrite Hcwd.
  - intros p Hp Habs. inversion Hp; subst. cbn [json_truthy] in H.
    assert (Ht : str_truthy p = true) by (destruct p; [discriminate|reflexivity]).
    rewrite Ht, Habs in H. now inversion H.
  - intros Hn. inversion Hn; subst. cbn [json_truthy] in H.
    rewrite Hcwd in H. now inversion H.
Qed.

Lemma get_workdir_absolute_witness :
  startswith "/home/dev" "/" = true
  /\ get_workdir "/home/dev" {[ "--workdir" := JStr "work" ]} = inr "/home/dev/work"
  /\ startswith "/home/dev/work" "/" = true.
Proof.
  split; [reflexivity|]. split; [reflexivity|].
  apply (get_workdir_absolute "/home/dev" {[ "--workdir" := JStr "work" ]} "/home/dev/work");
    reflexivity.
Defined.

Lemma head_of_shorter p : head_of p = p \/ String.length (head_of p) < String.length p.
Proof.
  induction p as [|c p IH]; [now left|]. cbn [head_of].
  destruct (str_truthy (head_of p) || Ascii.eqb c "/").
  - destruct IH as [-> | IH]; [now left|right]. cbn [String.length]. lia.
  - right. cbn [String.length]. lia.
Qed.

Lemma rstrip_slash_shorter s :
  rstrip_slash s = s \/ String.length (rstrip_slash s) < String.length s.
Proof.
  induction s as [|c s IH]; [now left|]. cbn [rstrip_slash].
  destruct (negb (str_truthy (rstrip_slash s)) && Ascii.eqb c "/").
  - right. cbn [String.length]. lia.
  - destruct IH as [-> | IH]; [now left|right]. cbn [String.length]. lia.
Qed.

(** A directory that is not its own parent has a shorter parent. *)
Lemma dirname_shorter p : dirname p = p \/ String.length (dirname p) < String.length p.
Proof.
  unfold dirname.
  destruct (str_truthy (head_of p) && str_truthy (rstrip_slash (head_of p))).
  - destruct (rstrip_slash_shorter (head_of p)) as [-> | H1];
      destruct (head_of_shorter p) as [H2 | H2]; try (now left); try (now right).
    + right. now rewrite H2 in *.
    + right. lia.
  - apply head_of_shorter.
Qed.

Lemma iter_dirname_fixed k p : dirname p = p -> iter_dirname k p = p.
Proof. intros H. induction k as [|k IH]; [reflexivity|]. cbn [iter_dirname]. now rewrite H. Qed.

Section Search.
Variable file_exists : string -> bool.
Local Abbreviation nearest := (nearest file_exists).

Lemma nearest_step path r :
  file_exists (path_join path "forge.yaml") = false ->
  nearest (dirname path) r -> nearest path r.
Proof.
  intros Hno. destruct r as [e|v]; [exact (fun H => H)|].
  destruct v; try exact (fun H => H); cbn [nearest].
  - intros H [|j]; [exact Hno|apply (H j)].
  - intros (k & Hc & He & Hlt). exists (S k). split; [exact Hc|]. split; [exact He|].
    intros [|j] Hj; [exact Hno|]. apply Hlt. lia.
Qed.

Lemma search_nearest fuel : forall prev path,
  match prev with
  | Some q => path = dirname q /\ file_exists (path_join q "forge.yaml") = false
  | None => True
  end ->
  String.length path + 2 <= fuel ->
  nearest path (search file_exists fuel prev path).
Proof.
  induction fuel as [|fuel IH]; intros prev path Hprev Hfuel; [lia|].
  cbn [search].
  destruct (match prev with Some p => String.eqb path p | None => false end) eqn:Hstop.
  - destruct prev as [q|]; [|discriminate]. apply String.eqb_eq in Hstop. subst q.
    destruct Hprev as [Hfix Hno]. cbn [nearest]. intros j.
    now rewrite iter_dirname_fixed.
  - destruct (file_exists (path_join path "forge.yaml")) eqn:Hc.
    + cbn [nearest]. exists 0. split; [reflexivity|]. split; [exact Hc|]. intros j Hj. lia.
    + apply nearest_step; [exact Hc|].
      destruct (dirname_shorter path) as [Hfix | Hlt].
      * destruct fuel as [|fuel']; [lia|]. cbn [search].
        rewrite !Hfix. rewrite String.eqb_refl. cbn [nearest]. intros j.
        now rewrite iter_dirname_fixed.
      * apply IH; [now split|lia].
Qed.
End Search.

(** X20.  Without [--config] and without FORGE_CONFIG in the
    environment, [get_config] walks up from the current directory and
    comes to an end: it answers the forge.yaml of the nearest directory,
    from the current one upwards, that has one, and [None] when no
    directory up to the root has one.  A number of loop turns above the
    length of the current directory's name is never used up. *)
Theorem get_config_nearest_ancestor
    (environ : gmap string string) (getcwd : string)
    (file_exists : string -> bool) (fuel : nat) (args : gmap string json) :
  args !! "--config" = Some JNull ->
  environ !! "FORGE_CONFIG" = None ->
  String.length getcwd + 2 <= fuel ->
  match get_config environ getcwd file_exists fuel args with
  | inr (JStr c) =>
      exists k, c = path_join (iter_dirname k getcwd) "forge.yaml"
                /\ file_exists c = true
                /\ forall j, j < k ->
                     file_exists (path_join (iter_dirname j getcwd) "forge.yaml") = false
  | inr JNull =>
      forall j, file_exists (path_join (iter_dirname j getcwd) "forge.yaml") = false
  | _ => False
  end.
Proof.
  intros Hc He Hfuel. unfold get_config, arg_get. rewrite Hc. cbn [bindE]. rewrite He.
  now apply (search_nearest file_exists fuel None getcwd).
Qed.

Lemma get_config_nearest_ancestor_witness :
  get_config ∅ "/home/dev/acme/web" (String.eqb "/home/dev/forge.yaml") 20
             {[ "--config" := JNull ]}
  = inr (JStr "/home/dev/forge.yaml")
  /\ exists k, "/home/dev/forge.yaml"
               = path_join (iter_dirname k "/home/dev/acme/web") "forge.yaml"
               /\ forall j, j < k ->
                    String.eqb "/home/dev/forge.yaml"
                      (path_join (iter_dirname j "/home/dev/acme/web") "forge.yaml") = false.
Proof.
  split; [reflexivity|].
  pose proof (get_config_nearest_ancestor ∅ "/home/dev/acme/web"
                (String.eqb "/home/dev/forge.yaml") 20 {[ "--config" := JNull ]}
                eq_refl eq_refl) as H.
  assert (Hf : String.length "/home/dev/acme/web" + 2 <= 20) by (simpl; lia).
  specialize (H Hf).
  change (get_config ∅ "/home/dev/acme/web" (String.eqb "/home/dev/forge.yaml") 20
            {[ "--config" := JNull ]})
    with (@inr exn json (JStr "/home/dev/forge.yaml")) in H.
  destruct H as (k & Hk & _ & Hlt). now exists k.
Defined.

(** *** default *)

Lemma fill_option_keeps conf args name args' key v :
  fill_option conf args name = inr args' ->
  args !! key = Some v -> v <> JNull -> args' !! key = Some v.
Proof.
  unfold fill_option. intros H Hk Hv.
  destruct (String.eqb_spec key ("--" +:+ name)) as [->|Hne].
  - rewrite Hk in H. destruct v; try congruence; cbn [bindE] in H;
      injection H as <-; exact Hk.
  - destruct (match args !! ("--" +:+ name) with
              | Some JNull => py_in name conf
              | Some _ => inr false
              | None => inr true
              end) as [e|[|]]; cbn [bindE] in H; try discriminate.
    + destruct (getitem conf name) as [e|x]; cbn [bindE] in H; [discriminate|].
      injection H as <-. now rewrite lookup_insert_ne.
    + injection H as <-. exact Hk.
Qed.

Lemma fill_option_other conf args name args' key :
  fill_option conf args name = inr args' ->
  key <> "--" +:+ name -> args' !! key = args !! key.
Proof.
  unfold fill_option. intros H Hne.
  destruct (match args !! ("--" +:+ name) with
            | Some JNull => py_in name conf
            | Some _ => inr false
            | None => inr true
            end) as [e|[|]]; cbn [bindE] in H; try discriminate.
  - destruct (getitem conf name) as [e|x]; cbn [bindE] in H; [discriminate|].
    injection H as <-. now rewrite lookup_insert_ne.
  - now injection H as <-.
Qed.

Lemma fill_positional_other conf args name args' key :
  fill_positional conf args name = inr args' ->
  key <> "<" +:+ name +:+ ">" -> args' !! key = args !! key.
Proof.
  unfold fill_positional. intros H Hne.
  destruct (match args !! name with
            | Some _ =>
                v <-- arg_get args ("<" +:+ name +:+ ">") ;;
                match v with JNull => py_in name conf | _ => inr false end
            | None => inr true
            end) as [e|[|]]; cbn [bindE] in H; try discriminate.
  - destruct (getitem conf name) as [e|x]; cbn [bindE] in H; [discriminate|].
    injection H as <-. now rewrite lookup_insert_ne.
  - now injection H as <-.
Qed.

Lemma fill_all_option_keeps conf names : forall args args' key v,
  fill_all fill_option conf names args = inr args' ->
  args !! key = Some v -> v <> JNull -> args' !! key = Some v.
Proof.
  induction names as [|n names IH]; intros args args' key v H Hk Hv; cbn [fill_all] in H.
  - now injection H as <-.
  - destruct (fill_option conf args n) as [e|a] eqn:Hf; cbn [bindE] in H; [discriminate|].
    apply (IH a args' key v H); [|exact Hv].
    now apply (fill_option_keeps conf args n).
Qed.

Lemma fill_all_option_other conf names : forall args args' key,
  fill_all fill_option conf names args = inr args' ->
  (forall n, key <> "--" +:+ n) -> args' !! key = args !! key.
Proof.
  induction names as [|n names IH]; intros args args' key H Hne; cbn [fill_all] in H.
  - now injection H as <-.
  - destruct (fill_option conf args n) as [e|a] eqn:Hf; cbn [bindE] in H; [discriminate|].
    rewrite (IH a args' key H Hne). now apply (fill_option_other conf args n).
Qed.

Lemma fill_all_positional_other conf names : forall args args' key,
  fill_all fill_positional conf names args = inr args' ->
  (forall n, n ∈ names -> key <> "<" +:+ n +:+ ">") -> args' !! key = args !! key.
Proof.
  induction names as [|n names IH]; intros args args' key H Hne; cbn [fill_all] in H.
  - now injection H as <-.
  - destruct (fill_positional conf args n) as [e|a] eqn:Hf; cbn [bindE] in H; [discriminate|].
    rewrite (IH a args' key H).
    + apply (fill_positional_other conf args n); [exact Hf|]. apply Hne. now left.
    + intros m Hm. apply Hne. now right.
Qed.

(** X21.  What was given on the command line survives [default], the two
    positional arguments apart: an entry of [args] other than
    [<organization>] and [<docker-repo>] whose value is not [None] has
    the same value after [default], whatever the configuration file
    holds. *)
Theorem default_keeps_given_options
    (environ : gmap string string) (getcwd : string)
    (file_exists : string -> bool) (load : string -> exn + json)
    (fuel : nat) (args args' : gmap string json) (key : string) (v : json) :
  default environ getcwd file_exists load fuel args = inr args' ->
  args !! key = Some v -> v <> JNull ->
  key <> "<organization>" -> key <> "<docker-repo>" ->
  args' !! key = Some v.
Proof.
  intros H Hk Hv Ho Hd. unfold default in H.
  destruct (get_config environ getcwd file_exists fuel args) as [e|conf_file];
    cbn [bindE] in H; [discriminate|].
  destruct (negb (json_truthy conf_file)); [injection H as <-; exact Hk|].
  destruct conf_file as [| | | |f| |]; try discriminate.
  destruct (load f) as [e|conf]; cbn [bindE] in H; [discriminate|].
  destruct (fill_all fill_option conf ["token"; "user"; "password"; "workdir"] args)
    as [e|a] eqn:Hopt; cbn [bindE] in H; [discriminate|].
  rewrite (fill_all_positional_other conf _ a args' key H).
  - now apply (fill_all_option_keeps conf _ args a key v Hopt).
  - intros n Hn. apply elem_of_cons in Hn as [->|Hn]; [exact Ho|].
    apply elem_of_cons in Hn as [->|Hn]; [exact Hd|]. now apply elem_of_nil in Hn.
Qed.

Lemma default_keeps_given_options_witness :
  default ∅ Invocation.getcwd Invocation.file_exists Invocation.load 20 Invocation.args
  = inr Invocation.defaulted
  /\ Invocation.defaulted !! "--token" = Some (JStr "given").
Proof.
  assert (H : default ∅ Invocation.getcwd Invocation.file_exists Invocation.load 20
                Invocation.args = inr Invocation.defaulted) by (vm_compute; reflexivity).
  split; [exact H|].
  apply (default_keeps_given_options ∅ Invocation.getcwd Invocation.file_exists
           Invocation.load 20 Invocation.args Invocation.defaulted "--token"
           (JStr "given") H);
    [reflexivity|discriminate|discriminate|discriminate].
Defined.

Lemma fill_positional_absent conf args name args' :
  args !! name = None ->
  fill_positional conf args name = inr args' ->
  exists v, getitem conf name = inr v /\ args' = <["<" +:+ name +:+ ">" := v]> args.
Proof.
  unfold fill_positional. intros Hn H. rewrite Hn in H. cbn [bindE] in H.
  destruct (getitem conf name) as [e|v]; cbn [bindE] in H; [discriminate|].
  injection H as <-. now exists v.
Qed.

(** X22.  When a configuration file is read, the organization and the
    docker repository are those of the file, whatever the command line
    gave: the membership test that guards the assignment looks for the
    bare names, which are no keys of [args], so [default] assigns both
    from the file, and it returns only if the file has both. *)
Theorem default_positionals_from_file
    (environ : gmap string string) (getcwd : string)
    (file_exists : string -> bool) (load : string -> exn + json)
    (fuel : nat) (args args' : gmap string json) (f : string) (conf : json) :
  get_config environ getcwd file_exists fuel args = inr (JStr f) ->
  str_truthy f = true ->
  load f = inr conf ->
  args !! "organization" = None ->
  args !! "docker-repo" = None ->
  default environ getcwd file_exists load fuel args = inr args' ->
  exists o d,
    getitem conf "organization" = inr o
    /\ getitem conf "docker-repo" = inr d
    /\ args' !! "<organization>" = Some o
    /\ args' !! "<docker-repo>" = Some d.
Proof.
  intros Hc Hf Hl Ho Hd H. unfold default in H. rewrite Hc in H. cbn [bindE] in H.
  cbn [json_truthy] in H. rewrite Hf in H. cbn [negb] in H. rewrite Hl in H.
  cbn [bindE] in H.
  destruct (fill_all fill_option conf ["token"; "user"; "password"; "workdir"] args)
    as [e|a] eqn:Hopt; cbn [bindE] in H; [discriminate|].
  assert (Hoth : forall key, (forall n, key <> "--" +:+ n) -> a !! key = args !! key).
  { intros key Hne. now apply (fill_all_option_other conf _ args a key Hopt). }
  cbn [fill_all] in H.
  destruct (fill_positional conf a "organization") as [e|a1] eqn:H1;
    cbn [bindE] in H; [discriminate|].
  destruct (fill_positional conf a1 "docker-repo") as [e|a2] eqn:H2;
    cbn [bindE] in H; [discriminate|].
  injection H as <-.
  apply fill_positional_absent in H1 as (o & Hgo & ->).
  2: { rewrite Hoth; [exact Ho|]. intros n. discriminate. }
  apply fill_positional_absent in H2 as (d & Hgd & ->).
  2: { rewrite lookup_insert_ne by discriminate.
       rewrite Hoth; [exact Hd|]. intros n. discriminate. }
  exists o, d. split; [exact Hgo|]. split; [exact Hgd|]. split.
  - rewrite lookup_insert_ne by discriminate. apply lookup_insert_eq.
  - apply lookup_insert_eq.
Qed.

Lemma default_positionals_from_file_witness :
  default ∅ Invocation.getcwd Invocation.file_exists Invocation.load 20 Invocation.args
  = inr Invocation.defaulted
  /\ exists o d,
       getitem Invocation.conf "organization" = inr o
       /\ getitem Invocation.conf "docker-repo" = inr d
       /\ Invocation.defaulted !! "<organization>" = Some o
       /\ Invocation.defaulted !! "<docker-repo>" = Some d.
Proof.
  assert (H : default ∅ Invocation.getcwd Invocation.file_exists Invocation.load 20
                Invocation.args = inr Invocation.defaulted) by (vm_compute; reflexivity).
  split; [exact H|].
  apply (default_positionals_from_file ∅ Invocation.getcwd Invocation.file_exists
           Invocation.load 20 Invocation.args Invocation.defaulted
           "/home/dev/forge.yaml" Invocation.conf);
    [vm_compute; reflexivity|reflexivity|reflexivity|reflexivity|reflexivity|exact H].
Defined.

(** *** subcommand and validate *)

Lemma subcommand_selected keys : forall args k v,
  k ∈ keys ->
  args !! k = Some v -> json_truthy v = true ->
  (forall k', k' ∈ keys -> k' <> k ->
     exists v', args !! k' = Some v' /\ json_truthy v' = false) ->
  subcommand keys args = inr k.
Proof.
  induction keys as [|k0 keys IH]; intros args k v Hin Hk Hv Hothers.
  - now apply elem_of_nil in Hin.
  - cbn [subcommand]. destruct (String.eqb_spec k0 k) as [->|Hne].
    + now rewrite Hk, Hv.
    + destruct (Hothers k0) as (v' & Hk0 & Hv'); [now left|exact Hne|].
      rewrite Hk0, Hv'. apply (IH args k v); try assumption.
      * apply elem_of_cons in Hin as [Heq|Hin]; [congruence|exact Hin].
      * intros k' Hk' Hne'. apply Hothers; [now right|exact Hne'].
Qed.

Lemma missing_args_unset required : forall args,
  (forall n, n ∈ required -> is_Some (args !! n)) ->
  missing_args required args = inr (List.filter (unset args) required).
Proof.
  induction required as [|n required IH]; intros args Hall; [reflexivity|].
  cbn [missing_args List.filter]. unfold arg_get, unset at 1.
  destruct (Hall n) as [v Hv]; [now left|]. rewrite Hv. cbn [bindE].
  rewrite IH by (intros m Hm; apply Hall; now right). cbn [bindE].
  now destruct (json_truthy v).
Qed.

(** X23.  [validate] does not depend on the order in which the
    dictionary of required arguments hands out its keys: when exactly one
    subcommand is set in [args], it checks the required arguments of that
    subcommand, returns when all are set, and otherwise raises a CLIError
    that names the unset ones in the order of the requirement. *)
Theorem validate_selected_subcommand
    (keys : list string) (args : gmap string json)
    (k : string) (v : json) (required : list string) :
  keys ≡ₚ map fst REQUIRED ->
  assoc k REQUIRED = Some required ->
  args !! k = Some v -> json_truthy v = true ->
  (forall k', k' ∈ keys -> k' <> k ->
     exists v', args !! k' = Some v' /\ json_truthy v' = false) ->
  (forall n, n ∈ required -> is_Some (args !! n)) ->
  subcommand keys args = inr k
  /\ validate keys args =
       match List.filter (unset args) required with
       | [] => inr tt
       | missing =>
           inl (Raised (CLIError ("missing arguments: " +:+ join ", " missing)))
       end.
Proof.
  intros Hperm Hreq Hk Hv Hothers Hall.
  assert (Hin : k ∈ keys).
  { rewrite Hperm. apply list_elem_of_fmap. exists (k, required).
    split; [reflexivity|]. now apply assoc_elem_of. }
  assert (Hsub : subcommand keys args = inr k)
    by now apply (subcommand_selected keys args k v).
  split; [exact Hsub|]. unfold validate. rewrite Hsub, Hreq.
  rewrite (missing_args_unset required args Hall). now destruct (List.filter (unset args) required).
Qed.

Lemma validate_selected_subcommand_witness :
  validate ["serve"; "create"; "deploy"; "push"; "bake"; "pull"]
    {[ "pull" := JBool true; "bake" := JBool false; "push" := JBool false;
       "deploy" := JBool false; "create" := JBool false; "serve" := JBool false;
       "<organization>" := JNull; "<docker-repo>" := JNull ]}
  = inl (Raised (CLIError "missing arguments: <organization>")).
Proof.
  refine (proj2 (validate_selected_subcommand
            ["serve"; "create"; "deploy"; "push"; "bake"; "pull"]
            {[ "pull" := JBool true; "bake" := JBool false; "push" := JBool false;
               "deploy" := JBool false; "create" := JBool false; "serve" := JBool false;
               "<organization>" := JNull; "<docker-repo>" := JNull ]}
            "pull" (JBool true) ["<organization>"] _ eq_refl eq_refl eq_refl _ _)).
  - change (rev (map fst REQUIRED) ≡ₚ map fst REQUIRED).
    symmetry. apply Permutation_rev.
  - intros k' Hin Hne.
    repeat (apply elem_of_cons in Hin as [->|Hin];
            [first [congruence | eexists; split; reflexivity]|]).
    now apply elem_of_nil in Hin.
  - intros n Hin. apply list_elem_of_singleton in Hin as ->. now eexists.
Defined.

(** ** The status display *)

Section DisplayFacts.
Variable terminal : Terminal.
Variable splitlines : string -> list string.
Local Abbreviation lines := (Display.lines terminal splitlines).

Lemma yield_lines_take limit : forall ls count,
  let n := Z.to_nat (Z.max 1 (limit - count)) in
  Display.yield_lines limit ls count
  = (take n ls, (count + Z.of_nat (length (take n ls)))%Z, Nat.leb n (length ls)).
Proof.
  induction ls as [|l ls IH]; intros count n; cbn [Display.yield_lines].
  - assert (Hn : Nat.leb n 0 = false) by (apply Nat.leb_gt; subst n; lia).
    rewrite take_nil. cbn [length]. rewrite Hn.
    now replace (count + Z.of_nat 0)%Z with count by lia.
  - destruct (Z.leb_spec limit (count + 1)) as [Hle|Hgt].
    + assert (Hn : n = 1) by (subst n; lia). rewrite Hn. reflexivity.
    + rewrite IH.
      assert (Hn : n = S (Z.to_nat (Z.max 1 (limit - (count + 1))))) by (subst n; lia).
      rewrite Hn. cbn [take length Nat.leb].
      set (m := Z.to_nat (Z.max 1 (limit - (count + 1)))).
      now replace (count + 1 + Z.of_nat (length (take m ls)))%Z
        with (count + Z.of_nat (S (length (take m ls))))%Z by lia.
Qed.

Lemma yield_items_take limit : forall items count,
  Display.yield_items terminal splitlines limit items count
  = take (Z.to_nat (Z.max 1 (limit - count)))
         (concat (map (fun item => rev (lines item)) items)).
Proof.
  induction items as [|item items IH]; intros count; cbn [Display.yield_items].
  - cbn [map concat]. now rewrite take_nil.
  - rewrite yield_lines_take. cbn [map concat].
    set (n := Z.to_nat (Z.max 1 (limit - count))).
    set (A := rev (lines item)).
    destruct (Nat.leb_spec n (length A)) as [Hle|Hgt].
    + now rewrite take_app_le.
    + rewrite take_app_ge by lia. rewrite (take_ge A) by lia. f_equal.
      rewrite IH. f_equal.
      assert (HA : 1 <= length A).
      { subst A. rewrite length_rev. unfold Display.lines. cbn [length]. lia. }
      subst n. lia.
Qed.

Lemma rev_concat_map {X Y} (f : X -> list Y) (l : list X) :
  concat (map (fun x => rev (f x)) (rev l)) = rev (concat (map f l)).
Proof.
  induction l as [|x l IH]; [reflexivity|]. cbn [rev map concat].
  rewrite map_app, concat_app, IH, rev_app_distr. cbn [map concat].
  now rewrite app_nil_r.
Qed.

End DisplayFacts.

(** X24.  What [render] puts on the screen: it moves up by the number of
    lines of the previous call, then writes the last lines of the whole
    log, oldest first, each followed by the clear and move-down codes, as
    many as the terminal is high and at least one when there is any, then
    a final clear code; and it keeps the number of lines written for the
    next call.  The log is the lines of all items in order, each item's
    summary line followed by its indented output when it is verbose. *)
Theorem render_shows_last_lines
    (terminal : Terminal) (splitlines : string -> list string)
    (items : list Item) (moved : nat) :
  let log := concat (map (Display.lines terminal splitlines) items) in
  let n := Z.to_nat (Z.max 1 (height terminal)) in
  Display.render terminal splitlines items moved
  = (Display.times (move_up terminal) moved
       :: map (fun line => line +:+ clear_eol terminal +:+ move_down terminal)
              (drop (length log - n) log)
       ++ [clear_eol terminal],
     Nat.min n (length log)).
Proof.
  intros log n. unfold Display.render, Display.render_tail.
  rewrite yield_items_take, rev_concat_map. fold log.
  replace (Z.to_nat (Z.max 1 (height terminal - 0))) with n by (subst n; f_equal; lia).
  rewrite firstn_rev, rev_involutive. f_equal.
  rewrite length_rev, length_skipn. lia.
Qed.

(** ** pull *)


Section FanOutMap.
Context {A B R : Type}.
Variable inj : A -> B.
Variable fn : B -> M (mapped R).
Variable items : list A.




End FanOutMap.


Section GitPull.
Variable exec : trace -> Command -> exn + string.
Variable path_exists : trace -> string -> bool.
Variable b : Baker.
Hypothesis exec_ok : forall t c, exists out, exec t c = inr out.

End GitPull.



(** *** Computations that only append allowed events *)

Section AddsOnly.
Variable allowed : event -> Prop.

Lemma adds_only_ret {A} (a : A) : adds_only allowed (ret a).
Proof. intros t. exists []. now rewrite app_nil_r. Qed.

Lemma adds_only_raise {A} (e : exn) : adds_only allowed (@raise A e).
Proof. intros t. exists []. now rewrite app_nil_r. Qed.

Lemma adds_only_lift {A} (r : exn + A) : adds_only allowed (lift r).
Proof. intros t. exists []. now rewrite app_nil_r. Qed.

Lemma adds_only_bind {A B} (m : M A) (k : A -> M B) :
  adds_only allowed m ->
  (forall a t t', m t = (t', inr a) -> adds_only allowed (k a)) ->
  adds_only allowed (bind m k).
Proof.
  intros Hm Hk t. unfold bind. destruct (Hm t) as (added & Ht & Hall).
  destruct (m t) as [t1 [e|a]] eqn:Hmt; cbn [fst] in Ht; subst t1.
  - now exists added.
  - destruct (Hk a t (t ++ added) Hmt (t ++ added)) as (added' & Ht' & Hall').
    exists (added ++ added'). rewrite Ht', app_assoc. split; [reflexivity|].
    now apply Forall_app.
Qed.

Lemma adds_only_event {A} (e : event) (r : trace -> exn + A) :
  allowed e -> adds_only allowed (fun t => (t ++ [e], r t)).
Proof. intros He t. exists [e]. split; [reflexivity|]. now constructor. Qed.

Section Threads.
Context {A R : Type}.
Variable fn : A -> M (mapped R).
Variable items : list A.
Hypothesis fn_adds : forall a, a ∈ items -> adds_only allowed (fn a).

Lemma run_thread_adds_only i finished t :
  exists added,
    fst (run_thread fn items i finished t) = t ++ added /\ Forall allowed added.
Proof.
  unfold run_thread.
  destruct (finished !! i); [exists []; now rewrite app_nil_r|].
  destruct (items !! i) as [a|] eqn:Ha; [|exists []; now rewrite app_nil_r].
  destruct (fn_adds a (list_elem_of_lookup_2 _ _ _ Ha) t) as (added & Ht & Hall).
  destruct (fn a t) as [t' r]. now exists added.
Qed.

Lemma run_schedule_adds_only order : forall finished t,
  exists added,
    fst (run_schedule fn items order finished t) = t ++ added /\ Forall allowed added.
Proof.
  induction order as [|i order IH]; intros finished t.
  - exists []. now rewrite app_nil_r.
  - cbn [run_schedule].
    destruct (run_thread_adds_only i finished t) as (added & Ht & Hall).
    destruct (run_thread fn items i finished t) as [t1 finished1].
    cbn [fst] in Ht. subst t1.
    destruct (IH finished1 (t ++ added)) as (added' & Ht' & Hall').
    exists (added ++ added'). rewrite Ht', app_assoc. split; [reflexivity|].
    now apply Forall_app.
Qed.

Lemma wait_each_adds_only threads : forall finished t,
  exists added,
    fst (wait_each fn items threads finished t) = t ++ added /\ Forall allowed added.
Proof.
  induction threads as [|i threads IH]; intros finished t.
  - exists []. now rewrite app_nil_r.
  - cbn [wait_each].
    destruct (run_thread_adds_only i finished t) as (added & Ht & Hall).
    destruct (run_thread fn items i finished t) as [t1 finished1].
    cbn [fst] in Ht. subst t1.
    destruct (IH finished1 (t ++ added)) as (added' & Ht' & Hall').
    assert (Hboth : Forall allowed (added ++ added')) by now apply Forall_app.
    destruct (finished1 !! i) as [[e|[|r]]|].
    + now exists added.
    + exists (added ++ added'). now rewrite Ht', app_assoc.
    + exists (added ++ added'). unfold bind.
      destruct (wait_each fn items threads finished1 (t ++ added)) as [t2 [e|rs]];
        cbn [fst] in *; now rewrite Ht', app_assoc.
    + exists (added ++ added'). now rewrite Ht', app_assoc.
Qed.

Lemma async_map_adds_only sched : adds_only allowed (async_map sched fn items).
Proof.
  intros t. unfold async_map.
  destruct (run_schedule_adds_only (sched t) ∅ t) as (added & Ht & Hall).
  destruct (run_schedule fn items (sched t) ∅ t) as [t1 finished].
  cbn [fst] in Ht. subst t1.
  destruct (wait_each_adds_only (seq 0 (length items)) finished (t ++ added))
    as (added' & Ht' & Hall').
  exists (added ++ added'). rewrite Ht', app_assoc. split; [reflexivity|].
  now apply Forall_app.
Qed.
End Threads.
End AddsOnly.

Lemma gh_trace parse_header_links fetch fuel b api expected t :
  exists urls,
    fst (gh parse_header_links fetch fuel b api expected t)
    = t ++ EvGet (api_request b api expected)
          :: map (fun u => EvGet (page_request b u)) urls.
Proof.
  unfold gh. unfold bind at 1. unfold get.
  fold (auth_headers b). fold (api_request b api expected).
  destruct (fetch t (api_request b api expected)) as [e|response].
  { now exists []. }
  unfold bind at 1. unfold response_json.
  destruct (body response) as [v|]; cbn [raise ret].
  2:{ now exists []. }
  destruct (ok response).
  2:{ now exists []. }
  unfold bind at 1. unfold lift.
  destruct (next_page parse_header_links response) as [e|next_url].
  { now exists []. }
  destruct (gh_pages_trace parse_header_links fetch b fuel next_url v
              (t ++ [EvGet (api_request b api expected)])) as (urls & Ht & _).
  exists urls. now rewrite Ht, <- app_assoc.
Qed.

Lemma filter_repos_matching fnmatch b items : forall filtered,
  filter_repos fnmatch b items = inr filtered ->
  forall r, r ∈ filtered ->
    exists full pattern,
      getitem r "full_name" = inr (JStr full)
      /\ name_filter b = Some pattern
      /\ fnmatch full pattern = true.
Proof.
  induction items as [|r0 items IH]; intros filtered H r Hr; cbn [filter_repos] in H.
  - injection H as <-. now apply elem_of_nil in Hr.
  - destruct (getitem r0 "full_name") as [e|v] eqn:Hg; [discriminate|].
    destruct v as [| | | |full| |]; try discriminate.
    destruct (name_filter b) as [pattern|] eqn:Hf; [|discriminate].
    destruct (filter_repos fnmatch b items) as [e|rs]; [discriminate|].
    injection H as <-.
    destruct (fnmatch full pattern) eqn:Hm.
    + apply elem_of_cons in Hr as [->|Hr]; [now exists full, pattern|].
      now apply (IH rs).
    + now apply (IH rs).
Qed.

Section PullFacts.
Variable exec : trace -> Command -> exn + string.
Variable fetch : trace -> Request -> exn + Response.
Variable path_exists : trace -> string -> bool.
Variable sched : trace -> list nat.
Variable parse_header_links : string -> list (list (string * string)).
Variable py_str : json -> string.
Variable fnmatch : string -> string -> bool.
Variable b : Baker.
Local Abbreviation allowed := (pull_event fnmatch b).

Lemma gh_adds_only fuel api expected :
  allowed (EvGet (api_request b api expected)) ->
  adds_only allowed (gh parse_header_links fetch fuel b api expected).
Proof.
  intros Hfirst t.
  destruct (gh_trace parse_header_links fetch fuel b api expected t) as (urls & ->).
  eexists. split; [reflexivity|]. constructor; [exact Hfirst|].
  apply Forall_forall. intros e He. apply list_elem_of_fmap in He as (u & -> & _).
  cbn. discriminate.
Qed.

Lemma verify_adds_only fuel r full pattern :
  getitem r "full_name" = inr (JStr full) ->
  name_filter b = Some pattern ->
  fnmatch full pattern = true ->
  adds_only allowed (verify fetch parse_header_links py_str b fuel r).
Proof.
  intros Hg Hf Hm. unfold verify. rewrite Hg.
  apply adds_only_bind; [apply adds_only_lift|]. intros v t t' Hv.
  injection Hv as _ <-. cbn [to_str].
  apply adds_only_bind; [|intros; apply adds_only_ret].
  apply gh_adds_only. cbn. intros _. now exists full, pattern.
Qed.

Lemma git_pull_adds_only item :
  adds_only allowed (git_pull exec path_exists b item).
Proof.
  destruct item as [nm clone_url]. unfold git_pull.
  apply adds_only_bind; [apply adds_only_lift|]. intros n _ _ _.
  apply adds_only_bind.
  { intros t. destruct (path_exists t (path_join (workdir b) n)).
    - apply adds_only_ret.
    - revert t. apply adds_only_bind.
      + apply adds_only_event. now exists n.
      + intros _ _ _ _. apply adds_only_bind; [|intros; apply adds_only_ret].
        apply adds_only_event. exists n. split; [reflexivity|now left]. }
  intros _ _ _ _. apply adds_only_bind.
  { destruct (opt_truthy (token b)).
    - apply adds_only_bind; [apply adds_only_lift|]. intros; apply adds_only_ret.
    - apply adds_only_ret. }
  intros a _ _ _. apply adds_only_bind; [|intros; apply adds_only_ret].
  apply adds_only_event. exists n. split; [reflexivity|right; now exists a].
Qed.

Lemma pull_adds_only fuel :
  adds_only allowed
    (pull exec fetch path_exists sched parse_header_links py_str fnmatch b fuel).
Proof.
  unfold pull.
  apply adds_only_bind; [apply gh_adds_only; cbn; discriminate|]. intros repos _ _ _.
  apply adds_only_bind; [apply adds_only_lift|]. intros items _ _ _.
  apply adds_only_bind; [apply adds_only_lift|]. intros filtered t0 t1 Hfil.
  injection Hfil as _ Hfil.
  apply adds_only_bind.
  { apply async_map_adds_only. intros r Hr.
    destruct (filter_repos_matching fnmatch b items filtered Hfil r Hr)
      as (full & pattern & Hg & Hf & Hm).
    now apply (verify_adds_only fuel r full pattern). }
  intros verified _ _ _.
  apply adds_only_bind; [apply adds_only_lift|]. intros urls _ _ _.
  unfold force, async_apply.
  apply adds_only_bind; [|intros; apply adds_only_ret].
  apply async_map_adds_only. intros item _. apply git_pull_adds_only.
Qed.
End PullFacts.

(** X26.  Whatever the hosting API answers and whatever the git commands
    do, a [pull] only appends to what has happened, and what it appends
    is: requests, of which those that tolerate a 404 (the verifications)
    ask about a repository whose full name matches the filter; [git init]
    and [git pull] commands, each run in a directory joined to the work
    directory; and the creation of such directories.  It writes no file
    and runs no other command. *)
Theorem pull_only_matching_and_git
    (exec : trace -> Command -> exn + string)
    (fetch : trace -> Request -> exn + Response)
    (path_exists : trace -> string -> bool)
    (sched : trace -> list nat)
    (parse_header_links : string -> list (list (string * string)))
    (py_str : json -> string)
    (fnmatch : string -> string -> bool)
    (b : Baker) (fuel : nat) (t : trace) :
  exists added,
    fst (pull exec fetch path_exists sched parse_header_links py_str fnmatch b fuel t)
    = t ++ added
    /\ Forall (pull_event fnmatch b) added.
Proof. apply pull_adds_only. Qed.

(** ** push: the login comes first *)

Lemma docker_push_adds_only exec image b item :
  adds_only (fun e => exists img, e = EvCall (push_command img))
            (docker_push exec image b item).
Proof.
  destruct item as [[svc nm] container]. unfold docker_push.
  apply adds_only_bind; [|intros; apply adds_only_ret].
  apply adds_only_event. now eexists.
Qed.

Lemma docker_actions_pushes added :
  Forall (fun e => exists img, e = EvCall (push_command img)) added ->
  exists imgs, docker_actions added = map push_command imgs.
Proof.
  induction 1 as [|e added [img ->] _ [imgs IH]]; [now exists []|].
  exists (img :: imgs). change (EvCall (push_command img) :: added)
    with ([EvCall (push_command img)] ++ added).
  unfold docker_actions in *. rewrite omap_app, IH. reflexivity.
Qed.

(** X27.  Whatever docker and the registry answer, a [push] runs no
    docker login and no docker push at all, or it runs the login first,
    with the operator's user, the password as a secret and the registry,
    and after it only pushes of images; there is a push only if the login
    has succeeded. *)
Theorem push_logs_in_first
    (exec : trace -> Command -> exn + string)
    (fetch : trace -> Request -> exn + Response)
    (sched : trace -> list nat)
    (parse_challenge : string -> exn + list (string * string))
    (py_str : json -> string)
    (image : option string -> option string -> string -> string -> string)
    (containers : list Service -> list (Service * string * string))
    (b : Baker) (services : list Service) (t : trace) :
  let t' := fst (push_services exec fetch sched parse_challenge py_str image
                               containers b services t) in
  docker_actions t' = docker_actions t
  \/ exists t1 imgs,
       docker_actions t1 = docker_actions t
       /\ docker_actions t' = docker_actions t ++ login_command b :: map push_command imgs
       /\ (imgs = [] \/ exists out, exec t1 (login_command b) = inr out).
Proof.
  intros t'. subst t'.
  destruct (push_services exec fetch sched parse_challenge py_str image containers b
              services t) as [t' r] eqn:Hrun.
  cbn [fst]. unfold push_services, async_apply in Hrun.
  pose proof (async_map_silent _ (containers services) docker_actions
                (candidate_no_action exec fetch parse_challenge py_str image b)
                sched t) as Hobs.
  unfold bind at 1 in Hrun.
  destruct (async_map sched _ (containers services) t) as [t1 [e|local]];
    cbn [fst] in Hobs; [injection Hrun as <- _; now left|].
  destruct local as [|x local].
  { left. unfold bind at 1 in Hrun. cbn [ret] in Hrun. unfold force, bind in Hrun.
    rewrite async_map_nil in Hrun. now injection Hrun as <- _. }
  right. exists t1. unfold bind at 1 in Hrun. unfold call in Hrun.
  change (mkCommand (argv (login_command b)) None false) with (login_command b) in Hrun.
  assert (Hlog : docker_actions (t1 ++ [EvCall (login_command b)])
                 = docker_actions t ++ [login_command b]).
  { unfold docker_actions in *. rewrite omap_app, Hobs. reflexivity. }
  destruct (exec t1 (login_command b)) as [e|out] eqn:Hlogin.
  { injection Hrun as <- _. exists []. split; [exact Hobs|].
    split; [exact Hlog|now left]. }
  unfold force, bind in Hrun.
  destruct (async_map_adds_only _ (docker_push exec image b) (x :: local)
              (fun item _ => docker_push_adds_only exec image b item) sched
              (t1 ++ [EvCall (login_command b)])) as (added & Ht & Hall).
  destruct (docker_actions_pushes added Hall) as [imgs Himgs].
  exists imgs. split; [exact Hobs|]. split; [|right; now exists out].
  destruct (async_map sched (docker_push exec image b) (x :: local)
              (t1 ++ [EvCall (login_command b)])) as [t2 [e|rs]];
    cbn [fst] in Ht; subst t2; injection Hrun as <- _;
    unfold docker_actions in *; rewrite omap_app, Hlog, Himgs, <- app_assoc; reflexivity.
Qed.
